(** * scripts/add_utoipa_annotations.py

    A shallow embedding of the annotation script of async-openai: the
    regular expression [pattern], the replacement callback
    [add_separate_derive], the substitution pass [re.sub] and the per-file
    and per-directory drivers, followed by the properties of the
    specification that concern them.

    Text is a list of characters.  Characters are 8-bit codes; the classes
    [\s] and [\w] are those of CPython for the code points below 256. *)

From Stdlib Require Import String Ascii List Bool Arith ZArith Lia.
Import ListNotations.

Set Implicit Arguments.

Local Open Scope list_scope.

(** ** Text *)

Definition text := list ascii.

Definition T (s : string) : text := list_ascii_of_string s.

Definition nl : ascii := ascii_of_nat 10.

(** [str.isspace] on a character, which is also the class [\s] of [re]. *)
Definition is_space (c : ascii) : bool :=
  let n := nat_of_ascii c in
  ((9 <=? n) && (n <=? 13)) || ((28 <=? n) && (n <=? 32))
  || (n =? 133) || (n =? 160).

(** The class [\w] of [re] on a [str] pattern. *)
Definition is_word (c : ascii) : bool :=
  let n := nat_of_ascii c in
  ((48 <=? n) && (n <=? 57)) || ((65 <=? n) && (n <=? 90))
  || (n =? 95) || ((97 <=? n) && (n <=? 122))
  || (n =? 170) || (n =? 178) || (n =? 179) || (n =? 181)
  || (n =? 185) || (n =? 186) || ((188 <=? n) && (n <=? 190))
  || ((192 <=? n) && (n <=? 214)) || ((216 <=? n) && (n <=? 246))
  || ((248 <=? n) && (n <=? 255)).

Definition mem (c : ascii) (cs : list ascii) : bool :=
  existsb (Ascii.eqb c) cs.

Fixpoint text_eqb (a b : text) : bool :=
  match a, b with
  | [], [] => true
  | x :: a', y :: b' => Ascii.eqb x y && text_eqb a' b'
  | _, _ => false
  end.

(** [p] is a prefix of [s]: [s.startswith(p)]. *)
Fixpoint starts_with (p s : text) : bool :=
  match p, s with
  | [], _ => true
  | x :: p', y :: s' => Ascii.eqb x y && starts_with p' s'
  | _ :: _, [] => false
  end.

(** [p in s] on strings. *)
Fixpoint contains (p s : text) : bool :=
  starts_with p s ||
  match s with
  | [] => false
  | _ :: s' => contains p s'
  end.

(** [s.rstrip()]: drop the trailing white space. *)
Fixpoint rstrip (s : text) : text :=
  match s with
  | [] => []
  | c :: s' =>
      match rstrip s' with
      | [] => if is_space c then [] else [c]
      | r => c :: r
      end
  end.

(** ** Regular expressions, as [re] matches them

    The matcher is a backtracking one: [mre r st] lists, in the order in
    which [re] tries them, the states in which a match of [r] from [st] can
    end.  The match [re] reports is the first one that lets the rest of
    the pattern succeed. *)

Inductive regex : Type :=
| Lit (c : ascii)                 (* a literal character *)
| NotIn (cs : list ascii)         (* [^...] *)
| Space                           (* \s *)
| Word                            (* \w *)
| Eps
| Seq (a b : regex)
| Alt (a b : regex)               (* a|b *)
| Star (r : regex)                (* r*, greedy *)
| Plus (r : regex)                (* r+, greedy *)
| NegLook (r : regex)             (* (?!r) *)
| Group (i : nat) (r : regex).    (* a capturing group *)

Record mstate : Type := MState {
  rest : text;                    (* the text from the current position on *)
  caps : list (nat * text)        (* the groups captured so far, last first *)
}.

Definition one_char (p : ascii -> bool) (st : mstate) : list mstate :=
  match rest st with
  | c :: t => if p c then [MState t (caps st)] else []
  | [] => []
  end.

(** The text between two positions of the same match. *)
Definition consumed (st st' : mstate) : text :=
  firstn (length (rest st) - length (rest st')) (rest st).

Definition set_group (i : nat) (st st' : mstate) : mstate :=
  MState (rest st') ((i, consumed st st') :: caps st').

Definition star_loop (step : mstate -> list mstate)
  : nat -> mstate -> list mstate :=
  fix loop (fuel : nat) (st : mstate) : list mstate :=
    match fuel with
    | 0 => [st]
    | S n =>
        flat_map
          (fun st' =>
             if length (rest st') <? length (rest st) then loop n st' else [])
          (step st)
        ++ [st]
    end.

Fixpoint mre (r : regex) (st : mstate) : list mstate :=
  match r with
  | Lit c => one_char (Ascii.eqb c) st
  | NotIn cs => one_char (fun x => negb (mem x cs)) st
  | Space => one_char is_space st
  | Word => one_char is_word st
  | Eps => [st]
  | Seq a b => flat_map (mre b) (mre a st)
  | Alt a b => mre a st ++ mre b st
  | Star r' => star_loop (mre r') (length (rest st)) st
  | Plus r' =>
      flat_map (fun st' => star_loop (mre r') (length (rest st')) st')
               (mre r' st)
  | NegLook r' => match mre r' st with [] => [st] | _ :: _ => [] end
  | Group i r' => map (set_group i st) (mre r' st)
  end.

Fixpoint lits (s : text) : regex :=
  match s with
  | [] => Eps
  | c :: s' => Seq (Lit c) (lits s')
  end.

Definition seqs (rs : list regex) : regex := fold_right Seq Eps rs.

(** ** The pattern of [add_utoipa_to_file] *)

Definition ch (s : string) : ascii :=
  match s with
  | String c _ => c
  | EmptyString => zero
  end.

(** [#\[[^d][^\]]*\]\s*] *)
Definition attr_not_d : regex :=
  seqs [lits (T "#["); NotIn [ch "d"]; Star (NotIn [ch "]"]); Lit (ch "]");
        Star Space].

(** [#\[d(?!erive\()[^\]]*\]\s*] *)
Definition attr_d_not_derive : regex :=
  seqs [lits (T "#[d"); NegLook (lits (T "erive(")); Star (NotIn [ch "]"]);
        Lit (ch "]"); Star Space].

(** [#\[derive\([^)]+\)\]\s*] *)
Definition derive_line : regex :=
  seqs [lits (T "#[derive("); Plus (NotIn [ch ")"]); lits (T ")]");
        Star Space].

(** [#\[[^\]]+\]\s*] *)
Definition attr_any : regex :=
  seqs [lits (T "#["); Plus (NotIn [ch "]"]); Lit (ch "]"); Star Space].

(** [///[^\n]*\n\s*] *)
Definition doc_line : regex :=
  seqs [lits (T "///"); Star (NotIn [nl]); Lit nl; Star Space].

(** [pub (?:struct|enum) (\w+)] *)
Definition type_header : regex :=
  seqs [lits (T "pub "); Alt (lits (T "struct")) (lits (T "enum"));
        Lit (ch " "); Group 6 (Plus Word)].

Definition pattern : regex :=
  seqs [Group 1 (Star (Alt attr_not_d attr_d_not_derive));
        Group 2 (Plus derive_line);
        Group 3 (Star attr_any);
        Group 4 (Star doc_line);
        Group 5 type_header].

(** ** Match objects *)

Record rmatch : Type := RMatch {
  m_whole : text;                 (* match.group(0) *)
  m_groups : list (nat * text);   (* the numbered groups *)
  m_after : text                  (* content[match.end():] *)
}.

Fixpoint group_of (i : nat) (gs : list (nat * text)) : text :=
  match gs with
  | [] => []
  | (j, t) :: gs' => if i =? j then t else group_of i gs'
  end.

Definition group (m : rmatch) (i : nat) : text := group_of i (m_groups m).

(** [pattern.match] at the start of [s]: the first way through the pattern. *)
Definition re_match (s : text) : option rmatch :=
  match mre pattern (MState s []) with
  | [] => None
  | st :: _ => Some (RMatch (consumed (MState s []) st) (caps st) (rest st))
  end.

(** ** The replacement callback *)

Definition types_to_skip : list text :=
  [T "CreateSpeechResponse"; T "AssistantStreamEvent"; T "ImageResponse";
   T "Image"].

Definition problematic_types : list text :=
  [T "Bytes"; T "ApiError"; T "Arc<"; T "PathBuf";
   T "InputSource"; T "WebSearchPreview"; T "AudioInput";
   T "FileInput"; T "HostedToolType"; T "ToolDefinition"; T "ImageInput";
   T "ResponseMetadata"].

Definition marker : text := T "utoipa::ToSchema".

Definition derive_marker_line : text := T "#[derive(utoipa::ToSchema)]".

(** The loop over [rest_of_content]; the result is [struct_content] when the
    loop is left, by [break] or at the end of the text. *)
Fixpoint body_loop (rest_of_content struct_content : text)
  (brace_count : Z) (in_struct : bool) : text :=
  match rest_of_content with
  | [] => struct_content
  | char :: rest' =>
      if Ascii.eqb char (ch "{") then
        body_loop rest' (struct_content ++ [char]) (brace_count + 1) true
      else if Ascii.eqb char (ch "}") then
        let brace_count := (brace_count - 1)%Z in
        if (brace_count =? 0)%Z && in_struct then struct_content
        else
          body_loop rest'
            (if in_struct then struct_content ++ [char] else struct_content)
            brace_count in_struct
      else
        body_loop rest'
          (if in_struct then struct_content ++ [char] else struct_content)
          brace_count in_struct
  end.

Definition any_problematic (struct_content : text) : bool :=
  existsb (fun problematic_type => contains problematic_type struct_content)
          problematic_types.

Definition add_separate_derive (m : rmatch) : text :=
  let pre_derive_attrs := group m 1 in
  let existing_derives := rstrip (group m 2) in
  let other_attributes := group m 3 in
  let doc_comments := group m 4 in
  let type_definition := group m 5 in
  let type_name := group m 6 in
  if contains marker existing_derives then m_whole m
  else if existsb (text_eqb type_name) types_to_skip then m_whole m
  else
    let rest_of_content := m_after m in
    let struct_content := body_loop rest_of_content [] 0%Z false in
    if any_problematic struct_content then m_whole m
    else
      match other_attributes with
      | _ :: _ =>
          pre_derive_attrs ++ existing_derives ++ [nl] ++ derive_marker_line
          ++ [nl] ++ other_attributes ++ doc_comments ++ type_definition
      | [] =>
          pre_derive_attrs ++ existing_derives ++ [nl] ++ derive_marker_line
          ++ [nl] ++ doc_comments ++ type_definition
      end.

(** ** [re.sub(pattern, add_separate_derive, content)]

    The scan looks for a match at the current position; on a match the
    callback's text is emitted and the scan goes on after the match,
    otherwise the character is copied and the scan moves one position on.
    A match of [pattern] is never empty, so [length content] steps are
    enough. *)
Fixpoint sub_loop (fuel : nat) (s : text) : text :=
  match fuel with
  | 0 => s
  | S n =>
      match re_match s with
      | Some m => add_separate_derive m ++ sub_loop n (m_after m)
      | None =>
          match s with
          | [] => []
          | c :: s' => c :: sub_loop n s'
          end
      end
  end.

Definition re_sub (content : text) : text := sub_loop (length content) content.

(** The body of the [try] of [add_utoipa_to_file], once the file is read. *)
Definition annotate (content : text) : text * bool :=
  let original_content := content in
  let modified := re_sub content in
  (modified, negb (text_eqb modified original_content)).

(** Lines joined by newlines, for the examples. *)
Fixpoint lines (ls : list string) : text :=
  match ls with
  | [] => []
  | [l] => T l
  | l :: ls' => T l ++ [nl] ++ lines ls'
  end.

(** [struct_content] as [add_separate_derive] computes it. *)
Definition extract_body (rest_of_content : text) : text :=
  body_loop rest_of_content [] 0%Z false.

(** ** The body of a declaration, stated on positions

    A second description of the body, as the loop computes it: a depth
    counter goes up on an opening brace and down on a closing one, the body
    starts at the first opening brace, and the scan stops at the first
    closing brace that brings the counter to zero after a brace was opened.
    The loop tests the counter on closing braces only. *)

Definition open_brace : ascii := ch "{".
Definition close_brace : ascii := ch "}".

Definition count (c : ascii) (t : text) : nat :=
  length (filter (Ascii.eqb c) t).

(** The depth counter after the characters of [t]. *)
Definition depth (t : text) : Z :=
  (Z.of_nat (count open_brace t) - Z.of_nat (count close_brace t))%Z.

Definition opened (t : text) : bool := existsb (Ascii.eqb open_brace) t.

(** Position of the first opening brace, or the length of the text. *)
Fixpoint open_index (t : text) : nat :=
  match t with
  | [] => 0
  | c :: t' => if Ascii.eqb c open_brace then 0 else S (open_index t')
  end.

(** The scan stops on the character at position [k]. *)
Definition stops (t : text) (k : nat) : bool :=
  match nth_error t k with
  | Some c =>
      Ascii.eqb c close_brace
      && (depth (firstn (S k) t) =? 0)%Z
      && opened (firstn k t)
  | None => false
  end.

(** The least position from [k] on, among [n], at which [P] holds, and
    [k + n] when there is none. *)
Fixpoint first_from (P : nat -> bool) (k n : nat) : nat :=
  match n with
  | 0 => k
  | S n' => if P k then k else first_from P (S k) n'
  end.

Definition stop_index (t : text) : nat := first_from (stops t) 0 (length t).

Definition body_spec (t : text) : text :=
  skipn (open_index t) (firstn (stop_index t) t).

(** ** The pattern, read as a parser

    What a match of [pattern] looks like, written as functions on the text:
    each returns the text left after what it reads.  They are related to
    [mre pattern] below ([re_match_spec]). *)

Fixpoint drop_while (p : ascii -> bool) (t : text) : text :=
  match t with
  | [] => []
  | c :: t' => if p c then drop_while p t' else t
  end.

Definition skip_spaces (t : text) : text := drop_while is_space t.

Definition not_char (c : ascii) : ascii -> bool :=
  fun x => negb (mem x [c]).

(** The text after the literal [l], when [t] starts with it. *)
Fixpoint after_lit (l t : text) : option text :=
  match l with
  | [] => Some t
  | c :: l' =>
      match t with
      | x :: t' => if Ascii.eqb c x then after_lit l' t' else None
      | [] => None
      end
  end.

(** Up to the first [c], then [c], then white space. *)
Definition close_with (c : ascii) (t : text) : option text :=
  match drop_while (not_char c) t with
  | x :: t' => if Ascii.eqb c x then Some (skip_spaces t') else None
  | [] => None
  end.

(** One attribute that is not a derive: [#[x...]] with [x] not [d], or
    [#[d...]] with [d] not followed by [erive(]. *)
Definition p_pre_attr (t : text) : option text :=
  match after_lit (T "#[") t with
  | Some (c :: t1) =>
      if not_char (ch "d") c then close_with (ch "]") t1
      else
        match after_lit (T "erive(") t1 with
        | Some _ => None
        | None => close_with (ch "]") t1
        end
  | _ => None
  end.

(** One derive line: [#[derive(], at least one character other than [)],
    then [)]] and white space. *)
Definition p_derive (t : text) : option text :=
  match after_lit (T "#[derive(") t with
  | Some (c :: t1) =>
      if not_char (ch ")") c then
        match after_lit (T ")]") (drop_while (not_char (ch ")")) t1) with
        | Some t2 => Some (skip_spaces t2)
        | None => None
        end
      else None
  | _ => None
  end.

(** One attribute of any kind: [#[], at least one character other than
    []], then []] and white space. *)
Definition p_attr (t : text) : option text :=
  match after_lit (T "#[") t with
  | Some (c :: t1) =>
      if not_char (ch "]") c then close_with (ch "]") t1 else None
  | _ => None
  end.

(** One documentation line: [///] up to the end of the line, then white
    space. *)
Definition p_doc (t : text) : option text :=
  match after_lit (T "///") t with
  | Some t1 => close_with nl t1
  | None => None
  end.

(** The header [pub struct Name] or [pub enum Name]: the text from the
    name on. *)
Definition p_keyword (t : text) : option text :=
  match after_lit (T "pub ") t with
  | Some t1 =>
      match after_lit (T "struct") t1 with
      | Some t2 => after_lit (T " ") t2
      | None =>
          match after_lit (T "enum") t1 with
          | Some t2 => after_lit (T " ") t2
          | None => None
          end
      end
  | None => None
  end.

Definition p_header (t : text) : option text :=
  match p_keyword t with
  | Some (c :: t1) => if is_word c then Some (drop_while is_word t1) else None
  | _ => None
  end.

(** A parser applied as often as it succeeds. *)
Fixpoint many (p : text -> option text) (fuel : nat) (t : text) : text :=
  match fuel with
  | 0 => t
  | S n =>
      match p t with
      | Some t' => many p n t'
      | None => t
      end
  end.

Definition skip_pre_attrs (t : text) : text := many p_pre_attr (length t) t.
Definition skip_attrs (t : text) : text := many p_attr (length t) t.
Definition skip_docs (t : text) : text := many p_doc (length t) t.

(** What follows the derive lines: attributes, documentation lines and the
    header. *)
Definition p_tail (t : text) : option text :=
  p_header (skip_docs (skip_attrs t)).

(** The derive lines of a match: as many as possible such that the tail
    follows. *)
Fixpoint p_derives (fuel : nat) (t : text) : option text :=
  match fuel with
  | 0 => None
  | S n =>
      match p_derive t with
      | None => None
      | Some t1 =>
          match p_derives n t1 with
          | Some t2 => Some t2
          | None =>
              match p_tail t1 with
              | Some _ => Some t1
              | None => None
              end
          end
      end
  end.

(** The text of [a] before its suffix [b]. *)
Definition before (a b : text) : text := firstn (length a - length b) a.

Definition match_spec (s : text) : option rmatch :=
  let s1 := skip_pre_attrs s in
  match p_derives (length s1) s1 with
  | None => None
  | Some s2 =>
      let s3 := skip_attrs s2 in
      let s4 := skip_docs s3 in
      match p_keyword s4, p_header s4 with
      | Some s5, Some s6 =>
          Some (RMatch (before s s6)
                  [(5, before s4 s6); (6, before s5 s6); (4, before s3 s4);
                   (3, before s2 s3); (2, before s1 s2); (1, before s s1)]
                  s6)
      | _, _ => None
      end
  end.

(** ** Notions used in the proofs *)

(** What has been collected after the prefix [p]. *)
Definition collected (p : text) : text := skipn (open_index p) p.

(** What the rest of the pattern, [K], makes of the ways [r] matches. *)
Definition run (r : regex) (K : mstate -> list mstate) (st : mstate)
  : list mstate :=
  flat_map K (mre r st).

Definition at_rest (st : mstate) (t : text) : mstate := MState t (caps st).

Definition run_char (p : ascii -> bool) (K : mstate -> list mstate)
  (st : mstate) : list mstate :=
  match rest st with
  | c :: t => if p c then K (at_rest st t) else []
  | [] => []
  end.

(** A character class under a star: the longest run first. *)
Fixpoint class_run (p : ascii -> bool) (K : mstate -> list mstate)
  (cs : list (nat * text)) (t : text) : list mstate :=
  match t with
  | c :: t' =>
      if p c then class_run p K cs t' ++ K (MState t cs) else K (MState t cs)
  | [] => K (MState [] cs)
  end.

(** [K] does not go on from a character of the class [p]. *)
Definition rejects (p : ascii -> bool) (K : mstate -> list mstate) : Prop :=
  forall st c t, rest st = c :: t -> p c = true -> K st = [].

(** The classes of the pattern. *)
Inductive is_class : regex -> (ascii -> bool) -> Prop :=
| class_not_in cs : is_class (NotIn cs) (fun x => negb (mem x cs))
| class_space : is_class Space is_space
| class_word : is_class Word is_word.

(** A regular expression that reads like the parser [d], whatever follows,
    as long as what follows does not start with white space. *)
Definition parses (r : regex) (d : text -> option text) : Prop :=
  forall K st,
    rejects is_space K ->
    run r K st =
    match d (rest st) with
    | Some t => K (at_rest st t)
    | None => []
    end.

Definition close_re (c : ascii) : regex :=
  Seq (Star (NotIn [c])) (Seq (Lit c) (Seq (Star Space) Eps)).

(** The ways through a chain of [d]: the longest first. *)
Fixpoint chain_run (d : text -> option text) (K : mstate -> list mstate)
  (fuel : nat) (st : mstate) : list mstate :=
  match fuel with
  | 0 => K st
  | S n =>
      match d (rest st) with
      | Some t => chain_run d K n (at_rest st t) ++ K st
      | None => K st
      end
  end.

Definition K0 : mstate -> list mstate := fun st => [st].

Definition tail5 : regex := Seq (Group 5 type_header) Eps.
Definition tail4 : regex := Seq (Group 4 (Star doc_line)) tail5.
Definition tail3 : regex := Seq (Group 3 (Star attr_any)) tail4.
Definition tail2 : regex := Seq (Group 2 (Plus derive_line)) tail3.

(** The state at the end of the header. *)
Definition header_state (st : mstate) (s5 s6 : text) : mstate :=
  MState s6 ((5, before (rest st) s6) :: (6, before s5 s6) :: caps st).

Definition header_result (st : mstate) : option mstate :=
  match p_keyword (rest st), p_header (rest st) with
  | Some s5, Some s6 => Some (header_state st s5 s6)
  | _, _ => None
  end.

(** The state after the attributes, the documentation lines and the header
    that follow the derive lines. *)
Definition tail_result (st : mstate) : option mstate :=
  let s3 := skip_attrs (rest st) in
  let s4 := skip_docs s3 in
  match p_keyword s4, p_header s4 with
  | Some s5, Some s6 =>
      Some (MState s6
              ((5, before s4 s6) :: (6, before s5 s6) :: (4, before s3 s4)
               :: (3, before (rest st) s3) :: caps st))
  | _, _ => None
  end.

(** More derive lines from [t] on, or none, such that the tail follows. *)
Definition best (n : nat) (t : text) : option text :=
  match p_derives n t with
  | Some t2 => Some t2
  | None =>
      match p_tail t with
      | Some _ => Some t
      | None => None
      end
  end.

(** The text the callback returns when it annotates. *)
Definition annotated (m : rmatch) : text :=
  group m 1 ++ rstrip (group m 2) ++ [nl] ++ derive_marker_line ++ [nl]
  ++ group m 3 ++ group m 4 ++ group m 5.

(** The callback annotates: no rule before the last one applies. *)
Definition qualifies (m : rmatch) : bool :=
  negb (contains marker (rstrip (group m 2)))
  && negb (existsb (text_eqb (group m 6)) types_to_skip)
  && negb (any_problematic (extract_body (m_after m))).

(** An indented declaration: the white space between the derive line and
    the header is not kept. *)
Definition indented : text :=
  lines ["    #[derive(Debug)]"%string; "    pub struct Foo {}"%string].

(** The text is empty or starts with a character that is not white space. *)
Definition nsp (t : text) : Prop :=
  match t with
  | c :: _ => is_space c = false
  | [] => True
  end.

Definition all_space (ws : text) : Prop := forallb is_space ws = true.

(** The texts the pieces of the pattern read, without the white space that
    follows them. *)
Definition closed_by (c : ascii) (x : text) : Prop :=
  exists y, x = y ++ [c] /\ forallb (not_char c) y = true.

Definition pre_attr_core (a : text) : Prop :=
  exists c x,
    a = T "#[" ++ c :: x /\ closed_by (ch "]") x
    /\ (c = ch "d" -> after_lit (T "erive(") x = None).

Definition derive_core (a : text) : Prop :=
  exists c x,
    a = T "#[derive(" ++ c :: x ++ T ")]" /\ not_char (ch ")") c = true
    /\ forallb (not_char (ch ")")) x = true.

Definition attr_core (a : text) : Prop :=
  exists c x,
    a = T "#[" ++ c :: x /\ not_char (ch "]") c = true
    /\ closed_by (ch "]") x.

Definition doc_core (a : text) : Prop :=
  exists x, a = T "///" ++ x /\ closed_by nl x.

(** A piece: a core and the white space after it. *)
Definition piece (core : text -> Prop) (a : text) : Prop :=
  exists b ws, a = b ++ ws /\ core b /\ all_space ws.

(** A sequence of pieces. *)
Inductive pieces (core : text -> Prop) : text -> Prop :=
| pieces_nil : pieces core []
| pieces_cons a l : piece core a -> pieces core l -> pieces core (a ++ l).

(** The text is empty or starts with a character that is not a word
    character. *)
Definition nw (t : text) : Prop :=
  match t with
  | c :: _ => is_word c = false
  | [] => True
  end.

Definition keyword_core (k : text) : Prop :=
  k = T "pub struct " \/ k = T "pub enum ".

Definition name_core (nm : text) : Prop :=
  nm <> [] /\ forallb is_word nm = true.

(** The parts of the match [m] found at the start of [s]: the attributes
    before the derive lines, the derive lines, the other attributes, the
    documentation lines, the keyword and the name; no further derive line
    could have been taken. *)
Definition is_match (s : text) (m : rmatch)
  (pre dl other docs k nm : text) : Prop :=
  s = pre ++ dl ++ other ++ docs ++ k ++ nm ++ m_after m
  /\ m_whole m = pre ++ dl ++ other ++ docs ++ k ++ nm
  /\ m_groups m = [(5, k ++ nm); (6, nm); (4, docs); (3, other); (2, dl);
                   (1, pre)]
  /\ pieces pre_attr_core pre
  /\ pieces derive_core dl /\ dl <> []
  /\ pieces attr_core other
  /\ pieces doc_core docs
  /\ keyword_core k /\ name_core nm /\ nw (m_after m)
  /\ p_derives (length (other ++ docs ++ k ++ nm ++ m_after m))
       (other ++ docs ++ k ++ nm ++ m_after m) = None.

(** ** The pass, segment by segment

    [re.sub] goes through the text from left to right: where the pattern
    matches, the match is a segment and the pass goes on after it, elsewhere
    one character is a segment. *)
Inductive segment : Type :=
| Copied (c : ascii)
| Matched (m : rmatch).

Fixpoint segments_loop (fuel : nat) (s : text) : list segment :=
  match fuel with
  | 0 => []
  | S n =>
      match re_match s with
      | Some m => Matched m :: segments_loop n (m_after m)
      | None =>
          match s with
          | [] => []
          | c :: s' => Copied c :: segments_loop n s'
          end
      end
  end.

Definition segments (content : text) : list segment :=
  segments_loop (length content) content.

(** The text of a segment before and after the pass. *)
Definition original (g : segment) : text :=
  match g with
  | Copied c => [c]
  | Matched m => m_whole m
  end.

Definition rewritten (g : segment) : text :=
  match g with
  | Copied c => [c]
  | Matched m => add_separate_derive m
  end.

(** The segment is a candidate that the callback annotates. *)
Definition is_annotated (g : segment) : bool :=
  match g with
  | Copied _ => false
  | Matched m => qualifies m
  end.

(** ** The text after one pass

    [image s o]: from a position at which the pass looks for a match, the
    pass turns [s] into [o]. *)
Inductive image : text -> text -> Prop :=
| image_nil : image [] []
| image_char c s o :
    re_match (c :: s) = None -> image s o -> image (c :: s) (c :: o)
| image_match s m o :
    re_match s = Some m -> image (m_after m) o ->
    image s (add_separate_derive m ++ o).

(** What is known where the pass has put an annotation line, about the
    text [s0] that followed the derive lines and what it became, [o0]. *)
Definition inserted_before (s0 o0 : text) : Prop :=
  exists other docs k nm after o',
    s0 = other ++ docs ++ k ++ nm ++ after
    /\ o0 = other ++ docs ++ k ++ nm ++ o'
    /\ pieces attr_core other /\ pieces doc_core docs
    /\ keyword_core k /\ name_core nm /\ nw after
    /\ p_derives (length s0) s0 = None
    /\ image after o'.

(** [related s o]: [o] is [s] with annotation lines put in, from any
    position on: characters are copied, and after a [)]] the white space may
    have become a newline, the annotation line and a newline. *)
Inductive related : text -> text -> Prop :=
| related_nil : related [] []
| related_copy c s o : related s o -> related (c :: s) (c :: o)
| related_ins ws s o :
    all_space ws -> nsp s -> related s o -> inserted_before s o ->
    related (T ")]" ++ ws ++ s)
            (T ")]" ++ nl :: derive_marker_line ++ nl :: o).

(** The position in [o] is at an annotation line the pass has put in. *)
Definition at_marker (s o : text) : Prop :=
  exists o0,
    o = derive_marker_line ++ nl :: o0
    /\ nsp s /\ related s o0 /\ inserted_before s o0.

Definition related_m (s o : text) : Prop := related s o \/ at_marker s o.

(** The positions after a closing bracket. *)
Definition related_after (s o : text) : Prop :=
  related s o
  \/ exists ws s0 o0,
       s = ws ++ s0 /\ o = nl :: derive_marker_line ++ nl :: o0
       /\ all_space ws /\ nsp s0 /\ related s0 o0 /\ inserted_before s0 o0.

Definition rel_opt (R : text -> text -> Prop) (x y : option text) : Prop :=
  match x, y with
  | Some a, Some b => R a b
  | None, None => True
  | _, _ => False
  end.

(** A text that starts with the annotation line. *)
Definition starts_with_marker (o : text) : Prop :=
  exists o', o = derive_marker_line ++ o'.

(** [related] without what is known at the insertions. *)
Inductive loosely : text -> text -> Prop :=
| loosely_nil : loosely [] []
| loosely_copy c s o : loosely s o -> loosely (c :: s) (c :: o)
| loosely_ins ws s o :
    all_space ws -> loosely s o ->
    loosely (ch "]" :: ws ++ s)
            (ch "]" :: nl :: derive_marker_line ++ nl :: o).

(** A text without white space and without a closing bracket. *)
Definition plain (p : text) : bool :=
  forallb (fun c => negb (is_space c) && negb (Ascii.eqb c (ch "]"))) p.

(** The positions inside an insertion, after its [)]. *)
Definition related_mid (s o : text) : Prop :=
  exists ws s0 o0,
    s = ch "]" :: ws ++ s0
    /\ o = ch "]" :: nl :: derive_marker_line ++ nl :: o0
    /\ all_space ws /\ nsp s0 /\ related s0 o0 /\ inserted_before s0 o0.

(** ** Notions used for the body of a declaration *)

(** A text without braces. *)
Definition brace_free (x : text) : bool :=
  forallb (fun c => negb (Ascii.eqb c (ch "{")) && negb (Ascii.eqb c (ch "}")))
          x.

(** The braces of [t] are matched, [below] braces being open before it. *)
Fixpoint nested_from (below : Z) (t : text) : bool :=
  match t with
  | [] => (below =? 0)%Z
  | c :: t' =>
      if Ascii.eqb c (ch "{") then nested_from (below + 1) t'
      else if Ascii.eqb c (ch "}") then
        (1 <=? below)%Z && nested_from (below - 1) t'
      else nested_from below t'
  end.

Definition well_nested (t : text) : bool := nested_from 0 t.

(** ** Notions used for the revised statements *)

(** The body after the words of the specification: the scan stops on the
    first character after which the depth counter is at zero and a brace
    has been opened, whatever that character is. *)
Definition stops_as_worded (t : text) (k : nat) : bool :=
  (k <? length t)
  && (depth (firstn (S k) t) =? 0)%Z
  && opened (firstn (S k) t).

Definition body_as_worded (t : text) : text :=
  skipn (open_index t)
        (firstn (first_from (stops_as_worded t) 0 (length t)) t).

(** What follows [pub struct A(u8)] when the declaration is the last one of
    a [mod] block and two declarations come after the block. *)
Definition after_tuple_struct_in_mod : text :=
  lines [";"%string; "}"%string; "pub struct B { x: PathBuf }"%string;
         "pub struct C { y: u8 }"%string].

(** A closing brace comes before the first opening brace. *)
Definition closes_first (t : text) : bool :=
  existsb (Ascii.eqb close_brace) (firstn (open_index t) t).

(** The pattern matches at no position of [a] in the text [a ++ s]. *)
Fixpoint no_match_in (a s : text) : bool :=
  match a with
  | [] => true
  | c :: a' =>
      match re_match (a ++ s) with
      | Some _ => false
      | None => no_match_in a' s
      end
  end.

(** Every [#] of the text is followed, three characters later or further,
    by a closing bracket: no attribute is left open. *)
Fixpoint hash_closed (d : text) : bool :=
  match d with
  | [] => true
  | c :: d' =>
      (if Ascii.eqb c (ch "#") then existsb (Ascii.eqb (ch "]")) (skipn 2 d')
       else true)
      && hash_closed d'
  end.

(** The last character of the text that is not white space. *)
Fixpoint last_nonspace (d : text) : option ascii :=
  match d with
  | [] => None
  | c :: d' =>
      match last_nonspace d' with
      | Some x => Some x
      | None => if is_space c then None else Some c
      end
  end.

(** [traversal s gs]: [gs] cuts [s], from left to right, into the texts of
    the required shape ([is_match]), each taken where the text before it
    ends, and the single characters at which no text of that shape
    starts. *)
Inductive traversal : text -> list segment -> Prop :=
| traversal_end : traversal [] []
| traversal_copy c s gs :
    (forall m pre dl other docs k nm,
        ~ is_match (c :: s) m pre dl other docs k nm) ->
    traversal s gs -> traversal (c :: s) (Copied c :: gs)
| traversal_candidate s m pre dl other docs k nm gs :
    is_match s m pre dl other docs k nm ->
    traversal (m_after m) gs -> traversal s (Matched m :: gs).

(** What the pass puts for a segment: a candidate becomes the annotated
    text when it qualifies and stays as it is otherwise. *)
Definition replaced (g : segment) : text :=
  match g with
  | Copied c => [c]
  | Matched m => if qualifies m then annotated m else m_whole m
  end.

(** [o] is [s] with a text put in at one place. *)
Definition put_in (s o : text) : Prop :=
  exists u x v, s = u ++ v /\ o = u ++ x ++ v.

(** ** Files, the terminal and the drivers

    The script reads and writes files, prints, and asks which files there
    are.  Each of these either returns or raises.  A computation is a
    function from the world to the world it leaves and what it returns or
    raises; [try] ... [except Exception] is [try_except]. *)

Definition path := text.

Inductive outcome (A : Type) : Type :=
| Returned (a : A)
| Raised (e : text).               (* an [Exception], as [str(e)] *)

Arguments Returned {A} a.
Arguments Raised {A} e.

(** The lines the script prints, one constructor for each [print]. *)
Inductive line : Type :=
| BannerTitle
| BannerRule
| CargoTomlNotFound
| RunFromRoot
| ExampleCommand
| DirectoryNotFound (dir : path)
| ProcessingFilesIn (dir : path)
| ErrorProcessing (file_path : path) (e : text)
| Processing (label : text)
| FailedToProcess (file_name : text)
| Modified (label : text)
| NoChangesNeeded (label : text)
| ProcessingSubdirectory (subdir_name : text)
| SummaryTitle
| SummaryTotal (total : nat)
| SummaryModified (modified : nat)
| SummaryUnchanged (unchanged : Z)
| CompletedSuccessfully
| NextSteps
| NextStepBuild
| NextStepDiff
| NextStepFmt
| CompletedWithErrors.

(** How [write_text] fails: [open(..., 'w')] raises and the file is as it
    was, or the exception comes after the file was opened, and so emptied:
    the file then holds the characters written so far. *)
Inductive write_fault : Type :=
| NotOpened (e : text)
| Interrupted (e : text) (written : nat).

Definition fault_error (f : write_fault) : text :=
  match f with
  | NotOpened e => e
  | Interrupted e _ => e
  end.

(** Paths lead to files, and two paths may lead to one file (links):
    [fs_file] gives the file of a path, [fs_data] what [read_text] gives
    for a file.  Whether a write or a [print] raises is decided by the
    world: for a write by the path and the text, for a [print] by the lines
    printed so far and the line. *)
Record world : Type := World {
  fs_file : path -> nat;
  fs_data : nat -> outcome text;
  fs_write_fault : path -> text -> option write_fault;
  stdout_error : list line -> line -> option text;
  stdout : list line
}.

Definition fs_read (w : world) (p : path) : outcome text :=
  fs_data w (fs_file w p).

Definition M (A : Type) : Type := world -> world * outcome A.

Definition ret {A : Type} (a : A) : M A := fun w => (w, Returned a).

Definition raise {A : Type} (e : text) : M A := fun w => (w, Raised e).

Definition bind {A B : Type} (m : M A) (k : A -> M B) : M B :=
  fun w =>
    match m w with
    | (w', Returned a) => k a w'
    | (w', Raised e) => (w', Raised e)
    end.

(** A call that does not change the world. *)
Definition lift {A : Type} (o : outcome A) : M A := fun w => (w, o).

Definition try_except {A : Type} (body : M A) (handler : text -> M A) : M A :=
  fun w =>
    match body w with
    | (w', Returned a) => (w', Returned a)
    | (w', Raised e) => handler e w'
    end.

Declare Scope io_scope.
Delimit Scope io_scope with io.

Notation "x <- m ;; k" := (bind m (fun x => k))
  (at level 61, m at next level, right associativity) : io_scope.
Notation "m ;; k" := (bind m (fun _ => k))
  (at level 61, right associativity) : io_scope.

Local Open Scope io_scope.

Definition printed (w : world) (l : line) : world :=
  World (fs_file w) (fs_data w) (fs_write_fault w) (stdout_error w)
        (stdout w ++ [l]).

Definition print (l : line) : M unit :=
  fun w =>
    match stdout_error w (stdout w) l with
    | Some e => (w, Raised e)
    | None => (printed w l, Returned tt)
    end.

Definition read_text (p : path) : M text := fun w => (w, fs_read w p).

(** The file [n] holds [t]. *)
Definition stored (w : world) (n : nat) (t : text) : world :=
  World (fs_file w)
        (fun k => if Nat.eqb k n then Returned t else fs_data w k)
        (fs_write_fault w) (stdout_error w) (stdout w).

Definition write_text (p : path) (t : text) : M unit :=
  fun w =>
    match fs_write_fault w p t with
    | None => (stored w (fs_file w p) t, Returned tt)
    | Some (NotOpened e) => (w, Raised e)
    | Some (Interrupted e written) =>
        (stored w (fs_file w p) (firstn written t), Raised e)
    end.

(** [rust_file.name]: what follows the last slash. *)
Fixpoint name (p : path) : text :=
  match p with
  | [] => []
  | c :: p' =>
      if existsb (Ascii.eqb (ch "/")) p' then name p'
      else if Ascii.eqb c (ch "/") then p' else p
  end.

(** [add_utoipa_to_file]: the [try] covers the read and the transformation;
    the [except Exception] prints, and returns [(None, False)]. *)
Definition add_utoipa_to_file (file_path : path) : M (option text * bool) :=
  try_except
    (content <- read_text file_path ;;
     let (modified, changed) := annotate content in
     ret (Some modified, changed))
    (fun e =>
       print (ErrorProcessing file_path e) ;;
       ret (None, false)).

Record counters : Type := Counters {
  total_files : nat;
  files_modified : nat
}.

(** The body of the two loops of [process_types_directory].  [shown] is
    what the loop prints for a file: [rust_file.name] in the first loop,
    [rust_file.relative_to(types_dir)] in the second (the failure line has
    the name in both). *)
Definition process_file (shown : path -> outcome text) (rust_file : path)
  (c : counters) : M counters :=
  if text_eqb (name rust_file) (T "mod.rs") then ret c
  else
    let total := S (total_files c) in
    label <- lift (shown rust_file) ;;
    print (Processing label) ;;
    r <- add_utoipa_to_file rust_file ;;
    match r with
    | (None, _) =>
        print (FailedToProcess (name rust_file)) ;;
        ret (Counters total (files_modified c))
    | (Some result, true) =>
        write_text rust_file result ;;
        let modified := S (files_modified c) in
        label <- lift (shown rust_file) ;;
        print (Modified label) ;;
        ret (Counters total modified)
    | (Some result, false) =>
        label <- lift (shown rust_file) ;;
        print (NoChangesNeeded label) ;;
        ret (Counters total (files_modified c))
    end.

(** What a generator yields, and the exception that ends it if one
    does. *)
Record listing (A : Type) : Type := Listing {
  found : list A;
  ends_with : option text
}.

Fixpoint for_each {A S : Type} (body : A -> S -> M S) (items : list A)
  (s : S) : M S :=
  match items with
  | [] => ret s
  | a :: others => s' <- body a s ;; for_each body others s'
  end.

(** [for a in g: body] *)
Definition for_in {A S : Type} (body : A -> S -> M S) (g : listing A)
  (s : S) : M S :=
  s' <- for_each body (found g) s ;;
  match ends_with g with
  | Some e => raise e
  | None => ret s'
  end.

Definition by_name (rust_file : path) : outcome text :=
  Returned (name rust_file).


Definition types_dir : path := T "async-openai/src/types".

(** [rust_file.relative_to(types_dir)]: the path below the directory, or a
    [ValueError] for a path that is not below it. *)
Definition relative_to (base p : path) : outcome text :=
  if text_eqb p base then Returned (T ".")
  else
    match after_lit (base ++ [ch "/"]) p with
    | Some r => Returned r
    | None => Raised (T "ValueError")
    end.

(** An entry of [types_dir.iterdir()]. *)
Record entry : Type := Entry {
  entry_name : text;                 (* subdir.name *)
  is_dir : outcome bool;             (* subdir.is_dir() *)
  rs_below : listing path            (* subdir.glob('**/*.rs') *)
}.

(** Which files there are does not change while the script runs (it only
    rewrites files it has read), so the answers of [exists], [glob],
    [iterdir] and [is_dir] are data; each of them may be an exception. *)
Record layout : Type := Layout {
  cargo_toml_exists : outcome bool;
                              (* Path('async-openai/Cargo.toml').exists() *)
  types_dir_exists : outcome bool;   (* types_dir.exists() *)
  rs_files : listing path;           (* types_dir.glob('*.rs') *)
  iterdir : listing entry            (* types_dir.iterdir() *)
}.

(** [for subdir in types_dir.iterdir(): if subdir.is_dir(): ...] *)
Definition process_subdir (subdir : entry) (c : counters) : M counters :=
  d <- lift (is_dir subdir) ;;
  if (d : bool) then
    print (ProcessingSubdirectory (entry_name subdir)) ;;
    for_in (process_file (relative_to types_dir)) (rs_below subdir) c
  else ret c.

Definition process_types_directory (d : layout) : M bool :=
  there <- lift (types_dir_exists d) ;;
  if negb there then
    print (DirectoryNotFound types_dir) ;;
    print RunFromRoot ;;
    ret false
  else
    print (ProcessingFilesIn types_dir) ;;
    c <- for_in (process_file by_name) (rs_files d) (Counters 0 0) ;;
    c <- for_in process_subdir (iterdir d) c ;;
    print SummaryTitle ;;
    print (SummaryTotal (total_files c)) ;;
    print (SummaryModified (files_modified c)) ;;
    print (SummaryUnchanged
             (Z.of_nat (total_files c) - Z.of_nat (files_modified c))) ;;
    ret true.

(** How the program ends. *)
Inductive ending : Type :=
| Returns                            (* [main] returns: exit status 0 *)
| SysExit (status : nat)             (* sys.exit(status) *)
| Uncaught (e : text).               (* an exception leaves [main] *)

Definition main_steps (d : layout) : M ending :=
  print BannerTitle ;;
  print BannerRule ;;
  there <- lift (cargo_toml_exists d) ;;
  if negb there then
    print CargoTomlNotFound ;;
    print RunFromRoot ;;
    print ExampleCommand ;;
    ret (SysExit 1)
  else
    success <- process_types_directory d ;;
    if (success : bool) then
      print CompletedSuccessfully ;;
      print NextSteps ;;
      print NextStepBuild ;;
      print NextStepDiff ;;
      print NextStepFmt ;;
      ret Returns
    else
      print CompletedWithErrors ;;
      ret (SysExit 1).

Definition main (d : layout) (w : world) : world * ending :=
  match main_steps d w with
  | (w', Returned how) => (w', how)
  | (w', Raised e) => (w', Uncaught e)
  end.

Local Close Scope io_scope.

(** ** Notions used for the drivers *)

(** The machine is the same: paths lead to the same files and the same
    writes and prints fail. *)
Definition same_machine (w w' : world) : Prop :=
  fs_file w' = fs_file w
  /\ fs_write_fault w' = fs_write_fault w
  /\ stdout_error w' = stdout_error w.

Definition is_mod (f : path) : bool := text_eqb (name f) (T "mod.rs").

(** The files a loop counts. *)
Definition counted (files : list path) : nat :=
  length (filter (fun f => negb (is_mod f)) files).

(** The file [n] is one a path of [files], not called [mod.rs], leads
    to. *)
Definition reached (files : list path) (w : world) (n : nat) : bool :=
  existsb (fun f => Nat.eqb n (fs_file w f) && negb (is_mod f)) files.

(** What a file holds once the script has processed it. *)
Definition processed (r : outcome text) : outcome text :=
  match r with
  | Returned content => Returned (re_sub content)
  | Raised e => Raised e
  end.

(** [finished files w w']: each file reached holds what the pass makes of
    what it held in [w], and the other files are as in [w]. *)
Definition finished (files : list path) (w w' : world) : Prop :=
  forall n,
    fs_data w' n
    = if reached files w n then processed (fs_data w n) else fs_data w n.

(** A write was interrupted: the file holds the first characters of what
    the pass makes of what it held. *)
Definition cut_short (r r' : outcome text) : Prop :=
  exists content written,
    r = Returned content /\ r' = Returned (firstn written (re_sub content)).

(** [touched files w w']: a file of [w'] is as in [w], or it is a file
    reached and holds what the pass makes of what it held, or the first
    characters of that. *)
Definition touched (files : list path) (w w' : world) : Prop :=
  forall n,
    fs_data w' n = fs_data w n
    \/ (reached files w n = true
        /\ (fs_data w' n = processed (fs_data w n)
            \/ cut_short (fs_data w n) (fs_data w' n))).

(** A file the pass leaves as it is, or that cannot be read. *)
Definition settled (w : world) (n : nat) : Prop :=
  match fs_data w n with
  | Returned content => re_sub content = content
  | Raised _ => True
  end.

Definition all_settled (files : list path) (w : world) : Prop :=
  forall f, In f files -> is_mod f = false -> settled w (fs_file w f).

Definition is_processing (l : line) : bool :=
  match l with Processing _ => true | _ => false end.

Definition is_modified (l : line) : bool :=
  match l with Modified _ => true | _ => false end.

Definition is_failed (l : line) : bool :=
  match l with FailedToProcess _ => true | _ => false end.

Definition is_unchanged (l : line) : bool :=
  match l with NoChangesNeeded _ => true | _ => false end.

(** How many lines of a kind there are in the output. *)
Definition lines_of (kind : line -> bool) (out : list line) : nat :=
  length (filter kind out).

(** The counters have grown by the numbers of lines of [out]. *)
Definition tallies (out : list line) (c0 c : counters) : Prop :=
  total_files c = total_files c0 + lines_of is_processing out
  /\ files_modified c = files_modified c0 + lines_of is_modified out
  /\ lines_of is_modified out + lines_of is_failed out
     + lines_of is_unchanged out
     = lines_of is_processing out.

(** Every file that could not be read has its two lines in [out]. *)
Definition reported (files : list path) (w : world) (out : list line)
  : Prop :=
  forall f e,
    In f files -> is_mod f = false -> fs_read w f = Raised e ->
    In (ErrorProcessing f e) out /\ In (FailedToProcess (name f)) out.

(** The script has gone through [files], from the world [w0] and the
    counters [c0] to [w] and [c]. *)
Definition went_through (files : list path) (w0 : world) (c0 : counters)
  (w : world) (c : counters) : Prop :=
  same_machine w0 w
  /\ finished files w0 w
  /\ exists out,
       stdout w = stdout w0 ++ out
       /\ tallies out c0 c
       /\ lines_of is_processing out = counted files
       /\ reported files w0 out
       /\ (all_settled files w0 ->
           fs_data w = fs_data w0 /\ lines_of is_modified out = 0).

(** Where an exception that ends the script comes from: from outside the
    world ([outside]: [exists], [is_dir], a generator, [relative_to]), from
    a [print], or from the write of one of [files]. *)
Definition cause (outside : text -> Prop) (files : list path) (w0 : world)
  (e : text) : Prop :=
  outside e
  \/ (exists out l, stdout_error w0 out l = Some e)
  \/ (exists f t fault,
        In f files /\ is_mod f = false
        /\ fs_write_fault w0 f t = Some fault /\ fault_error fault = e).

(** The script has broken off with the exception [e] while it went through
    [files]; with files that are settled, nothing was written and the
    exception does not come from a write. *)
Definition broke_off (outside : text -> Prop) (files : list path)
  (w0 w : world) (e : text) : Prop :=
  same_machine w0 w
  /\ touched files w0 w
  /\ cause outside files w0 e
  /\ (all_settled files w0 ->
      fs_data w = fs_data w0
      /\ (outside e \/ exists out l, stdout_error w0 out l = Some e)).

(** The files of the second loop. *)
Definition files_below (subdir : entry) : list path :=
  match is_dir subdir with
  | Returned true => found (rs_below subdir)
  | _ => []
  end.

Definition below (entries : list entry) : list path :=
  flat_map files_below entries.

(** The files the program goes through. *)
Definition all_files (d : layout) : list path :=
  found (rs_files d) ++ below (found (iterdir d)).

(** The exceptions of the calls that ask which files there are. *)
Definition outside_subdir (subdir : entry) (e : text) : Prop :=
  is_dir subdir = Raised e
  \/ (is_dir subdir = Returned true
      /\ (ends_with (rs_below subdir) = Some e
          \/ exists f, In f (found (rs_below subdir)) /\ is_mod f = false
                       /\ relative_to types_dir f = Raised e)).

Definition outside_directory (d : layout) (e : text) : Prop :=
  types_dir_exists d = Raised e
  \/ ends_with (rs_files d) = Some e
  \/ ends_with (iterdir d) = Some e
  \/ exists subdir, In subdir (found (iterdir d)) /\ outside_subdir subdir e.

Definition outside (d : layout) (e : text) : Prop :=
  cargo_toml_exists d = Raised e \/ outside_directory d e.

(** Nothing but a read fails: the prints and the writes do not raise, and
    neither do the calls that ask which files there are. *)
Definition quiet (w : world) : Prop :=
  forall out l, stdout_error w out l = None.


(** A directory for the examples: two files and [mod.rs] in [types_dir], a
    subdirectory with one file, and an entry that is not a directory.
    [audio.rs] and [voice.rs] are two paths to one file; [chat.rs] cannot
    be read. *)
Definition sample_layout : layout :=
  Layout (Returned true) (Returned true)
    (Listing
       [T "async-openai/src/types/audio.rs";
        T "async-openai/src/types/mod.rs";
        T "async-openai/src/types/chat.rs";
        T "async-openai/src/types/voice.rs"] None)
    (Listing
       [Entry (T "realtime") (Returned true)
          (Listing [T "async-openai/src/types/realtime/item.rs"] None);
        Entry (T "README.md") (Returned false) (Listing [] None)]
       None).

Definition sample_file (q : path) : nat :=
  if text_eqb q (T "async-openai/src/types/audio.rs") then 1
  else if text_eqb q (T "async-openai/src/types/voice.rs") then 1
  else if text_eqb q (T "async-openai/src/types/mod.rs") then 2
  else if text_eqb q (T "async-openai/src/types/realtime/item.rs") then 3
  else 0.

Definition sample_data (n : nat) : outcome text :=
  match n with
  | 1 => Returned (lines ["#[derive(Debug)]"%string;
                          "pub struct Voice {}"%string])
  | 2 => Returned (lines ["#[derive(Debug)]"%string;
                          "pub struct Hidden {}"%string])
  | 3 => Returned (lines ["#[derive(Clone)]"%string;
                          "pub enum Item { A }"%string])
  | _ => Raised (T "invalid utf-8")
  end.

Definition sample_world : world :=
  World sample_file sample_data (fun _ _ => None) (fun _ _ => None) [].



(** What a loop over [files] does, from the world [w0] and the counters
    [c0]: it goes through the files, and then no call has raised outside
    the world, or it breaks off. *)
Definition follows (outside : text -> Prop) (files : list path)
  (w0 : world) (c0 : counters) (r : world * outcome counters) : Prop :=
  match r with
  | (w, Returned c) =>
      went_through files w0 c0 w c /\ (forall e, ~ outside e)
  | (w, Raised e) => broke_off outside files w0 w e
  end.

(** A line that is not one of the four lines of a file. *)
Definition plain_line (l : line) : bool :=
  negb (is_processing l || is_modified l || is_failed l || is_unchanged l).

(** The world once the summary, and once the closing lines, are
    printed. *)
Definition after_summary (w : world) (c : counters) : world :=
  printed
    (printed
       (printed (printed w SummaryTitle) (SummaryTotal (total_files c)))
       (SummaryModified (files_modified c)))
    (SummaryUnchanged (Z.of_nat (total_files c) - Z.of_nat (files_modified c))).

Definition after_success (w : world) : world :=
  printed
    (printed
       (printed (printed (printed w CompletedSuccessfully) NextSteps)
          NextStepBuild)
       NextStepDiff)
    NextStepFmt.

(** The world when the loops start. *)
Definition at_start (w : world) : world :=
  printed (printed (printed w BannerTitle) BannerRule)
          (ProcessingFilesIn types_dir).


(** * Properties *)

(** ** The body of a declaration *)

Section Body.

Lemma count_snoc c t x :
  count c (t ++ [x]) = count c t + (if Ascii.eqb c x then 1 else 0).
Proof.
  unfold count. rewrite filter_app, length_app. simpl.
  destruct (Ascii.eqb c x); reflexivity.
Qed.

Lemma depth_snoc t x :
  depth (t ++ [x]) =
  (depth t + (if Ascii.eqb open_brace x then 1 else 0)
           - (if Ascii.eqb close_brace x then 1 else 0))%Z.
Proof.
  unfold depth. rewrite !count_snoc.
  destruct (Ascii.eqb open_brace x), (Ascii.eqb close_brace x); lia.
Qed.

Lemma opened_snoc t x :
  opened (t ++ [x]) = opened t || Ascii.eqb open_brace x.
Proof.
  unfold opened. rewrite existsb_app. simpl. now rewrite orb_false_r.
Qed.

Lemma open_index_le t : open_index t <= length t.
Proof.
  induction t as [|c t IH]; simpl; [lia|].
  destruct (Ascii.eqb c open_brace); lia.
Qed.

Lemma open_index_opened t r :
  opened t = true -> open_index (t ++ r) = open_index t /\ open_index t < length t.
Proof.
  unfold opened.
  induction t as [|c t IH]; cbn [existsb open_index app length];
    [discriminate|].
  rewrite (Ascii.eqb_sym open_brace c).
  destruct (Ascii.eqb c open_brace); cbn [orb]; [split; [reflexivity|lia]|].
  intros H. destruct (IH H) as [E L]. split; [now rewrite E|lia].
Qed.

Lemma open_index_closed t r :
  opened t = false -> open_index (t ++ r) = length t + open_index r.
Proof.
  unfold opened.
  induction t as [|c t IH]; cbn [existsb open_index app length];
    [reflexivity|].
  rewrite (Ascii.eqb_sym open_brace c).
  destruct (Ascii.eqb c open_brace); cbn [orb]; [discriminate|].
  intros H. rewrite IH by assumption. reflexivity.
Qed.

Lemma collected_snoc p x :
  collected (p ++ [x]) =
  if opened p || Ascii.eqb open_brace x then collected p ++ [x] else collected p.
Proof.
  unfold collected. destruct (opened p) eqn:O; cbn [orb].
  - destruct (open_index_opened p [x] O) as [E L]. rewrite E.
    rewrite skipn_app. replace (open_index p - length p) with 0 by lia.
    reflexivity.
  - rewrite (open_index_closed p [x] O).
    pose proof (open_index_closed p [] O) as E. rewrite app_nil_r in E.
    cbn [open_index] in E. rewrite E, Nat.add_0_r. rewrite (skipn_all p).
    cbn [open_index app]. rewrite (Ascii.eqb_sym open_brace x).
    destruct (Ascii.eqb x open_brace).
    + rewrite Nat.add_0_r, skipn_app, skipn_all, Nat.sub_diag. reflexivity.
    + rewrite skipn_all2; [reflexivity|]. rewrite length_app. simpl. lia.
Qed.

Lemma firstn_length_app (p r : text) : firstn (length p) (p ++ r) = p.
Proof.
  rewrite firstn_app, Nat.sub_diag, firstn_all. simpl. apply app_nil_r.
Qed.

Lemma firstn_S_length_app (p : text) c r :
  firstn (S (length p)) (p ++ c :: r) = p ++ [c].
Proof.
  replace (S (length p)) with (length (p ++ [c]))
    by (rewrite length_app; simpl; lia).
  replace (p ++ c :: r) with ((p ++ [c]) ++ r) by now rewrite <- app_assoc.
  apply firstn_length_app.
Qed.

Lemma stops_here p c r :
  stops (p ++ c :: r) (length p) =
  Ascii.eqb c close_brace && (depth (p ++ [c]) =? 0)%Z && opened p.
Proof.
  unfold stops. rewrite nth_error_app2, Nat.sub_diag by lia.
  cbn [nth_error]. now rewrite firstn_S_length_app, firstn_length_app.
Qed.

Lemma body_loop_spec r : forall p,
  body_loop r (collected p) (depth p) (opened p) =
  skipn (open_index (p ++ r))
        (firstn (first_from (stops (p ++ r)) (length p) (length r)) (p ++ r)).
Proof.
  induction r as [|c r IH]; intros p.
  - simpl. rewrite app_nil_r, firstn_all. reflexivity.
  - assert (E : p ++ c :: r = (p ++ [c]) ++ r) by now rewrite <- app_assoc.
    assert (L : S (length p) = length (p ++ [c]))
      by (rewrite length_app; simpl; lia).
    cbn [body_loop length first_from]. rewrite stops_here.
    fold open_brace close_brace.
    pose proof (depth_snoc p c) as D. pose proof (opened_snoc p c) as O.
    pose proof (collected_snoc p c) as C.
    rewrite (Ascii.eqb_sym open_brace c) in D, O, C.
    rewrite (Ascii.eqb_sym close_brace c) in D.
    destruct (Ascii.eqb c open_brace) eqn:Eo.
    + assert (Ec : Ascii.eqb c close_brace = false).
      { apply Ascii.eqb_eq in Eo. subst c. reflexivity. }
      rewrite Ec in *. simpl andb. cbv iota.
      rewrite orb_true_r in O, C.
      specialize (IH (p ++ [c])). rewrite C, D, O in IH.
      replace (depth p + 1 - 0)%Z with (depth p + 1)%Z in IH by lia.
      rewrite IH, E, L. reflexivity.
    + rewrite orb_false_r in O, C.
      destruct (Ascii.eqb c close_brace) eqn:Ec.
      * replace (depth p + 0 - 1)%Z with (depth p - 1)%Z in D by lia.
        rewrite D. simpl andb.
        destruct ((depth p - 1 =? 0)%Z && opened p) eqn:S.
        -- apply andb_true_iff in S. destruct S as [_ S].
           destruct (open_index_opened p (c :: r) S) as [Ei Li].
           rewrite Ei, firstn_app, Nat.sub_diag, firstn_all. simpl.
           rewrite app_nil_r. reflexivity.
        -- specialize (IH (p ++ [c])). rewrite C, D, O in IH.
           rewrite IH, E, L. reflexivity.
      * simpl andb. cbv iota.
        specialize (IH (p ++ [c])). rewrite C, D, O in IH.
        replace (depth p + 0 - 0)%Z with (depth p) in IH by lia.
        rewrite IH, E, L. reflexivity.
Qed.

End Body.

(** A closing brace before the first opening one takes the counter below
    zero; the closing braces that follow do not bring it back to zero and
    the body runs to the end of the text. *)
Example body_after_stray_brace :
  extract_body (T "} { x } y") = T "{ x } y"
  /\ extract_body (T " { a {b} c } d { e }") = T "{ a {b} c ".
Proof. split; reflexivity. Qed.

(** ** The matcher in continuation form *)

Section Run.

Lemma at_rest_same st : at_rest st (rest st) = st.
Proof. now destruct st. Qed.

Lemma flat_map_flat_map (A B C : Type) (f : A -> list B) (g : B -> list C) l :
  flat_map g (flat_map f l) = flat_map (fun x => flat_map g (f x)) l.
Proof.
  induction l as [|x l IH]; simpl; [reflexivity|].
  now rewrite flat_map_app, IH.
Qed.

Lemma flat_map_map' (A B C : Type) (f : A -> B) (g : B -> list C) l :
  flat_map g (map f l) = flat_map (fun x => g (f x)) l.
Proof.
  induction l as [|x l IH]; simpl; [reflexivity|]. now rewrite IH.
Qed.

Lemma run_seq a b K st : run (Seq a b) K st = run a (run b K) st.
Proof. unfold run. simpl. apply flat_map_flat_map. Qed.

Lemma run_eps K st : run Eps K st = K st.
Proof. unfold run. simpl. apply app_nil_r. Qed.

Lemma run_alt a b K st : run (Alt a b) K st = run a K st ++ run b K st.
Proof. unfold run. simpl. apply flat_map_app. Qed.

Lemma run_group i r K st :
  run (Group i r) K st = run r (fun st' => K (set_group i st st')) st.
Proof. unfold run. simpl. apply flat_map_map'. Qed.

Lemma run_neg r K st :
  run (NegLook r) K st = match mre r st with [] => K st | _ :: _ => [] end.
Proof.
  unfold run. simpl. destruct (mre r st); simpl; [apply app_nil_r|reflexivity].
Qed.

Lemma flat_map_one_char p K st : flat_map K (one_char p st) = run_char p K st.
Proof.
  unfold one_char, run_char, at_rest. destruct (rest st) as [|c t]; simpl;
    [reflexivity|]. destruct (p c); simpl; [apply app_nil_r|reflexivity].
Qed.

Lemma run_lit c K st : run (Lit c) K st = run_char (Ascii.eqb c) K st.
Proof. apply flat_map_one_char. Qed.

Lemma run_lits l : forall K st,
  run (lits l) K st =
  match after_lit l (rest st) with
  | Some t => K (at_rest st t)
  | None => []
  end.
Proof.
  induction l as [|c l IH]; intros K st.
  - cbn [lits after_lit]. now rewrite run_eps, at_rest_same.
  - cbn [lits after_lit]. rewrite run_seq, run_lit. unfold run_char.
    destruct (rest st) as [|x t]; [reflexivity|].
    destruct (Ascii.eqb c x); [|reflexivity]. now rewrite IH.
Qed.

Lemma star_class p K : forall fuel st,
  length (rest st) <= fuel ->
  flat_map K (star_loop (one_char p) fuel st)
  = class_run p K (caps st) (rest st).
Proof.
  induction fuel as [|n IH]; intros [t cs] L; cbn [rest caps] in *.
  - destruct t; [|simpl in L; lia]. simpl. apply app_nil_r.
  - cbn [star_loop]. rewrite flat_map_app. cbn [flat_map].
    rewrite app_nil_r. unfold one_char. cbn [rest caps].
    destruct t as [|c t]; [reflexivity|]. cbn [class_run].
    destruct (p c); [|reflexivity]. cbn [flat_map rest].
    replace (length t <? length (c :: t)) with true
      by (symmetry; apply Nat.ltb_lt; simpl; lia).
    rewrite app_nil_r. rewrite IH by (simpl in *; lia). reflexivity.
Qed.

Lemma class_run_rejects p K cs t :
  rejects p K -> class_run p K cs t = K (MState (drop_while p t) cs).
Proof.
  intros R. induction t as [|c t IH]; [reflexivity|]. cbn [class_run drop_while].
  destruct (p c) eqn:E; [|reflexivity].
  rewrite IH, (R (MState (c :: t) cs) c t); auto using app_nil_r.
Qed.

Lemma class_run_head p K cs t :
  exists junk, class_run p K cs t = K (MState (drop_while p t) cs) ++ junk.
Proof.
  induction t as [|c t [j IH]]; cbn [class_run drop_while].
  - exists []. now rewrite app_nil_r.
  - destruct (p c).
    + rewrite IH, <- app_assoc. eauto.
    + exists []. now rewrite app_nil_r.
Qed.

Lemma is_class_mre r p : is_class r p -> forall st, mre r st = one_char p st.
Proof. intros [] st; reflexivity. Qed.

Lemma star_loop_ext f g :
  (forall st, f st = g st) ->
  forall fuel st, star_loop f fuel st = star_loop g fuel st.
Proof.
  intros E. induction fuel as [|n IH]; intros st; [reflexivity|].
  cbn [star_loop]. rewrite E. f_equal. apply flat_map_ext. intros st'.
  now rewrite IH.
Qed.

Lemma run_star_class r p K st :
  is_class r p ->
  run (Star r) K st = class_run p K (caps st) (rest st).
Proof.
  intros C. unfold run. cbn [mre].
  rewrite (star_loop_ext _ _ (is_class_mre C)). now apply star_class.
Qed.

Lemma run_plus_class r p K st :
  is_class r p ->
  run (Plus r) K st =
  match rest st with
  | c :: t => if p c then class_run p K (caps st) t else []
  | [] => []
  end.
Proof.
  intros C. unfold run. cbn [mre]. rewrite (is_class_mre C).
  rewrite flat_map_flat_map, flat_map_one_char. unfold run_char.
  destruct (rest st) as [|c t]; [reflexivity|]. destruct (p c); [|reflexivity].
  rewrite (star_loop_ext _ _ (is_class_mre C)).
  now rewrite star_class.
Qed.

End Run.

Section Chains.

Lemma rejects_eps p K : rejects p K -> rejects p (run Eps K).
Proof. intros R st c t E H. rewrite run_eps. eauto. Qed.

Lemma rejects_lit p c K :
  (forall x, p x = true -> Ascii.eqb c x = false) -> rejects p (run (Lit c) K).
Proof.
  intros H st x t E P. rewrite run_lit. unfold run_char. rewrite E.
  now rewrite (H x P).
Qed.

Lemma drop_while_length p t : length (drop_while p t) <= length t.
Proof.
  induction t as [|c t IH]; simpl; [lia|]. destruct (p c); simpl; lia.
Qed.

Lemma after_lit_length l : forall t t',
  after_lit l t = Some t' -> length t = length l + length t'.
Proof.
  induction l as [|c l IH]; intros t t' H; simpl in H.
  - now inversion H.
  - destruct t as [|x t]; [discriminate|].
    destruct (Ascii.eqb c x); [|discriminate]. simpl. now rewrite (IH _ _ H).
Qed.

Lemma close_with_length c t t' :
  close_with c t = Some t' -> length t' < length t.
Proof.
  unfold close_with. pose proof (drop_while_length (not_char c) t) as L.
  destruct (drop_while (not_char c) t) as [|x r]; [discriminate|].
  destruct (Ascii.eqb c x); [|discriminate]. intros H. inversion H. subst.
  pose proof (drop_while_length is_space r). unfold skip_spaces.
  simpl in L. lia.
Qed.

Lemma not_char_eqb c x : not_char c x = true -> Ascii.eqb c x = false.
Proof.
  unfold not_char, mem. simpl. rewrite orb_false_r, Ascii.eqb_sym.
  now destruct (Ascii.eqb c x).
Qed.

Lemma run_spaces_end K st :
  rejects is_space K ->
  run (Seq (Star Space) Eps) K st = K (at_rest st (skip_spaces (rest st))).
Proof.
  intros R. rewrite run_seq, (run_star_class _ _ class_space).
  rewrite class_run_rejects by now apply rejects_eps.
  now rewrite run_eps.
Qed.

Lemma run_close_tail c K st :
  rejects is_space K ->
  run (Seq (Lit c) (Seq (Star Space) Eps)) K st =
  match rest st with
  | x :: t' => if Ascii.eqb c x then K (at_rest st (skip_spaces t')) else []
  | [] => []
  end.
Proof.
  intros R. rewrite run_seq, run_lit. unfold run_char.
  destruct (rest st) as [|x t'] eqn:E; [reflexivity|].
  destruct (Ascii.eqb c x); [|reflexivity].
  now rewrite run_spaces_end.
Qed.

Lemma rejects_close_tail c K :
  rejects (not_char c) (run (Seq (Lit c) (Seq (Star Space) Eps)) K).
Proof.
  intros st x t E P. rewrite run_seq.
  refine (@rejects_lit (not_char c) c _ _ st x t E P).
  apply not_char_eqb.
Qed.

Lemma run_close c : parses (close_re c) (close_with c).
Proof.
  intros K st R. unfold close_re. rewrite run_seq.
  rewrite (run_star_class _ _ (class_not_in [c])).
  change (fun x => negb (mem x [c])) with (not_char c).
  rewrite class_run_rejects by apply rejects_close_tail.
  rewrite run_close_tail by assumption. unfold close_with. cbn [rest].
  destruct (drop_while (not_char c) (rest st)) as [|x t']; [reflexivity|].
  destruct (Ascii.eqb c x); reflexivity.
Qed.

Variable r : regex.
Variable d : text -> option text.
Hypothesis r_parses : parses r d.
Hypothesis d_decreases : forall t t', d t = Some t' -> length t' < length t.
Hypothesis d_no_space : forall c t, is_space c = true -> d (c :: t) = None.

Lemma chain_run_rejects K fuel :
  rejects is_space K -> rejects is_space (chain_run d K fuel).
Proof.
  intros R st c t E S. destruct fuel as [|n]; cbn [chain_run]; eauto.
  rewrite E, d_no_space by assumption. eauto.
Qed.

Lemma star_chain K :
  rejects is_space K ->
  forall fuel st,
    flat_map K (star_loop (mre r) fuel st) = chain_run d K fuel st.
Proof.
  intros R. induction fuel as [|n IH]; intros st.
  - simpl. apply app_nil_r.
  - cbn [star_loop chain_run]. rewrite flat_map_app. cbn [flat_map].
    rewrite app_nil_r, flat_map_flat_map.
    set (K' := fun x => flat_map K
                 (if length (rest x) <? length (rest st)
                  then star_loop (mre r) n x else [])).
    change (flat_map K' (mre r st)) with (run r K' st).
    assert (R' : rejects is_space K').
    { intros st' c t E S. unfold K'.
      destruct (length (rest st') <? length (rest st)); [|reflexivity].
      rewrite IH. eapply chain_run_rejects; eauto. }
    rewrite (r_parses _ R').
    destruct (d (rest st)) as [t|] eqn:E; [|reflexivity].
    unfold K'. cbn [at_rest rest].
    replace (length t <? length (rest st)) with true
      by (symmetry; apply Nat.ltb_lt; eauto).
    now rewrite IH.
Qed.

Lemma chain_forced K :
  (forall st t, d (rest st) = Some t -> K st = []) ->
  forall fuel st,
    chain_run d K fuel st = K (at_rest st (many d fuel (rest st))).
Proof.
  intros X. induction fuel as [|n IH]; intros st; cbn [chain_run many].
  - now rewrite at_rest_same.
  - destruct (d (rest st)) as [t|] eqn:E.
    + rewrite (X st t E), app_nil_r, IH. reflexivity.
    + now rewrite at_rest_same.
Qed.

Lemma run_star_forced K st :
  rejects is_space K ->
  (forall st t, d (rest st) = Some t -> K st = []) ->
  run (Star r) K st = K (at_rest st (many d (length (rest st)) (rest st))).
Proof.
  intros R X. unfold run. cbn [mre]. rewrite star_chain by assumption.
  now apply chain_forced.
Qed.

Lemma run_plus_chain K st :
  rejects is_space K ->
  run (Plus r) K st =
  match d (rest st) with
  | Some t => chain_run d K (length t) (at_rest st t)
  | None => []
  end.
Proof.
  intros R. unfold run. cbn [mre]. rewrite flat_map_flat_map.
  set (K' := fun x => flat_map K (star_loop (mre r) (length (rest x)) x)).
  change (flat_map K' (mre r st)) with (run r K' st).
  assert (R' : rejects is_space K').
  { intros st' c t E S. unfold K'. rewrite star_chain by assumption.
    eapply chain_run_rejects; eauto. }
  rewrite (r_parses _ R'). destruct (d (rest st)) as [t|]; [|reflexivity].
  unfold K'. now rewrite star_chain.
Qed.

End Chains.

(** ** The pieces of the pattern as parsers *)

Section Pieces.

Lemma mre_as_run r st : mre r st = run r (fun x => [x]) st.
Proof.
  unfold run. induction (mre r st) as [|x l IH]; simpl; congruence.
Qed.

Lemma mre_lits l st :
  mre (lits l) st =
  match after_lit l (rest st) with
  | Some t => [at_rest st t]
  | None => []
  end.
Proof. rewrite mre_as_run. apply run_lits. Qed.

Lemma run_not_in cs K st :
  run (NotIn cs) K st = run_char (fun x => negb (mem x cs)) K st.
Proof. apply flat_map_one_char. Qed.

Lemma after_lit_app l1 l2 t :
  after_lit (l1 ++ l2) t =
  match after_lit l1 t with
  | Some t' => after_lit l2 t'
  | None => None
  end.
Proof.
  revert t. induction l1 as [|c l1 IH]; intros t; [reflexivity|].
  cbn [app after_lit]. destruct t as [|x t]; [reflexivity|].
  destruct (Ascii.eqb c x); [apply IH|reflexivity].
Qed.

Lemma after_lit_space l c t :
  is_space c = true ->
  match l with x :: _ => is_space x = false | [] => False end ->
  after_lit l (c :: t) = None.
Proof.
  destruct l as [|x l]; [tauto|]. intros S N. cbn [after_lit].
  destruct (Ascii.eqb x c) eqn:E; [|reflexivity].
  apply Ascii.eqb_eq in E. congruence.
Qed.

Lemma parses_attr_any : parses attr_any p_attr.
Proof.
  intros K st R. unfold attr_any, p_attr. cbn [seqs fold_right].
  rewrite run_seq, run_lits.
  destruct (after_lit (T "#[") (rest st)) as [t0|]; [|reflexivity].
  rewrite run_seq, (run_plus_class _ _ (class_not_in [ch "]"])).
  cbn [at_rest rest caps].
  destruct t0 as [|c t1]; [reflexivity|].
  change (negb (mem c [ch "]"])) with (not_char (ch "]") c).
  destruct (not_char (ch "]") c); [|reflexivity].
  change (fun x => negb (mem x [ch "]"])) with (not_char (ch "]")).
  rewrite class_run_rejects by apply rejects_close_tail.
  rewrite run_close_tail by assumption. unfold close_with. cbn [rest].
  destruct (drop_while (not_char (ch "]")) t1) as [|x t']; [reflexivity|].
  destruct (Ascii.eqb (ch "]") x); reflexivity.
Qed.

Lemma parses_derive_line : parses derive_line p_derive.
Proof.
  intros K st R. unfold derive_line, p_derive. cbn [seqs fold_right].
  rewrite run_seq, run_lits.
  destruct (after_lit (T "#[derive(") (rest st)) as [t0|]; [|reflexivity].
  rewrite run_seq, (run_plus_class _ _ (class_not_in [ch ")"])).
  cbn [at_rest rest caps].
  destruct t0 as [|c t1]; [reflexivity|].
  change (negb (mem c [ch ")"])) with (not_char (ch ")") c).
  destruct (not_char (ch ")") c); [|reflexivity].
  change (fun x => negb (mem x [ch ")"])) with (not_char (ch ")")).
  assert (Rj : rejects (not_char (ch ")"))
                 (run (Seq (lits (T ")]")) (Seq (Star Space) Eps)) K)).
  { intros st' x t E P. rewrite run_seq, run_lits, E.
    change (T ")]") with (ch ")" :: T "]"). cbn [after_lit].
    now rewrite (not_char_eqb _ _ P). }
  rewrite class_run_rejects by exact Rj.
  rewrite run_seq, run_lits. cbn [rest].
  destruct (after_lit (T ")]") (drop_while (not_char (ch ")")) t1)) as [t2|];
    [|reflexivity].
  now rewrite run_spaces_end.
Qed.

Lemma parses_doc_line : parses doc_line p_doc.
Proof.
  intros K st R. unfold doc_line, p_doc. cbn [seqs fold_right].
  rewrite run_seq, run_lits.
  destruct (after_lit (T "///") (rest st)) as [t0|]; [|reflexivity].
  exact (@run_close nl K (at_rest st t0) R).
Qed.

Lemma parses_pre_attr :
  parses (Alt attr_not_d attr_d_not_derive) p_pre_attr.
Proof.
  intros K st R. rewrite run_alt.
  unfold attr_not_d, attr_d_not_derive, p_pre_attr. cbn [seqs fold_right].
  rewrite !run_seq, !run_lits.
  change (T "#[d") with (T "#[" ++ T "d"). rewrite after_lit_app.
  destruct (after_lit (T "#[") (rest st)) as [t0|]; [|reflexivity].
  rewrite run_seq, run_not_in. unfold run_char. cbn [at_rest rest caps].
  destruct t0 as [|c t1]; [reflexivity|].
  change (negb (mem c [ch "d"])) with (not_char (ch "d") c).
  change (T "d") with [ch "d"]. cbn [after_lit].
  destruct (not_char (ch "d") c) eqn:N.
  - rewrite (not_char_eqb _ _ N), app_nil_r.
    exact (@run_close (ch "]") K (MState t1 (caps st)) R).
  - cbn [app]. unfold not_char, mem in N. cbn [existsb] in N.
    rewrite orb_false_r in N. apply negb_false_iff in N.
    rewrite Ascii.eqb_sym in N. rewrite N.
    rewrite run_seq, run_neg, mre_lits. cbn [at_rest rest caps].
    destruct (after_lit (T "erive(") t1); [reflexivity|].
    exact (@run_close (ch "]") K (MState t1 (caps st)) R).
Qed.

(** Each piece reads at least one character and does not start with white
    space. *)

Ltac lit_length H :=
  match type of H with
  | context [length (T ?s)] =>
      let n := eval vm_compute in (length (T s)) in
      change (length (T s)) with n in H
  end.

Lemma skip_spaces_length t : length (skip_spaces t) <= length t.
Proof. apply drop_while_length. Qed.

Lemma p_attr_decreases t t' : p_attr t = Some t' -> length t' < length t.
Proof.
  unfold p_attr. destruct (after_lit (T "#[") t) as [[|c t1]|] eqn:E;
    try discriminate.
  destruct (not_char (ch "]") c); [|discriminate]. intros H.
  apply close_with_length in H. apply after_lit_length in E. lit_length E. cbn [length] in E. lia.
Qed.

Lemma p_pre_attr_decreases t t' :
  p_pre_attr t = Some t' -> length t' < length t.
Proof.
  unfold p_pre_attr. destruct (after_lit (T "#[") t) as [[|c t1]|] eqn:E;
    try discriminate.
  apply after_lit_length in E. lit_length E. cbn [length] in E.
  destruct (not_char (ch "d") c).
  - intros H. apply close_with_length in H. lia.
  - destruct (after_lit (T "erive(") t1); [discriminate|].
    intros H. apply close_with_length in H. lia.
Qed.

Lemma p_derive_decreases t t' : p_derive t = Some t' -> length t' < length t.
Proof.
  unfold p_derive. destruct (after_lit (T "#[derive(") t) as [[|c t1]|] eqn:E;
    try discriminate.
  apply after_lit_length in E. lit_length E. cbn [length] in E.
  destruct (not_char (ch ")") c); [|discriminate].
  destruct (after_lit (T ")]") (drop_while (not_char (ch ")")) t1)) as [t2|]
    eqn:E2; [|discriminate].
  apply after_lit_length in E2. lit_length E2. intros H. inversion H. subst.
  pose proof (skip_spaces_length t2).
  pose proof (drop_while_length (not_char (ch ")")) t1). lia.
Qed.

Lemma p_doc_decreases t t' : p_doc t = Some t' -> length t' < length t.
Proof.
  unfold p_doc. destruct (after_lit (T "///") t) as [t1|] eqn:E;
    [|discriminate].
  apply after_lit_length in E. lit_length E. cbn [length] in E. intros H.
  apply close_with_length in H. lia.
Qed.

Lemma p_attr_no_space c t : is_space c = true -> p_attr (c :: t) = None.
Proof.
  intros S. unfold p_attr. now rewrite after_lit_space.
Qed.

Lemma p_pre_attr_no_space c t :
  is_space c = true -> p_pre_attr (c :: t) = None.
Proof.
  intros S. unfold p_pre_attr. now rewrite after_lit_space.
Qed.

Lemma p_derive_no_space c t : is_space c = true -> p_derive (c :: t) = None.
Proof.
  intros S. unfold p_derive. now rewrite after_lit_space.
Qed.

Lemma p_doc_no_space c t : is_space c = true -> p_doc (c :: t) = None.
Proof.
  intros S. unfold p_doc. now rewrite after_lit_space.
Qed.

End Pieces.

(** ** The pattern as a parser *)

Section Pattern.

Lemma pattern_tails :
  pattern = Seq (Group 1 (Star (Alt attr_not_d attr_d_not_derive))) tail2.
Proof. reflexivity. Qed.

Lemma run_name st K5 (st5 : mstate) :
  (forall x, K5 x = [set_group 5 st x]) ->
  hd_error (run (Seq (Group 6 (Plus Word)) Eps) K5 st5) =
  match rest st5 with
  | c :: t1 =>
      if is_word c
      then Some (MState (drop_while is_word t1)
                   ((5, before (rest st) (drop_while is_word t1))
                    :: (6, before (rest st5) (drop_while is_word t1))
                    :: caps st5))
      else None
  | [] => None
  end.
Proof.
  intros HK. rewrite run_seq, run_group, (run_plus_class _ _ class_word).
  destruct (rest st5) as [|c t1] eqn:E; [reflexivity|].
  destruct (is_word c); [|reflexivity].
  destruct (class_run_head is_word
              (fun st' => run Eps K5 (set_group 6 st5 st')) (caps st5) t1)
    as [junk ->].
  rewrite run_eps, HK. unfold set_group, consumed, before. cbn [rest caps].
  rewrite E. reflexivity.
Qed.

Lemma after_lit_struct_enum t t' :
  after_lit (T "struct") t = Some t' -> after_lit (T "enum") t = None.
Proof.
  destruct t as [|x t]; [discriminate|].
  change (T "struct") with (ch "s" :: T "truct").
  change (T "enum") with (ch "e" :: T "num"). cbn [after_lit].
  destruct (Ascii.eqb (ch "s") x) eqn:E; [|discriminate].
  apply Ascii.eqb_eq in E. subst x. reflexivity.
Qed.

Lemma run_tail5_hd st : hd_error (run tail5 K0 st) = header_result st.
Proof.
  unfold tail5, header_result, p_header, p_keyword.
  rewrite run_seq, run_group.
  unfold type_header. cbn [seqs fold_right].
  rewrite run_seq, run_lits.
  destruct (after_lit (T "pub ") (rest st)) as [t1|]; [|reflexivity].
  rewrite run_seq, run_alt, !run_lits. cbn [at_rest rest caps].
  set (K5 := fun st' => run Eps K0 (set_group 5 st st')).
  assert (HK : forall x, K5 x = [set_group 5 st x]).
  { intros x. unfold K5. now rewrite run_eps. }
  assert (Sp : forall t2 : text,
    hd_error
      (run (Seq (Lit (ch " ")) (Seq (Group 6 (Plus Word)) Eps)) K5
         (at_rest (MState t1 (caps st)) t2)) =
    match after_lit (T " ") t2 with
    | Some s5 =>
        match
          match s5 with
          | c :: t3 => if is_word c then Some (drop_while is_word t3) else None
          | [] => None
          end
        with
        | Some s6 => Some (header_state st s5 s6)
        | None => None
        end
    | None => None
    end).
  { intros t2. rewrite run_seq, run_lit. unfold run_char.
    cbn [at_rest rest caps]. change (T " ") with [ch " "]. cbn [after_lit].
    destruct t2 as [|x t3]; [reflexivity|].
    destruct (Ascii.eqb (ch " ") x); [|reflexivity].
    rewrite (@run_name st K5 _ HK). cbn [at_rest rest caps].
    destruct t3 as [|c t4]; [reflexivity|].
    destruct (is_word c); reflexivity. }
  destruct (after_lit (T "struct") t1) as [t2|] eqn:E1.
  - rewrite (after_lit_struct_enum _ E1), app_nil_r. rewrite Sp.
    destruct (after_lit (T " ") t2) as [s5|]; reflexivity.
  - cbn [app]. destruct (after_lit (T "enum") t1) as [t2|]; [|reflexivity].
    rewrite Sp. destruct (after_lit (T " ") t2) as [s5|]; reflexivity.
Qed.

Lemma hd_error_nil (A : Type) (l : list A) : hd_error l = None -> l = [].
Proof. destruct l; [reflexivity|discriminate]. Qed.

Lemma p_header_keyword t : p_keyword t = None -> p_header t = None.
Proof. unfold p_header. now intros ->. Qed.

Lemma run_tail5_nil st : p_header (rest st) = None -> run tail5 K0 st = [].
Proof.
  intros H. apply hd_error_nil. rewrite run_tail5_hd. unfold header_result.
  rewrite H. now destruct (p_keyword (rest st)).
Qed.

Lemma p_keyword_first t t' :
  p_keyword t = Some t' -> exists t0, t = ch "p" :: t0.
Proof.
  unfold p_keyword. destruct t as [|x t]; [discriminate|].
  change (T "pub ") with (ch "p" :: T "ub "). cbn [after_lit].
  destruct (Ascii.eqb (ch "p") x) eqn:E; [|discriminate].
  apply Ascii.eqb_eq in E. subst x. eauto.
Qed.

Lemma p_header_first t t' :
  p_header t = Some t' -> exists t0, t = ch "p" :: t0.
Proof.
  unfold p_header. destruct (p_keyword t) as [s5|] eqn:E; [|discriminate].
  intros _. eapply p_keyword_first; eauto.
Qed.

Lemma after_lit_first l t t' :
  after_lit l t = Some t' ->
  match l with c :: _ => exists t0, t = c :: t0 | [] => True end.
Proof.
  destruct l as [|c l]; [trivial|]. destruct t as [|x t]; [discriminate|].
  cbn [after_lit]. destruct (Ascii.eqb c x) eqn:E; [|discriminate].
  apply Ascii.eqb_eq in E. subst. eauto.
Qed.

Lemma p_doc_first t t' : p_doc t = Some t' -> exists t0, t = ch "/" :: t0.
Proof.
  unfold p_doc. destruct (after_lit (T "///") t) eqn:E; [|discriminate].
  intros _. exact (after_lit_first _ _ E).
Qed.

Lemma p_attr_first t t' : p_attr t = Some t' -> exists t0, t = ch "#" :: t0.
Proof.
  unfold p_attr. destruct (after_lit (T "#[") t) eqn:E; [|discriminate].
  intros _. exact (after_lit_first _ _ E).
Qed.

Lemma p_header_not_first t c t0 :
  t = c :: t0 -> c <> ch "p" -> p_header t = None.
Proof.
  intros -> N. destruct (p_header (c :: t0)) eqn:E; [|reflexivity].
  destruct (p_header_first _ E) as [? H]. congruence.
Qed.

Lemma p_doc_not_first t c t0 : t = c :: t0 -> c <> ch "/" -> p_doc t = None.
Proof.
  intros -> N. destruct (p_doc (c :: t0)) eqn:E; [|reflexivity].
  destruct (p_doc_first _ E) as [? H]. congruence.
Qed.

Lemma many_stops p n t : p t = None -> many p n t = t.
Proof. intros H. destruct n; simpl; [reflexivity|now rewrite H]. Qed.

End Pattern.

Section Tails.

Lemma space_not c x : is_space c = true -> is_space x = false -> c <> x.
Proof. congruence. Qed.

Lemma skip_docs_not_first t c t0 :
  t = c :: t0 -> c <> ch "/" -> skip_docs t = t.
Proof.
  intros E N. unfold skip_docs. apply many_stops.
  eapply p_doc_not_first; eauto.
Qed.

Lemma skip_attrs_space c t : is_space c = true -> skip_attrs (c :: t) = c :: t.
Proof.
  intros S. unfold skip_attrs. apply many_stops. now apply p_attr_no_space.
Qed.

Lemma run_tail4 st :
  run tail4 K0 st =
  run tail5 K0 (set_group 4 st (at_rest st (skip_docs (rest st)))).
Proof.
  unfold tail4. rewrite run_seq, run_group.
  rewrite (run_star_forced parses_doc_line p_doc_decreases p_doc_no_space);
    [reflexivity| |].
  - intros st' c t E S. apply run_tail5_nil. cbn [set_group rest].
    eapply p_header_not_first; eauto. eapply space_not; eauto.
  - intros st' t E. apply run_tail5_nil. cbn [set_group rest].
    destruct (p_doc_first _ E) as [t0 E0].
    eapply p_header_not_first; eauto. discriminate.
Qed.

Lemma run_tail4_nil st :
  p_header (skip_docs (rest st)) = None -> run tail4 K0 st = [].
Proof. intros H. rewrite run_tail4. now apply run_tail5_nil. Qed.

Lemma run_tail3 st :
  run tail3 K0 st =
  run tail4 K0 (set_group 3 st (at_rest st (skip_attrs (rest st)))).
Proof.
  unfold tail3. rewrite run_seq, run_group.
  rewrite (run_star_forced parses_attr_any p_attr_decreases p_attr_no_space);
    [reflexivity| |].
  - intros st' c t E S. apply run_tail4_nil. cbn [set_group rest].
    rewrite (skip_docs_not_first E) by (eapply space_not; eauto).
    rewrite E. eapply p_header_not_first; eauto. eapply space_not; eauto.
  - intros st' t E. apply run_tail4_nil. cbn [set_group rest].
    destruct (p_attr_first _ E) as [t0 E0].
    rewrite (skip_docs_not_first E0) by discriminate.
    eapply p_header_not_first; eauto. discriminate.
Qed.

Lemma run_tail3_hd st : hd_error (run tail3 K0 st) = tail_result st.
Proof.
  rewrite run_tail3, run_tail4, run_tail5_hd. reflexivity.
Qed.

Lemma tail_result_p_tail st :
  tail_result st = None <-> p_tail (rest st) = None.
Proof.
  unfold tail_result, p_tail, p_header.
  destruct (p_keyword (skip_docs (skip_attrs (rest st)))) as [[|c t]|];
    try tauto.
  destruct (is_word c); [split; discriminate|tauto].
Qed.

Lemma p_derives_S n t :
  p_derives (S n) t =
  match p_derive t with
  | Some t1 => best n t1
  | None => None
  end.
Proof. reflexivity. Qed.

Lemma best_tail n : forall t t2, best n t = Some t2 -> p_tail t2 <> None.
Proof.
  induction n as [|n IH]; intros t t2; unfold best.
  - cbn [p_derives]. destruct (p_tail t) eqn:E; [|discriminate].
    intros H. inversion H. subst. congruence.
  - rewrite p_derives_S. destruct (p_derive t) as [t1|].
    + destruct (best n t1) as [t2'|] eqn:B.
      * intros H. inversion H. subst. eauto.
      * destruct (p_tail t) eqn:E; [|discriminate].
        intros H. inversion H. subst. congruence.
    + destruct (p_tail t) eqn:E; [|discriminate].
      intros H. inversion H. subst. congruence.
Qed.

Lemma best_fuel n : forall m t,
  length t <= n -> length t <= m -> best n t = best m t.
Proof.
  induction n as [|n IH]; intros m t Ln Lm.
  - destruct t; [|simpl in Ln; lia]. unfold best.
    destruct m; [reflexivity|]. reflexivity.
  - unfold best. rewrite p_derives_S. destruct m as [|m].
    + destruct t; [|simpl in Lm; lia]. reflexivity.
    + rewrite p_derives_S. destruct (p_derive t) as [t1|] eqn:E; [|reflexivity].
      apply p_derive_decreases in E.
      rewrite (IH m t1) by lia. reflexivity.
Qed.

Lemma chain_run_hd K :
  (forall st, p_tail (rest st) = None -> K st = []) ->
  (forall st, p_tail (rest st) <> None -> K st <> []) ->
  forall n st,
    hd_error (chain_run p_derive K n st) =
    match best n (rest st) with
    | Some t2 => hd_error (K (at_rest st t2))
    | None => None
    end.
Proof.
  intros HN HS. 
  assert (Base : forall st,
    hd_error (K st) =
    match p_tail (rest st) with
    | Some _ => hd_error (K (at_rest st (rest st)))
    | None => None
    end).
  { intros st. rewrite at_rest_same.
    destruct (p_tail (rest st)) eqn:E; [reflexivity|]. now rewrite HN. }
  induction n as [|n IH]; intros st.
  - cbn [chain_run]. unfold best. cbn [p_derives]. rewrite Base.
    destruct (p_tail (rest st)); reflexivity.
  - cbn [chain_run]. unfold best. rewrite p_derives_S.
    destruct (p_derive (rest st)) as [t1|].
    + specialize (IH (at_rest st t1)). cbn [at_rest rest caps] in IH.
      destruct (best n t1) as [t2|] eqn:B.
      * pose proof (best_tail _ _ B) as Tl.
        specialize (HS (at_rest st t2) Tl).
        unfold at_rest in *. cbn [caps] in *.
        destruct (chain_run p_derive K n (MState t1 (caps st))) as [|x l].
        -- cbn [hd_error] in IH. destruct (K (MState t2 (caps st))); 
             [congruence|discriminate].
        -- exact IH.
      * apply hd_error_nil in IH. rewrite IH. cbn [app].
        rewrite Base. destruct (p_tail (rest st)); reflexivity.
    + rewrite Base. destruct (p_tail (rest st)); reflexivity.
Qed.

End Tails.

Section Whole.

Lemma pre_attr_not_derive t t' : p_pre_attr t = Some t' -> p_derive t = None.
Proof.
  unfold p_pre_attr, p_derive.
  change (T "#[derive(") with (T "#[" ++ [ch "d"] ++ T "erive(").
  rewrite after_lit_app.
  destruct (after_lit (T "#[") t) as [[|c t1]|]; try discriminate.
  cbn [app after_lit]. destruct (not_char (ch "d") c) eqn:N.
  - now rewrite (not_char_eqb _ _ N).
  - destruct (Ascii.eqb (ch "d") c); [|reflexivity].
    destruct (after_lit (T "erive(") t1); [discriminate|reflexivity].
Qed.

Lemma run_tail2 st :
  run tail2 K0 st =
  match p_derive (rest st) with
  | Some t1 =>
      chain_run p_derive (fun st' => run tail3 K0 (set_group 2 st st'))
        (length t1) (at_rest st t1)
  | None => []
  end.
Proof.
  unfold tail2. rewrite run_seq, run_group.
  apply (run_plus_chain parses_derive_line p_derive_decreases
           p_derive_no_space).
  intros st' c t E S. apply hd_error_nil. rewrite run_tail3_hd.
  apply tail_result_p_tail. cbn [set_group rest]. rewrite E. unfold p_tail.
  rewrite (@skip_attrs_space c t S).
  rewrite (@skip_docs_not_first _ c t eq_refl) by (eapply space_not; eauto).
  eapply p_header_not_first; eauto. eapply space_not; eauto.
Qed.

Lemma p_derives_none n t : p_derive t = None -> p_derives n t = None.
Proof. intros H. destruct n; cbn [p_derives]; [reflexivity|now rewrite H]. Qed.

Lemma run_tail2_hd st :
  hd_error (run tail2 K0 st) =
  match p_derives (length (rest st)) (rest st) with
  | Some s2 => tail_result (set_group 2 st (at_rest st s2))
  | None => None
  end.
Proof.
  rewrite run_tail2. destruct (p_derive (rest st)) as [t1|] eqn:E.
  - rewrite chain_run_hd.
    + pose proof (p_derive_decreases _ E) as L.
      destruct (rest st) as [|c t] eqn:Er; [simpl in L; lia|].
      cbn [length]. rewrite p_derives_S, E. cbn [at_rest rest caps].
      rewrite (@best_fuel (length t1) (length t) t1) by (simpl in L; lia).
      destruct (best (length t) t1) as [t2|]; [|reflexivity].
      now rewrite run_tail3_hd.
    + intros st' H. apply hd_error_nil. rewrite run_tail3_hd.
      now apply (tail_result_p_tail (set_group 2 st st')).
    + intros st' H C. apply H.
      apply (tail_result_p_tail (set_group 2 st st')).
      rewrite <- run_tail3_hd. now rewrite C.
  - now rewrite p_derives_none.
Qed.

Lemma run_pattern st :
  run pattern K0 st =
  run tail2 K0 (set_group 1 st (at_rest st (skip_pre_attrs (rest st)))).
Proof.
  rewrite pattern_tails, run_seq, run_group.
  rewrite (run_star_forced parses_pre_attr p_pre_attr_decreases
             p_pre_attr_no_space); [reflexivity| |].
  - intros st' c t E S. rewrite run_tail2. cbn [set_group rest].
    now rewrite E, p_derive_no_space.
  - intros st' t E. rewrite run_tail2. cbn [set_group rest].
    now rewrite (pre_attr_not_derive _ E).
Qed.

End Whole.

(** The match [re] finds at the start of a text is the one the parser
    describes: the attributes before the derive lines, as many derive lines
    as possible such that the rest follows, the attributes and the
    documentation lines after them, and the header. *)
Theorem re_match_spec : forall s : text, re_match s = match_spec s.
Proof.
  intros s. unfold re_match.
  rewrite mre_as_run. fold K0.
  transitivity
    (option_map
       (fun st => RMatch (consumed (MState s []) st) (caps st) (rest st))
       (hd_error (run pattern K0 (MState s [])))).
  { destruct (run pattern K0 (MState s [])); reflexivity. }
  rewrite run_pattern, run_tail2_hd. unfold match_spec.
  cbn [set_group at_rest rest caps].
  destruct (p_derives (length (skip_pre_attrs s)) (skip_pre_attrs s))
    as [s2|]; [|reflexivity].
  unfold tail_result. cbn [set_group at_rest rest caps].
  destruct (p_keyword (skip_docs (skip_attrs s2))) as [s5|]; [|reflexivity].
  destruct (p_header (skip_docs (skip_attrs s2))) as [s6|]; reflexivity.
Qed.

(** ** What a match is made of *)

Section Parts.

Lemma before_app (x t : text) : before (x ++ t) t = x.
Proof.
  unfold before. rewrite length_app.
  replace (length x + length t - length t) with (length x) by lia.
  apply firstn_length_app.
Qed.

Lemma drop_while_splits p t : exists x, t = x ++ drop_while p t.
Proof.
  induction t as [|c t [x IH]]; [now exists []|]. cbn [drop_while].
  destruct (p c); [|now exists []]. exists (c :: x). cbn [app]. now f_equal.
Qed.

Lemma after_lit_splits l : forall t t', after_lit l t = Some t' -> t = l ++ t'.
Proof.
  induction l as [|c l IH]; intros t t' H; cbn [after_lit] in H.
  - now inversion H.
  - destruct t as [|x t]; [discriminate|].
    destruct (Ascii.eqb c x) eqn:E; [|discriminate].
    apply Ascii.eqb_eq in E. subst x. cbn [app]. f_equal. now apply IH.
Qed.

Lemma close_with_splits c t t' :
  close_with c t = Some t' -> exists x, t = x ++ t'.
Proof.
  unfold close_with. destruct (drop_while_splits (not_char c) t) as [x Ex].
  destruct (drop_while (not_char c) t) as [|y r]; [discriminate|].
  destruct (Ascii.eqb c y); [|discriminate]. intros H. inversion H. subst t'.
  destruct (drop_while_splits is_space r) as [w Ew]. fold (skip_spaces r) in Ew.
  exists (x ++ y :: w). rewrite Ex at 1. rewrite Ew at 1.
  now rewrite <- app_assoc.
Qed.

Lemma p_pre_attr_splits t t' : p_pre_attr t = Some t' -> exists x, t = x ++ t'.
Proof.
  unfold p_pre_attr. destruct (after_lit (T "#[") t) as [[|c t1]|] eqn:E;
    try discriminate.
  apply after_lit_splits in E. intros H.
  assert (C : close_with (ch "]") t1 = Some t').
  { destruct (not_char (ch "d") c); [assumption|].
    now destruct (after_lit (T "erive(") t1). }
  destruct (close_with_splits _ _ C) as [x Ex].
  exists (T "#[" ++ c :: x). rewrite E, Ex, <- app_assoc. reflexivity.
Qed.

Lemma p_attr_splits t t' : p_attr t = Some t' -> exists x, t = x ++ t'.
Proof.
  unfold p_attr. destruct (after_lit (T "#[") t) as [[|c t1]|] eqn:E;
    try discriminate.
  apply after_lit_splits in E. destruct (not_char (ch "]") c); [|discriminate].
  intros C. destruct (close_with_splits _ _ C) as [x Ex].
  exists (T "#[" ++ c :: x). rewrite E, Ex, <- app_assoc. reflexivity.
Qed.

Lemma p_doc_splits t t' : p_doc t = Some t' -> exists x, t = x ++ t'.
Proof.
  unfold p_doc. destruct (after_lit (T "///") t) as [t1|] eqn:E;
    [|discriminate].
  apply after_lit_splits in E. intros C.
  destruct (close_with_splits _ _ C) as [x Ex].
  exists (T "///" ++ x). rewrite E, Ex, <- app_assoc. reflexivity.
Qed.

Lemma p_derive_splits t t' :
  p_derive t = Some t' -> exists x, t = T "#[derive(" ++ x ++ t'.
Proof.
  unfold p_derive. destruct (after_lit (T "#[derive(") t) as [[|c t1]|] eqn:E;
    try discriminate.
  apply after_lit_splits in E. destruct (not_char (ch ")") c); [|discriminate].
  destruct (drop_while_splits (not_char (ch ")")) t1) as [x Ex].
  destruct (after_lit (T ")]") (drop_while (not_char (ch ")")) t1)) as [t2|]
    eqn:E2; [|discriminate].
  apply after_lit_splits in E2. intros H. inversion H. subst t'.
  destruct (drop_while_splits is_space t2) as [w Ew]. fold (skip_spaces t2) in Ew.
  exists (c :: x ++ T ")]" ++ w). rewrite E. f_equal.
  rewrite Ex at 1. rewrite E2. rewrite Ew at 1. cbn [app].
  now rewrite <- !app_assoc.
Qed.

Lemma many_splits p :
  (forall t t', p t = Some t' -> exists x, t = x ++ t') ->
  forall n t, exists x, t = x ++ many p n t.
Proof.
  intros H. induction n as [|n IH]; intros t; cbn [many]; [now exists []|].
  destruct (p t) as [t1|] eqn:E; [|now exists []].
  destruct (H _ _ E) as [x Ex]. destruct (IH t1) as [y Ey].
  exists (x ++ y). rewrite Ex at 1. rewrite Ey at 1. now rewrite app_assoc.
Qed.

Lemma p_derives_splits n : forall t t',
  p_derives n t = Some t' -> exists x, t = T "#[derive(" ++ x ++ t'.
Proof.
  induction n as [|n IH]; intros t t'; [discriminate|].
  cbn [p_derives]. destruct (p_derive t) as [t1|] eqn:E; [|discriminate].
  destruct (p_derive_splits _ E) as [x Ex].
  destruct (p_derives n t1) as [t2|] eqn:E2.
  - intros H. inversion H. subst t2. destruct (IH _ _ E2) as [y Ey].
    exists (x ++ T "#[derive(" ++ y). rewrite Ex, Ey.
    now rewrite <- !app_assoc.
  - destruct (p_tail t1); [|discriminate]. intros H. inversion H. subst.
    eauto.
Qed.

Lemma p_keyword_splits t t' : p_keyword t = Some t' -> exists x, t = x ++ t'.
Proof.
  unfold p_keyword. destruct (after_lit (T "pub ") t) as [t1|] eqn:E1;
    [|discriminate].
  apply after_lit_splits in E1.
  destruct (after_lit (T "struct") t1) as [t2|] eqn:E2.
  - apply after_lit_splits in E2. intros E3. apply after_lit_splits in E3.
    exists (T "pub " ++ T "struct" ++ T " "). rewrite E1, E2, E3.
    now rewrite <- !app_assoc.
  - destruct (after_lit (T "enum") t1) as [t2|] eqn:E2'; [|discriminate].
    apply after_lit_splits in E2'. intros E3. apply after_lit_splits in E3.
    exists (T "pub " ++ T "enum" ++ T " "). rewrite E1, E2', E3.
    now rewrite <- !app_assoc.
Qed.

Lemma p_header_splits t s5 t' :
  p_keyword t = Some s5 -> p_header t = Some t' ->
  exists nm, s5 = nm ++ t' /\ nm <> [].
Proof.
  unfold p_header. intros ->. destruct s5 as [|c t1]; [discriminate|].
  destruct (is_word c); [|discriminate]. intros H. inversion H. subst.
  destruct (drop_while_splits is_word t1) as [x Ex].
  exists (c :: x). split; [|discriminate]. cbn [app]. now f_equal.
Qed.

(** The parts of a match: the text is the attributes before the derive
    lines, the derive lines, the attributes and documentation after them,
    the keyword and the name, and what follows. *)
Lemma re_match_parts s m :
  re_match s = Some m ->
  exists pre derives other docs kw nm,
    s = pre ++ derives ++ other ++ docs ++ kw ++ nm ++ m_after m
    /\ m_whole m = pre ++ derives ++ other ++ docs ++ kw ++ nm
    /\ m_groups m = [(5, kw ++ nm); (6, nm); (4, docs); (3, other);
                     (2, derives); (1, pre)]
    /\ skip_pre_attrs s =
       derives ++ other ++ docs ++ kw ++ nm ++ m_after m
    /\ p_derives (length (skip_pre_attrs s)) (skip_pre_attrs s) =
       Some (other ++ docs ++ kw ++ nm ++ m_after m)
    /\ skip_attrs (other ++ docs ++ kw ++ nm ++ m_after m) =
       docs ++ kw ++ nm ++ m_after m
    /\ skip_docs (docs ++ kw ++ nm ++ m_after m) = kw ++ nm ++ m_after m
    /\ p_keyword (kw ++ nm ++ m_after m) = Some (nm ++ m_after m)
    /\ p_header (kw ++ nm ++ m_after m) = Some (m_after m)
    /\ nm <> [] /\ (exists x, derives = T "#[derive(" ++ x).
Proof.
  rewrite re_match_spec. unfold match_spec.
  destruct (@many_splits p_pre_attr p_pre_attr_splits (length s) s) as [pre E1].
  fold (skip_pre_attrs s) in E1. set (s1 := skip_pre_attrs s) in *.
  destruct (p_derives (length s1) s1) as [s2|] eqn:D; [|discriminate].
  destruct (p_derives_splits _ _ D) as [dx E2].
  destruct (@many_splits p_attr p_attr_splits (length s2) s2) as [other E3].
  fold (skip_attrs s2) in E3. set (s3 := skip_attrs s2) in *.
  destruct (@many_splits p_doc p_doc_splits (length s3) s3) as [docs E4].
  fold (skip_docs s3) in E4. set (s4 := skip_docs s3) in *.
  destruct (p_keyword s4) as [s5|] eqn:Kw; [|discriminate].
  destruct (p_header s4) as [s6|] eqn:Hd; [|discriminate].
  destruct (p_keyword_splits _ Kw) as [kw E5].
  destruct (p_header_splits _ Kw Hd) as [nm [E6 Nn]].
  intros H. inversion H. subst m. clear H. cbn [m_after m_whole m_groups].
  exists pre, (T "#[derive(" ++ dx), other, docs, kw, nm.
  assert (A4 : s4 = kw ++ nm ++ s6) by (rewrite E5, E6; reflexivity).
  assert (A3 : s3 = docs ++ kw ++ nm ++ s6) by (rewrite E4, A4; reflexivity).
  assert (A2 : s2 = other ++ docs ++ kw ++ nm ++ s6)
    by (rewrite E3, A3; reflexivity).
  assert (A1 : s1 = (T "#[derive(" ++ dx) ++ other ++ docs ++ kw ++ nm ++ s6)
    by (rewrite E2, A2, <- app_assoc; reflexivity).
  assert (A0 : s = pre ++ (T "#[derive(" ++ dx) ++ other ++ docs ++ kw ++ nm ++ s6)
    by (rewrite E1, A1; reflexivity).
  assert (B5 : before s5 s6 = nm) by (rewrite E6; apply before_app).
  assert (B4 : before s4 s6 = kw ++ nm).
  { rewrite A4. rewrite (app_assoc kw nm s6). apply before_app. }
  assert (B3 : before s3 s4 = docs) by (rewrite E4; apply before_app).
  assert (B2 : before s2 s3 = other) by (rewrite E3; apply before_app).
  assert (B1 : before s1 s2 = T "#[derive(" ++ dx).
  { rewrite E2. rewrite (app_assoc (T "#[derive(") dx s2). apply before_app. }
  assert (B0 : before s s1 = pre) by (rewrite E1; apply before_app).
  assert (Bw : before s s6 =
               pre ++ (T "#[derive(" ++ dx) ++ other ++ docs ++ kw ++ nm).
  { rewrite A0.
    replace (pre ++ (T "#[derive(" ++ dx) ++ other ++ docs ++ kw ++ nm ++ s6)
      with ((pre ++ (T "#[derive(" ++ dx) ++ other ++ docs ++ kw ++ nm) ++ s6)
      by (now rewrite <- !app_assoc).
    apply before_app. }
  rewrite B5, B4, B3, B2, B1, B0, Bw.
  rewrite <- A1, <- A2, <- A3, <- A4, <- E6.
  repeat split; try assumption; try reflexivity; eauto.
Qed.

End Parts.

Unset Implicit Arguments.

(** ** The substitution pass *)

Section Sub.

Lemma re_match_whole s m :
  re_match s = Some m -> s = m_whole m ++ m_after m.
Proof.
  intros H. destruct (re_match_parts s H)
    as (pre & derives & other & docs & kw & nm & E & W & _).
  rewrite W. rewrite E at 1. now rewrite <- !app_assoc.
Qed.

Lemma re_match_shorter s m :
  re_match s = Some m -> length (m_after m) < length s.
Proof.
  intros H. destruct (re_match_parts s H)
    as (pre & derives & other & docs & kw & nm & E & _ & _ & _ & _ & _ & _
        & _ & _ & N & _).
  apply (f_equal (@length ascii)) in E. rewrite !length_app in E.
  destruct nm; [congruence|]. simpl in E. lia.
Qed.

Lemma re_match_nil : re_match [] = None.
Proof. reflexivity. Qed.

Lemma sub_loop_fuel n : forall m s,
  length s <= n -> length s <= m -> sub_loop n s = sub_loop m s.
Proof.
  induction n as [|n IH]; intros m s Ln Lm.
  - destruct s; [|simpl in Ln; lia]. destruct m; reflexivity.
  - destruct m as [|m].
    + destruct s; [|simpl in Lm; lia]. reflexivity.
    + cbn [sub_loop]. destruct (re_match s) as [g|] eqn:E.
      * pose proof (re_match_shorter _ _ E). f_equal. apply IH; lia.
      * destruct s as [|c s]; [reflexivity|]. f_equal.
        apply IH; simpl in *; lia.
Qed.

(** One step of [re.sub]. *)
Lemma re_sub_step s :
  re_sub s =
  match re_match s with
  | Some m => add_separate_derive m ++ re_sub (m_after m)
  | None =>
      match s with
      | [] => []
      | c :: s' => c :: re_sub s'
      end
  end.
Proof.
  unfold re_sub. destruct s as [|c s].
  - reflexivity.
  - cbn [length sub_loop]. destruct (re_match (c :: s)) as [g|] eqn:E.
    + pose proof (re_match_shorter _ _ E). f_equal.
      apply sub_loop_fuel; simpl in *; lia.
    + reflexivity.
Qed.

Lemma text_eqb_eq a : forall b, text_eqb a b = true <-> a = b.
Proof.
  induction a as [|x a IH]; intros [|y b]; simpl; try (split; congruence).
  rewrite andb_true_iff, Ascii.eqb_eq, IH. split.
  - intros [-> ->]. reflexivity.
  - intros H. inversion H. auto.
Qed.

Lemma text_eqb_refl a : text_eqb a a = true.
Proof. now apply text_eqb_eq. Qed.

Lemma annotate_unchanged content :
  re_sub content = content -> annotate content = (content, false).
Proof.
  intros H. unfold annotate. now rewrite H, text_eqb_refl.
Qed.

(** No match anywhere: nothing is rewritten. *)
Lemma re_sub_no_match s :
  (forall x t, s = x ++ t -> re_match t = None) -> re_sub s = s.
Proof.
  induction s as [|c s IH]; intros H; rewrite re_sub_step.
  - reflexivity.
  - rewrite (H [] (c :: s) eq_refl). f_equal. apply IH.
    intros x t E. apply (H (c :: x) t). now rewrite E.
Qed.

Lemma starts_with_app p t : starts_with p (p ++ t) = true.
Proof.
  induction p as [|c p IH]; [reflexivity|]. cbn [app starts_with].
  now rewrite Ascii.eqb_refl, IH.
Qed.

Lemma contains_app p x t : contains p t = true -> contains p (x ++ t) = true.
Proof.
  intros H. induction x as [|c x IH]; [assumption|].
  cbn [app]. destruct p; cbn [contains]; rewrite IH; apply orb_true_r.
Qed.

Lemma contains_here p t : contains p (p ++ t) = true.
Proof.
  destruct (p ++ t) eqn:E; cbn [contains]; rewrite <- E, starts_with_app;
    reflexivity.
Qed.

Lemma re_match_has_derive s m :
  re_match s = Some m -> contains (T "#[derive(") s = true.
Proof.
  intros H. destruct (re_match_parts s H)
    as (pre & derives & other & docs & kw & nm & E & _ & _ & _ & _ & _ & _
        & _ & _ & _ & x & D).
  rewrite E, D. apply contains_app. rewrite <- app_assoc.
  apply contains_here.
Qed.

End Sub.

(** ** The decisions of the callback *)

Section Callback.

Lemma in_types_to_skip nm :
  existsb (text_eqb nm) types_to_skip = true <-> In nm types_to_skip.
Proof.
  rewrite existsb_exists. split.
  - intros [x [I E]]. apply text_eqb_eq in E. now subst.
  - intros I. exists nm. split; [assumption|apply text_eqb_refl].
Qed.

Lemma starts_with_spec p : forall t,
  starts_with p t = true <-> exists b, t = p ++ b.
Proof.
  induction p as [|c p IH]; intros t.
  - split; [exists t; reflexivity|reflexivity].
  - destruct t as [|x t]; cbn [starts_with].
    + split; [discriminate|]. intros [b E]. discriminate.
    + rewrite andb_true_iff, Ascii.eqb_eq, IH. split.
      * intros [-> [b ->]]. now exists b.
      * intros [b E]. inversion E. eauto.
Qed.

(** [contains p t] is [p in t]: [p] occurs somewhere in [t]. *)
Lemma contains_spec p : forall t,
  contains p t = true <-> exists a b, t = a ++ p ++ b.
Proof.
  induction t as [|x t IH].
  - cbn [contains]. rewrite orb_false_r, starts_with_spec. split.
    + intros [b E]. now exists [], b.
    + intros [a [b E]]. destruct a; [now exists b|discriminate].
  - cbn [contains]. rewrite orb_true_iff, starts_with_spec, IH. split.
    + intros [[b E]|[a [b E]]]; [now exists [], b|].
      exists (x :: a), b. now rewrite E.
    + intros [[|y a] [b E]]; [left; now exists b|].
      right. inversion E. now exists a, b.
Qed.

Lemma any_problematic_spec body :
  any_problematic body = true <->
  exists p, In p problematic_types /\ contains p body = true.
Proof. unfold any_problematic. apply existsb_exists. Qed.

Lemma body_loop_closed t : forall brace_count,
  opened t = false -> body_loop t [] brace_count false = [].
Proof.
  unfold opened. induction t as [|c t IH]; intros bc H; [reflexivity|].
  cbn [existsb] in H. apply orb_false_iff in H. destruct H as [H1 H2].
  cbn [body_loop]. fold open_brace. rewrite Ascii.eqb_sym, H1.
  destruct (Ascii.eqb c (ch "}")).
  - cbn zeta. rewrite andb_false_r. now apply IH.
  - now apply IH.
Qed.

Lemma add_separate_derive_cases m :
  add_separate_derive m = if qualifies m then annotated m else m_whole m.
Proof.
  unfold add_separate_derive, qualifies, annotated.
  fold (extract_body (m_after m)).
  destruct (contains marker (rstrip (group m 2))); [reflexivity|].
  destruct (existsb (text_eqb (group m 6)) types_to_skip); [reflexivity|].
  destruct (any_problematic (extract_body (m_after m))); [reflexivity|].
  cbn [negb andb]. now destruct (group m 3).
Qed.

End Callback.

(** C4.  Exclusion by name: a matched declaration whose captured name is
    one of [CreateSpeechResponse], [AssistantStreamEvent], [ImageResponse],
    [Image] is given back as it was matched, whatever follows it, and the
    pass goes on after it. *)
Theorem skip_by_name :
  forall (s : text) (m : rmatch),
    re_match s = Some m ->
    In (group m 6) types_to_skip ->
    add_separate_derive m = m_whole m
    /\ re_sub s = m_whole m ++ re_sub (m_after m)
    /\ s = m_whole m ++ m_after m.
Proof.
  intros s m M I.
  assert (A : add_separate_derive m = m_whole m).
  { rewrite add_separate_derive_cases. unfold qualifies.
    apply in_types_to_skip in I. rewrite I.
    now rewrite andb_false_r. }
  split; [exact A|]. split; [|now apply re_match_whole].
  rewrite re_sub_step, M, A. reflexivity.
Qed.

Lemma skip_by_name_witness :
  exists m,
    re_match (lines ["#[derive(Debug, Clone)]"%string;
                     "pub struct Image { data: Arc<String> }"%string])
    = Some m
    /\ add_separate_derive m = m_whole m.
Proof.
  eexists. split.
  - vm_compute. reflexivity.
  - refine (proj1 (skip_by_name
                     (lines ["#[derive(Debug, Clone)]"%string;
                             "pub struct Image { data: Arc<String> }"%string])
                     _ _ _)).
    + vm_compute. reflexivity.
    + right. right. right. left. reflexivity.
Defined.

(** C5.  Exclusion by body: a matched declaration whose extracted body
    contains one of the field-type substrings is given back as it was
    matched, whatever its name, and the pass goes on after it. *)
Theorem skip_by_body :
  forall (s : text) (m : rmatch) (p : text),
    re_match s = Some m ->
    In p problematic_types ->
    (exists a b, extract_body (m_after m) = a ++ p ++ b) ->
    add_separate_derive m = m_whole m
    /\ re_sub s = m_whole m ++ re_sub (m_after m)
    /\ s = m_whole m ++ m_after m.
Proof.
  intros s m p M I C.
  assert (A : add_separate_derive m = m_whole m).
  { rewrite add_separate_derive_cases. unfold qualifies.
    replace (any_problematic (extract_body (m_after m))) with true.
    - now rewrite andb_false_r.
    - symmetry. apply any_problematic_spec. exists p. split; [assumption|].
      now apply contains_spec. }
  split; [exact A|]. split; [|now apply re_match_whole].
  rewrite re_sub_step, M, A. reflexivity.
Qed.

Lemma skip_by_body_witness :
  exists m,
    re_match (lines ["#[derive(Debug)]"%string;
                     "pub struct Wrapper { path: PathBuf }"%string])
    = Some m
    /\ add_separate_derive m = m_whole m.
Proof.
  eexists. split.
  - vm_compute. reflexivity.
  - refine (proj1 (skip_by_body
                     (lines ["#[derive(Debug)]"%string;
                             "pub struct Wrapper { path: PathBuf }"%string])
                     _ (T "PathBuf") _ _ _)).
    + vm_compute. reflexivity.
    + right. right. right. left. reflexivity.
    + exists (T "{ path: "), (T " "). vm_compute. reflexivity.
Defined.

(** C8.  The example of the specification: a derive line and a struct
    get the annotation line between them, and the text is reported as
    changed. *)
Theorem example_foo :
  annotate (lines ["#[derive(Debug, Clone)]"%string;
                   "pub struct Foo { bar: String }"%string])
  = (lines ["#[derive(Debug, Clone)]"%string;
            "#[derive(utoipa::ToSchema)]"%string;
            "pub struct Foo { bar: String }"%string], true).
Proof. vm_compute. reflexivity. Qed.

(** C10.  No brace after the match: when no opening brace follows a
    matched declaration its body is empty, so no field-type substring can
    exclude it; it is annotated as soon as its derive lines lack the marker
    and its name is not excluded. *)
Theorem no_brace_is_annotated :
  forall m : rmatch,
    opened (m_after m) = false ->
    contains marker (rstrip (group m 2)) = false ->
    ~ In (group m 6) types_to_skip ->
    extract_body (m_after m) = []
    /\ add_separate_derive m =
       group m 1 ++ rstrip (group m 2) ++ [nl] ++ derive_marker_line ++ [nl]
       ++ group m 3 ++ group m 4 ++ group m 5.
Proof.
  intros m O C N.
  assert (B : extract_body (m_after m) = [])
    by (now apply body_loop_closed).
  split; [exact B|]. rewrite add_separate_derive_cases. unfold qualifies.
  rewrite C, B. destruct (existsb (text_eqb (group m 6)) types_to_skip) eqn:E.
  - apply in_types_to_skip in E. contradiction.
  - reflexivity.
Qed.

Lemma no_brace_is_annotated_witness :
  exists m,
    re_match (lines ["#[derive(Debug)]"%string;
                     "pub struct Foo(PathBuf);"%string]) = Some m
    /\ extract_body (m_after m) = []
    /\ add_separate_derive m =
       lines ["#[derive(Debug)]"%string;
              "#[derive(utoipa::ToSchema)]"%string;
              "pub struct Foo"%string].
Proof.
  eexists. split; [vm_compute; reflexivity|].
  refine (no_brace_is_annotated _ _ _ _).
  - vm_compute. reflexivity.
  - vm_compute. reflexivity.
  - intros [H|[H|[H|[H|[]]]]]; vm_compute in H; discriminate.
Defined.

(** ** Examples *)

(** The other examples of the specification: a declaration excluded by
    its name, one excluded by its body, and a tuple struct, whose fields are
    not in a body. *)
Example example_image :
  annotate (lines ["#[derive(Debug, Clone)]"%string;
                   "pub struct Image { data: Arc<String> }"%string])
  = (lines ["#[derive(Debug, Clone)]"%string;
            "pub struct Image { data: Arc<String> }"%string], false).
Proof. vm_compute. reflexivity. Qed.

Example example_wrapper :
  annotate (lines ["#[derive(Debug)]"%string;
                   "pub struct Wrapper { path: PathBuf }"%string])
  = (lines ["#[derive(Debug)]"%string;
            "pub struct Wrapper { path: PathBuf }"%string], false).
Proof. vm_compute. reflexivity. Qed.

Example example_tuple_struct :
  annotate (lines ["#[derive(Debug)]"%string;
                   "pub struct Foo(PathBuf);"%string])
  = (lines ["#[derive(Debug)]"%string;
            "#[derive(utoipa::ToSchema)]"%string;
            "pub struct Foo(PathBuf);"%string], true).
Proof. vm_compute. reflexivity. Qed.

(** ** Where the annotation line goes *)

(** C2, as stated, fails: the output for [indented] is not the input with
    one annotation line put in; the indentation of the header is gone. *)
Lemma indented_is_not_an_insertion :
  annotate indented
  = (lines ["    #[derive(Debug)]"%string;
            "#[derive(utoipa::ToSchema)]"%string;
            "pub struct Foo {}"%string], true)
  /\ ~ (exists a b,
          indented = a ++ b
          /\ fst (annotate indented) = a ++ (derive_marker_line ++ [nl]) ++ b).
Proof.
  split; [vm_compute; reflexivity|].
  intros (a & b & E1 & E2).
  apply (f_equal (@length ascii)) in E1, E2.
  rewrite !length_app in E1, E2.
  change (length indented) with 42 in E1.
  change (length (fst (annotate indented))) with 66 in E2.
  change (length derive_marker_line) with 27 in E2. simpl in E2. lia.
Qed.

(** ** The texts the parsers read *)

Section Shapes.

Lemma nsp_skip_spaces t : nsp (skip_spaces t).
Proof.
  unfold skip_spaces. induction t as [|c t IH]; cbn [drop_while]; [exact I|].
  destruct (is_space c) eqn:E; [exact IH|exact E].
Qed.

Lemma skip_spaces_app ws t :
  all_space ws -> nsp t -> skip_spaces (ws ++ t) = t.
Proof.
  unfold all_space, skip_spaces. induction ws as [|c ws IH]; intros A N.
  - destruct t as [|x t]; [reflexivity|]. cbn [app drop_while].
    cbn [nsp] in N. now rewrite N.
  - cbn [forallb] in A. apply andb_true_iff in A. destruct A as [A1 A2].
    cbn [app drop_while]. rewrite A1. now apply IH.
Qed.

Lemma skip_spaces_splits t :
  exists ws, t = ws ++ skip_spaces t /\ all_space ws.
Proof.
  unfold skip_spaces, all_space. induction t as [|c t (ws & E & A)].
  - now exists [].
  - cbn [drop_while]. destruct (is_space c) eqn:S.
    + exists (c :: ws). cbn [app forallb]. rewrite S, A. split; [|reflexivity].
      now f_equal.
    + now exists [].
Qed.

Lemma after_lit_app_same l t : after_lit l (l ++ t) = Some t.
Proof.
  induction l as [|c l IH]; [reflexivity|]. cbn [app after_lit].
  now rewrite Ascii.eqb_refl.
Qed.

Lemma not_char_false c x : not_char c x = false <-> x = c.
Proof.
  unfold not_char, mem. cbn [existsb]. rewrite orb_false_r, negb_false_iff.
  apply Ascii.eqb_eq.
Qed.

Lemma not_char_same c : not_char c c = false.
Proof. now apply not_char_false. Qed.

Lemma drop_while_until c y t :
  forallb (not_char c) y = true ->
  drop_while (not_char c) (y ++ c :: t) = c :: t.
Proof.
  induction y as [|x y IH]; intros A.
  - cbn [app drop_while]. now rewrite not_char_same.
  - cbn [forallb] in A. apply andb_true_iff in A. destruct A as [A1 A2].
    cbn [app drop_while]. rewrite A1. now apply IH.
Qed.

Lemma drop_while_found c t x r :
  drop_while (not_char c) t = x :: r ->
  x = c /\ exists y, t = y ++ c :: r /\ forallb (not_char c) y = true.
Proof.
  induction t as [|z t IH]; [discriminate|]. cbn [drop_while].
  destruct (not_char c z) eqn:E.
  - intros H. destruct (IH H) as [-> (y & -> & A)]. split; [reflexivity|].
    exists (z :: y). cbn [app forallb]. now rewrite E, A.
  - intros H. inversion H. subst. apply not_char_false in E. subst.
    split; [reflexivity|]. now exists [].
Qed.

(** [close_with] reads a text closed by [c] and white space. *)
Lemma close_with_shape c t t' :
  close_with c t = Some t' ->
  exists x ws, t = x ++ ws ++ t' /\ closed_by c x /\ all_space ws /\ nsp t'.
Proof.
  unfold close_with. destruct (drop_while (not_char c) t) as [|z r] eqn:D;
    [discriminate|].
  destruct (drop_while_found _ _ _ _ D) as [-> (y & -> & A)].
  rewrite Ascii.eqb_refl. intros H. inversion H. subst t'.
  destruct (skip_spaces_splits r) as (ws & E & S).
  exists (y ++ [c]), ws. split; [|split; [|split]].
  - rewrite <- app_assoc. cbn [app]. now rewrite <- E.
  - now exists y.
  - assumption.
  - apply nsp_skip_spaces.
Qed.

Lemma close_with_local c x ws t :
  closed_by c x -> all_space ws -> nsp t ->
  close_with c (x ++ ws ++ t) = Some t.
Proof.
  intros (y & -> & A) S N. unfold close_with. rewrite <- app_assoc.
  cbn [app]. rewrite drop_while_until by assumption.
  now rewrite Ascii.eqb_refl, skip_spaces_app.
Qed.

Lemma p_attr_shape t t' :
  p_attr t = Some t' ->
  exists a ws, t = a ++ ws ++ t' /\ attr_core a /\ all_space ws /\ nsp t'.
Proof.
  unfold p_attr. destruct (after_lit (T "#[") t) as [[|c t1]|] eqn:E;
    try discriminate.
  apply after_lit_splits in E. destruct (not_char (ch "]") c) eqn:N;
    [|discriminate].
  intros C. destruct (close_with_shape _ _ _ C) as (x & ws & -> & Cx & S & Nt).
  exists (T "#[" ++ c :: x), ws.
  split; [exact E|]. split; [now exists c, x|]. now split.
Qed.

Lemma p_attr_local a ws t :
  attr_core a -> all_space ws -> nsp t -> p_attr (a ++ ws ++ t) = Some t.
Proof.
  intros (c & x & -> & N & C) S Nt. unfold p_attr.
  rewrite <- app_assoc, after_lit_app_same. cbn [app]. rewrite N.
  now apply close_with_local.
Qed.

Lemma p_pre_attr_shape t t' :
  p_pre_attr t = Some t' ->
  exists a ws, t = a ++ ws ++ t' /\ pre_attr_core a /\ all_space ws /\ nsp t'.
Proof.
  unfold p_pre_attr. destruct (after_lit (T "#[") t) as [[|c t1]|] eqn:E;
    try discriminate.
  apply after_lit_splits in E. intros H.
  assert (C : close_with (ch "]") t1 = Some t'
              /\ (c = ch "d" -> after_lit (T "erive(") t1 = None)).
  { destruct (not_char (ch "d") c) eqn:N.
    - split; [assumption|]. intros ->. now rewrite not_char_same in N.
    - destruct (after_lit (T "erive(") t1); [discriminate|]. now split. }
  destruct C as [C L].
  destruct (close_with_shape _ _ _ C) as (x & ws & -> & Cx & S & Nt).
  exists (T "#[" ++ c :: x), ws.
  split; [exact E|]. split; [|now split].
  exists c, x. split; [reflexivity|]. split; [assumption|].
  intros D. specialize (L D).
    clear - L Cx. destruct Cx as (y & -> & A).
    (* the look-ahead reads only up to the closing bracket *)
    revert L. generalize (T "erive("). intros l. revert y A.
    induction l as [|k l IH]; intros y A L; [discriminate|].
    destruct y as [|z y].
    + cbn [app after_lit] in *. destruct (Ascii.eqb k (ch "]")) eqn:K.
      * destruct l; [discriminate|]. reflexivity.
      * reflexivity.
    + cbn [app after_lit] in *. destruct (Ascii.eqb k z); [|reflexivity].
      cbn [forallb] in A. apply andb_true_iff in A. now apply IH.
Qed.

End Shapes.

Ltac list_eq :=
  repeat (rewrite <- app_assoc || rewrite <- app_comm_cons); reflexivity.

Section Shapes2.

Lemma after_lit_closed l : forall y r,
  forallb (not_char (ch "]")) l = true ->
  after_lit l (y ++ [ch "]"]) = None ->
  after_lit l (y ++ ch "]" :: r) = None.
Proof.
  induction l as [|k l IH]; intros y r A H; [discriminate|].
  cbn [forallb] in A. apply andb_true_iff in A. destruct A as [A1 A2].
  destruct y as [|z y]; cbn [app after_lit] in *.
  - apply not_char_eqb in A1. rewrite Ascii.eqb_sym in A1. now rewrite A1.
  - destruct (Ascii.eqb k z); [now apply IH|reflexivity].
Qed.

Lemma p_pre_attr_local a ws t :
  pre_attr_core a -> all_space ws -> nsp t ->
  p_pre_attr (a ++ ws ++ t) = Some t.
Proof.
  intros (c & x & -> & C & L) S Nt. unfold p_pre_attr.
  rewrite <- app_assoc, after_lit_app_same. cbn [app].
  destruct (not_char (ch "d") c) eqn:N; [now apply close_with_local|].
  apply not_char_false in N. specialize (L N).
  destruct C as (y & -> & A). rewrite <- app_assoc. cbn [app].
  rewrite (after_lit_closed (T "erive(") y (ws ++ t) eq_refl L).
  replace (y ++ ch "]" :: ws ++ t) with ((y ++ [ch "]"]) ++ ws ++ t)
    by (now rewrite <- app_assoc).
  apply close_with_local; try assumption. now exists y.
Qed.

Lemma drop_while_prefix p t :
  exists x, t = x ++ drop_while p t /\ forallb p x = true.
Proof.
  induction t as [|c t (x & E & A)]; [now exists []|]. cbn [drop_while].
  destruct (p c) eqn:P; [|now exists []].
  exists (c :: x). cbn [app forallb]. rewrite P, A. split; [|reflexivity].
  now f_equal.
Qed.

Lemma drop_while_stop p x t :
  forallb p x = true ->
  match t with c :: _ => p c = false | [] => True end ->
  drop_while p (x ++ t) = t.
Proof.
  induction x as [|c x IH]; intros A N.
  - destruct t as [|z t]; [reflexivity|]. cbn [app drop_while]. now rewrite N.
  - cbn [forallb] in A. apply andb_true_iff in A. destruct A as [A1 A2].
    cbn [app drop_while]. rewrite A1. now apply IH.
Qed.

Lemma p_derive_shape t t' :
  p_derive t = Some t' ->
  exists a ws, t = a ++ ws ++ t' /\ derive_core a /\ all_space ws /\ nsp t'.
Proof.
  unfold p_derive. destruct (after_lit (T "#[derive(") t) as [[|c t1]|] eqn:E;
    try discriminate.
  apply after_lit_splits in E. destruct (not_char (ch ")") c) eqn:N;
    [|discriminate].
  destruct (drop_while_prefix (not_char (ch ")")) t1) as (x & Ex & A).
  destruct (after_lit (T ")]") (drop_while (not_char (ch ")")) t1)) as [t2|]
    eqn:E2; [|discriminate].
  apply after_lit_splits in E2. intros H. inversion H. subst t'.
  destruct (skip_spaces_splits t2) as (ws & Ew & S).
  exists (T "#[derive(" ++ c :: x ++ T ")]"), ws.
  split; [|split; [|split]].
  - rewrite E. rewrite Ex at 1. rewrite E2. rewrite Ew at 1.
    list_eq.
  - now exists c, x.
  - assumption.
  - apply nsp_skip_spaces.
Qed.

Lemma p_derive_local a ws t :
  derive_core a -> all_space ws -> nsp t -> p_derive (a ++ ws ++ t) = Some t.
Proof.
  intros (c & x & -> & N & A) S Nt. unfold p_derive.
  rewrite <- app_assoc, after_lit_app_same. cbn [app]. rewrite N.
  rewrite <- app_assoc. change (T ")]") with (ch ")" :: T "]").
  cbn [app]. rewrite drop_while_until by assumption.
  change (ch ")" :: T "]" ++ ws ++ t) with (T ")]" ++ ws ++ t).
  now rewrite after_lit_app_same, skip_spaces_app.
Qed.

Lemma p_doc_shape t t' :
  p_doc t = Some t' ->
  exists a ws, t = a ++ ws ++ t' /\ doc_core a /\ all_space ws /\ nsp t'.
Proof.
  unfold p_doc. destruct (after_lit (T "///") t) as [t1|] eqn:E;
    [|discriminate].
  apply after_lit_splits in E. intros C.
  destruct (close_with_shape _ _ _ C) as (x & ws & -> & Cx & S & Nt).
  exists (T "///" ++ x), ws. split; [|split; [|now split]].
  - rewrite E. now rewrite <- !app_assoc.
  - now exists x.
Qed.

Lemma p_doc_local a ws t :
  doc_core a -> all_space ws -> nsp t -> p_doc (a ++ ws ++ t) = Some t.
Proof.
  intros (x & -> & C) S Nt. unfold p_doc.
  rewrite <- app_assoc, after_lit_app_same. now apply close_with_local.
Qed.

Lemma p_keyword_shape t t' :
  p_keyword t = Some t' -> exists k, t = k ++ t' /\ keyword_core k.
Proof.
  unfold p_keyword. destruct (after_lit (T "pub ") t) as [t1|] eqn:E1;
    [|discriminate].
  apply after_lit_splits in E1.
  destruct (after_lit (T "struct") t1) as [t2|] eqn:E2.
  - apply after_lit_splits in E2. intros E3. apply after_lit_splits in E3.
    exists (T "pub struct "). split; [|now left]. now rewrite E1, E2, E3.
  - destruct (after_lit (T "enum") t1) as [t2|] eqn:E2'; [|discriminate].
    apply after_lit_splits in E2'. intros E3. apply after_lit_splits in E3.
    exists (T "pub enum "). split; [|now right]. now rewrite E1, E2', E3.
Qed.

Lemma p_keyword_local k t : keyword_core k -> p_keyword (k ++ t) = Some t.
Proof. intros [-> | ->]; reflexivity. Qed.

Lemma nw_drop_while t : nw (drop_while is_word t).
Proof.
  induction t as [|c t IH]; cbn [drop_while]; [exact I|].
  destruct (is_word c) eqn:E; [exact IH|exact E].
Qed.

Lemma p_header_shape t t' :
  p_header t = Some t' ->
  exists k nm,
    t = k ++ nm ++ t' /\ keyword_core k /\ name_core nm /\ nw t'
    /\ p_keyword t = Some (nm ++ t').
Proof.
  unfold p_header. destruct (p_keyword t) as [[|c t1]|] eqn:K;
    try discriminate.
  destruct (is_word c) eqn:W; [|discriminate]. intros H. inversion H. subst t'.
  destruct (p_keyword_shape _ _ K) as (k & E & Kc).
  destruct (drop_while_prefix is_word t1) as (x & Ex & A).
  exists k, (c :: x). split; [|split; [|split; [|split]]].
  - rewrite E. cbn [app]. now rewrite <- Ex.
  - assumption.
  - split; [discriminate|]. cbn [forallb]. now rewrite W, A.
  - apply nw_drop_while.
  - cbn [app]. now rewrite <- Ex.
Qed.

Lemma p_header_local k nm t :
  keyword_core k -> name_core nm -> nw t -> p_header (k ++ nm ++ t) = Some t.
Proof.
  intros Kc [Nn A] Nt. unfold p_header. rewrite p_keyword_local by assumption.
  destruct nm as [|c nm]; [congruence|]. cbn [forallb] in A.
  apply andb_true_iff in A. destruct A as [A1 A2]. cbn [app]. rewrite A1.
  f_equal. apply drop_while_stop; assumption.
Qed.

End Shapes2.

(** ** Sequences of pieces *)

Section Many.

Variable p : text -> option text.
Variable core : text -> Prop.

Hypothesis p_shape : forall t t',
  p t = Some t' ->
  exists a ws, t = a ++ ws ++ t' /\ core a /\ all_space ws /\ nsp t'.
Hypothesis p_local : forall a ws t,
  core a -> all_space ws -> nsp t -> p (a ++ ws ++ t) = Some t.
Hypothesis p_decreases : forall t t', p t = Some t' -> length t' < length t.
Hypothesis core_nsp : forall a r, core a -> a <> [] /\ nsp (a ++ r).

Lemma many_fuel n : forall m t,
  length t <= n -> length t <= m -> many p n t = many p m t.
Proof.
  induction n as [|n IH]; intros m t Ln Lm.
  - destruct t; [|simpl in Ln; lia]. destruct m; cbn [many]; [reflexivity|].
    destruct (p []) eqn:E; [|reflexivity].
    apply p_decreases in E. simpl in E. lia.
  - destruct m as [|m].
    + destruct t; [|simpl in Lm; lia]. cbn [many].
      destruct (p []) eqn:E; [|reflexivity].
      apply p_decreases in E. simpl in E. lia.
    + cbn [many]. destruct (p t) as [t1|] eqn:E; [|reflexivity].
      apply p_decreases in E. apply IH; lia.
Qed.

Lemma many_end n : forall t, length t <= n -> p (many p n t) = None.
Proof.
  induction n as [|n IH]; intros t L; cbn [many].
  - destruct t; [|simpl in L; lia]. destruct (p []) eqn:E; [|reflexivity].
    apply p_decreases in E. simpl in E. lia.
  - destruct (p t) as [t1|] eqn:E; [|assumption].
    apply IH. apply p_decreases in E. lia.
Qed.

Lemma pieces_nsp l t : pieces core l -> nsp t -> nsp (l ++ t).
Proof.
  intros [|a l' (b & ws & -> & C & S) P] N; [assumption|].
  rewrite <- !app_assoc. now apply core_nsp.
Qed.

Lemma piece_not_nil a : piece core a -> a <> [].
Proof.
  intros (b & ws & -> & C & S) E. apply app_eq_nil in E.
  destruct (core_nsp b [] C) as [N _]. tauto.
Qed.

Lemma many_shape n : forall t,
  exists l, t = l ++ many p n t /\ pieces core l
            /\ (l = [] \/ nsp (many p n t)).
Proof.
  induction n as [|n IH]; intros t; cbn [many].
  - exists []. split; [reflexivity|]. split; [constructor|now left].
  - destruct (p t) as [t1|] eqn:E.
    + destruct (p_shape _ _ E) as (a & ws & -> & C & S & N).
      destruct (IH t1) as (l & El & P & Nl).
      exists ((a ++ ws) ++ l). split; [|split].
      * rewrite El at 1. list_eq.
      * constructor; [now exists a, ws|assumption].
      * right. destruct Nl as [-> | Nl]; [|assumption].
        cbn [app] in El. now rewrite <- El.
    + exists []. split; [reflexivity|]. split; [constructor|now left].
Qed.

Lemma many_local l : forall n t,
  pieces core l -> nsp t -> p t = None -> length (l ++ t) <= n ->
  many p n (l ++ t) = t.
Proof.
  intros n t P. revert n. induction P as [|a l' A P IH]; intros n N E L.
  - cbn [app]. now apply many_stops.
  - pose proof (piece_not_nil a A) as Na.
    destruct A as (b & ws & -> & C & S).
    rewrite <- !app_assoc in *.
    destruct n as [|n].
    { rewrite !length_app in L. destruct b; [|simpl in L; lia].
      destruct (core_nsp [] [] C) as [F _]. congruence. }
    cbn [many]. rewrite p_local; try assumption.
    + apply IH; try assumption. rewrite !length_app in *.
      destruct (core_nsp b [] C) as [F _]. destruct b; [congruence|].
      simpl in L. lia.
    + now apply pieces_nsp.
Qed.

Lemma pieces_app l1 l2 : pieces core l1 -> pieces core l2 -> pieces core (l1 ++ l2).
Proof.
  intros P1 P2. induction P1 as [|a l A P IH]; [assumption|].
  rewrite <- app_assoc. now constructor.
Qed.

Lemma pieces_last l :
  pieces core l -> l <> [] ->
  exists l0 b ws, l = l0 ++ b ++ ws /\ pieces core l0 /\ core b /\ all_space ws.
Proof.
  intros P. induction P as [|a l' A P IH]; intros N; [congruence|].
  destruct l' as [|z l''].
  - destruct A as (b & ws & -> & C & S). exists [], b, ws.
    rewrite app_nil_r. split; [reflexivity|]. split; [constructor|].
    now split.
  - destruct IH as (l0 & b & ws & E & P0 & C & S); [discriminate|].
    exists (a ++ l0), b, ws. rewrite E. split; [list_eq|].
    split; [|now split]. now constructor.
Qed.

End Many.

Section Chains2.

Lemma pre_attr_core_nsp a r : pre_attr_core a -> a <> [] /\ nsp (a ++ r).
Proof. intros (c & x & -> & _). split; [discriminate|reflexivity]. Qed.

Lemma attr_core_nsp a r : attr_core a -> a <> [] /\ nsp (a ++ r).
Proof. intros (c & x & -> & _). split; [discriminate|reflexivity]. Qed.

Lemma derive_core_nsp a r : derive_core a -> a <> [] /\ nsp (a ++ r).
Proof. intros (c & x & -> & _). split; [discriminate|reflexivity]. Qed.

Lemma doc_core_nsp a r : doc_core a -> a <> [] /\ nsp (a ++ r).
Proof. intros (x & -> & _). split; [discriminate|reflexivity]. Qed.

Lemma keyword_core_nsp k r : keyword_core k -> k <> [] /\ nsp (k ++ r).
Proof. intros [-> | ->]; (split; [discriminate|reflexivity]). Qed.

Lemma derive_core_first a r :
  derive_core a -> exists x, a ++ r = T "#[derive(" ++ x.
Proof.
  intros (c & x & -> & _). exists ((c :: x ++ T ")]") ++ r). list_eq.
Qed.

Lemma p_pre_attr_derive t x : t = T "#[derive(" ++ x -> p_pre_attr t = None.
Proof. intros ->. reflexivity. Qed.

Lemma p_attr_first_char t c r :
  t = c :: r -> c <> ch "#" -> p_attr t = None.
Proof.
  intros -> N. destruct (p_attr (c :: r)) eqn:E; [|reflexivity].
  destruct (p_attr_first _ E) as [t0 H]. congruence.
Qed.

Lemma p_derive_first_char t c r :
  t = c :: r -> c <> ch "#" -> p_derive t = None.
Proof.
  intros -> N. unfold p_derive.
  destruct (after_lit (T "#[derive(") (c :: r)) eqn:E; [|reflexivity].
  destruct (@after_lit_first (T "#[derive(") _ _ E) as [t0 H].
  inversion H. subst. now destruct N.
Qed.

Lemma p_derives_fuel n m t :
  length t <= n -> length t <= m -> p_derives n t = p_derives m t.
Proof.
  intros Ln Lm. destruct n as [|n], m as [|m];
    try (destruct t; [reflexivity|simpl in *; lia]).
  rewrite !p_derives_S. destruct (p_derive t) as [t1|] eqn:E; [|reflexivity].
  apply p_derive_decreases in E. apply best_fuel; lia.
Qed.

Lemma p_derives_maximal n : forall t t2,
  length t <= n -> p_derives n t = Some t2 ->
  p_derives (length t2) t2 = None /\ p_tail t2 <> None.
Proof.
  induction n as [|n IH]; intros t t2 L; [discriminate|].
  cbn [p_derives]. destruct (p_derive t) as [t1|] eqn:E; [|discriminate].
  apply p_derive_decreases in E.
  destruct (p_derives n t1) as [t2'|] eqn:D.
  - intros H. inversion H. subst. apply (IH t1); [lia|assumption].
  - destruct (p_tail t1) eqn:Tl; [|discriminate]. intros H. inversion H.
    subst. split; [|congruence]. rewrite <- D. apply p_derives_fuel; lia.
Qed.

Lemma p_derives_shape n : forall t t2,
  p_derives n t = Some t2 ->
  exists dl, t = dl ++ t2 /\ pieces derive_core dl /\ dl <> [] /\ nsp t2.
Proof.
  induction n as [|n IH]; intros t t2; [discriminate|].
  cbn [p_derives]. destruct (p_derive t) as [t1|] eqn:E; [|discriminate].
  destruct (p_derive_shape _ _ E) as (a & ws & -> & C & S & N).
  assert (Pa : piece derive_core (a ++ ws)) by (now exists a, ws).
  assert (Na : a ++ ws <> []).
  { intros F. apply app_eq_nil in F. destruct (derive_core_nsp a [] C). tauto. }
  destruct (p_derives n t1) as [t2'|] eqn:D.
  - intros H. inversion H. subst. destruct (IH _ _ D) as (dl & -> & P & Nd & N2).
    exists ((a ++ ws) ++ dl). split; [list_eq|]. split; [now constructor|].
    split; [|assumption]. intros F. apply app_eq_nil in F. tauto.
  - destruct (p_tail t1); [|discriminate]. intros H. inversion H. subst.
    exists ((a ++ ws) ++ []). split; [list_eq|].
    split; [constructor; [assumption|constructor]|].
    split; [|assumption]. rewrite app_nil_r. assumption.
Qed.

Lemma p_derives_local dl : forall n t2,
  pieces derive_core dl -> dl <> [] -> nsp t2 ->
  p_tail t2 <> None -> p_derives (length t2) t2 = None ->
  length (dl ++ t2) <= n ->
  p_derives n (dl ++ t2) = Some t2.
Proof.
  intros n t2 P. revert n. induction P as [|a l A P IH]; intros n Nd N Tl Mx L;
    [congruence|].
  pose proof (piece_not_nil derive_core derive_core_nsp a A) as Na.
  destruct A as (b & ws & -> & C & S). rewrite <- !app_assoc in *.
  destruct (derive_core_nsp b [] C) as [Nb _].
  destruct n as [|n].
  { rewrite !length_app in L. destruct b; [congruence|simpl in L; lia]. }
  assert (Ll : length (l ++ t2) <= n).
  { rewrite !length_app in *. destruct b; [congruence|]. simpl in L. lia. }
  cbn [p_derives]. rewrite p_derive_local; try assumption.
  - destruct l as [|z l'].
    + cbn [app] in *. rewrite (p_derives_fuel n (length t2)) by lia.
      rewrite Mx. destruct (p_tail t2); congruence.
    + rewrite IH; try assumption; [reflexivity|discriminate].
  - apply (pieces_nsp derive_core derive_core_nsp); assumption.
Qed.

Lemma rstrip_all_space ws : all_space ws -> rstrip ws = [].
Proof.
  unfold all_space. induction ws as [|c ws IH]; [reflexivity|].
  cbn [forallb rstrip]. intros A. apply andb_true_iff in A.
  destruct A as [A1 A2]. now rewrite IH, A1.
Qed.

Lemma rstrip_app x c ws :
  is_space c = false -> all_space ws -> rstrip (x ++ c :: ws) = x ++ [c].
Proof.
  intros Nc S. induction x as [|z x IH]; cbn [app rstrip].
  - now rewrite rstrip_all_space, Nc.
  - rewrite IH. destruct x; reflexivity.
Qed.

End Chains2.

(** ** Matches and their parts *)

Section Matches.

Lemma skip_pre_attrs_shape t :
  exists l, t = l ++ skip_pre_attrs t /\ pieces pre_attr_core l.
Proof.
  destruct (many_shape p_pre_attr pre_attr_core p_pre_attr_shape (length t) t)
    as (l & E & P & _). now exists l.
Qed.

Lemma skip_attrs_shape t :
  exists l, t = l ++ skip_attrs t /\ pieces attr_core l.
Proof.
  destruct (many_shape p_attr attr_core p_attr_shape (length t) t)
    as (l & E & P & _). now exists l.
Qed.

Lemma skip_docs_shape t :
  exists l, t = l ++ skip_docs t /\ pieces doc_core l.
Proof.
  destruct (many_shape p_doc doc_core p_doc_shape (length t) t)
    as (l & E & P & _). now exists l.
Qed.

Lemma skip_pre_attrs_local l t :
  pieces pre_attr_core l -> nsp t -> p_pre_attr t = None ->
  skip_pre_attrs (l ++ t) = t.
Proof.
  intros. apply (many_local p_pre_attr pre_attr_core p_pre_attr_local
                   pre_attr_core_nsp); auto.
Qed.

Lemma skip_attrs_local l t :
  pieces attr_core l -> nsp t -> p_attr t = None -> skip_attrs (l ++ t) = t.
Proof.
  intros. apply (many_local p_attr attr_core p_attr_local attr_core_nsp); auto.
Qed.

Lemma skip_docs_local l t :
  pieces doc_core l -> nsp t -> p_doc t = None -> skip_docs (l ++ t) = t.
Proof.
  intros. apply (many_local p_doc doc_core p_doc_local doc_core_nsp); auto.
Qed.

(** What follows the attributes after the derive lines starts with a slash
    or with [p]. *)
Lemma docs_header_first docs k r :
  pieces doc_core docs -> keyword_core k ->
  exists c r', docs ++ k ++ r = c :: r' /\ c <> ch "#" /\ is_space c = false.
Proof.
  intros [|a l (b & ws & -> & (x & -> & _) & _) _] K.
  - destruct K as [-> | ->]; eexists _, _; (split; [reflexivity|]);
      split; (discriminate || reflexivity).
  - eexists _, _. split; [reflexivity|]. split; (discriminate || reflexivity).
Qed.

Lemma header_first k r :
  keyword_core k ->
  exists r', k ++ r = ch "p" :: r'.
Proof. intros [-> | ->]; eexists; reflexivity. Qed.

Lemma p_tail_local other docs k nm t :
  pieces attr_core other -> pieces doc_core docs ->
  keyword_core k -> name_core nm -> nw t ->
  skip_attrs (other ++ docs ++ k ++ nm ++ t) = docs ++ k ++ nm ++ t
  /\ skip_docs (docs ++ k ++ nm ++ t) = k ++ nm ++ t
  /\ p_keyword (k ++ nm ++ t) = Some (nm ++ t)
  /\ p_header (k ++ nm ++ t) = Some t
  /\ p_tail (other ++ docs ++ k ++ nm ++ t) = Some t.
Proof.
  intros Po Pd K N Nt.
  destruct (docs_header_first docs k (nm ++ t) Pd K) as (c & r & E & Nc & Sc).
  destruct (header_first k (nm ++ t) K) as (r' & E').
  assert (A : skip_attrs (other ++ docs ++ k ++ nm ++ t)
              = docs ++ k ++ nm ++ t).
  { apply skip_attrs_local; [assumption| |].
    - rewrite E. exact Sc.
    - eapply p_attr_first_char; eauto. }
  assert (B : skip_docs (docs ++ k ++ nm ++ t) = k ++ nm ++ t).
  { apply skip_docs_local; [assumption| |].
    - rewrite E'. reflexivity.
    - eapply p_doc_not_first; eauto. discriminate. }
  assert (C : p_header (k ++ nm ++ t) = Some t) by now apply p_header_local.
  repeat split; try assumption.
  - now apply p_keyword_local.
  - unfold p_tail. now rewrite A, B.
Qed.

Lemma tail_nsp other docs k r :
  pieces attr_core other -> pieces doc_core docs -> keyword_core k ->
  nsp (other ++ docs ++ k ++ r).
Proof.
  intros Po Pd K. apply (pieces_nsp attr_core attr_core_nsp); [assumption|].
  apply (pieces_nsp doc_core doc_core_nsp); [assumption|].
  now apply keyword_core_nsp.
Qed.

Lemma is_match_re_match s m pre dl other docs k nm :
  is_match s m pre dl other docs k nm -> re_match s = Some m.
Proof.
  intros (E & W & G & Pp & Pd & Nd & Po & Pc & K & N & Nt & Mx).
  rewrite re_match_spec. unfold match_spec.
  set (s2 := other ++ docs ++ k ++ nm ++ m_after m) in *.
  destruct (p_tail_local other docs k nm (m_after m) Po Pc K N Nt)
    as (A3 & A4 & A5 & A6 & A7). fold s2 in A3, A7.
  assert (N2 : nsp s2) by now apply tail_nsp.
  assert (N1 : nsp (dl ++ s2))
    by now apply (pieces_nsp derive_core derive_core_nsp).
  assert (A1 : skip_pre_attrs s = dl ++ s2).
  { rewrite E. apply skip_pre_attrs_local; try assumption.
    destruct Pd as [|a l (b & ws & -> & C & S) P]; [congruence|].
    destruct (derive_core_first b ((ws ++ l) ++ s2) C) as [x Ex].
    apply (p_pre_attr_derive _ x). rewrite <- Ex. list_eq. }
  rewrite A1.
  rewrite (p_derives_local dl (length (dl ++ s2)) s2); try assumption;
    try lia; [|congruence].
  rewrite A3, A4, A5, A6.
  destruct m as [w g a]. cbn [m_whole m_groups m_after] in *.
  subst w g. f_equal.
  assert (B : forall x y : text, before (x ++ y) y = x) by apply before_app.
  f_equal.
  - rewrite E. subst s2.
    replace (pre ++ dl ++ other ++ docs ++ k ++ nm ++ a)
      with ((pre ++ dl ++ other ++ docs ++ k ++ nm) ++ a) by list_eq.
    apply B.
  - subst s2. repeat f_equal.
    + replace (k ++ nm ++ a) with ((k ++ nm) ++ a) by list_eq. apply B.
    + apply B.
    + apply B.
    + apply B.
    + apply B.
    + rewrite E. apply B.
Qed.

Lemma re_match_is_match s m :
  re_match s = Some m ->
  exists pre dl other docs k nm, is_match s m pre dl other docs k nm.
Proof.
  intros H. destruct (re_match_parts s H)
    as (pre & dl & other & docs & k & nm & E & W & G & A1 & A2 & A3 & A4 & A5
        & A6 & Nn & _).
  exists pre, dl, other, docs, k, nm.
  destruct (skip_pre_attrs_shape s) as (l1 & E1 & P1).
  rewrite A1 in E1. rewrite E in E1 at 1. apply app_inv_tail in E1. subst l1.
  assert (L : length (skip_pre_attrs s) <= length (skip_pre_attrs s)) by lia.
  destruct (p_derives_maximal _ _ _ L A2) as [Mx Tl].
  destruct (p_derives_shape _ _ _ A2) as (l2 & E2 & P2 & N2 & _).
  rewrite A1 in E2. apply app_inv_tail in E2. subst l2.
  destruct (skip_attrs_shape (other ++ docs ++ k ++ nm ++ m_after m))
    as (l3 & E3 & P3).
  rewrite A3 in E3. apply app_inv_tail in E3. subst l3.
  destruct (skip_docs_shape (docs ++ k ++ nm ++ m_after m)) as (l4 & E4 & P4).
  rewrite A4 in E4. apply app_inv_tail in E4. subst l4.
  destruct (p_header_shape _ _ A6) as (k' & nm' & E5 & K & N & Nt & Kw).
  rewrite A5 in Kw. inversion Kw as [E6]. apply app_inv_tail in E6. subst nm'.
  replace (k' ++ nm ++ m_after m) with (k' ++ (nm ++ m_after m)) in E5
    by reflexivity.
  apply app_inv_tail in E5. subst k'.
  unfold is_match. repeat split; try assumption; apply N.
Qed.

End Matches.

(** ** The derive lines of a match *)

Section Derives.

(** The derive lines end with [)]] and white space; [rstrip] removes the
    white space. *)
Lemma derives_kept dl :
  pieces derive_core dl -> dl <> [] ->
  exists x ws,
    dl = (x ++ T ")]") ++ ws /\ all_space ws /\ rstrip dl = x ++ T ")]".
Proof.
  intros P N.
  destruct (pieces_last derive_core dl P N)
    as (l0 & b & ws & -> & _ & (c & y & -> & _) & S).
  exists (l0 ++ T "#[derive(" ++ c :: y), ws.
  split; [list_eq|]. split; [assumption|].
  replace (l0 ++ (T "#[derive(" ++ c :: y ++ T ")]") ++ ws)
    with ((l0 ++ T "#[derive(" ++ c :: y ++ [ch ")"]) ++ ch "]" :: ws)
    by list_eq.
  rewrite rstrip_app by (reflexivity || assumption). list_eq.
Qed.

Lemma is_match_groups s m pre dl other docs k nm :
  is_match s m pre dl other docs k nm ->
  group m 1 = pre /\ group m 2 = dl /\ group m 3 = other
  /\ group m 4 = docs /\ group m 5 = k ++ nm /\ group m 6 = nm.
Proof.
  intros (_ & _ & G & _). unfold group. rewrite G. repeat split.
Qed.

End Derives.

(** ** The changed-flag *)

Section Changed.

Lemma marker_derive_core : derive_core derive_marker_line.
Proof.
  exists (ch "u"), (T "toipa::ToSchema"). repeat split.
Qed.

Lemma marker_attr_core : attr_core derive_marker_line.
Proof.
  exists (ch "d"), (T "erive(utoipa::ToSchema)]").
  split; [reflexivity|]. split; [reflexivity|].
  exists (T "erive(utoipa::ToSchema)"). split; reflexivity.
Qed.

Lemma p_derive_marker ws t :
  all_space ws -> nsp t -> p_derive (derive_marker_line ++ ws ++ t) = Some t.
Proof. apply p_derive_local, marker_derive_core. Qed.

Lemma p_attr_marker ws t :
  all_space ws -> nsp t -> p_attr (derive_marker_line ++ ws ++ t) = Some t.
Proof. apply p_attr_local, marker_attr_core. Qed.

Lemma skip_attrs_step t t1 : p_attr t = Some t1 -> skip_attrs t = skip_attrs t1.
Proof.
  intros E. unfold skip_attrs. assert (L := E); apply p_attr_decreases in L.
  destruct t as [|c t]; [simpl in L; lia|]. cbn [length many]. rewrite E.
  apply (many_fuel p_attr p_attr_decreases); simpl in L; lia.
Qed.

Lemma skip_docs_step t t1 : p_doc t = Some t1 -> skip_docs t = skip_docs t1.
Proof.
  intros E. unfold skip_docs. assert (L := E); apply p_doc_decreases in L.
  destruct t as [|c t]; [simpl in L; lia|]. cbn [length many]. rewrite E.
  apply (many_fuel p_doc p_doc_decreases); simpl in L; lia.
Qed.

Lemma skip_pre_attrs_step t t1 :
  p_pre_attr t = Some t1 -> skip_pre_attrs t = skip_pre_attrs t1.
Proof.
  intros E. unfold skip_pre_attrs.
  assert (L := E); apply p_pre_attr_decreases in L.
  destruct t as [|c t]; [simpl in L; lia|]. cbn [length many]. rewrite E.
  apply (many_fuel p_pre_attr p_pre_attr_decreases); simpl in L; lia.
Qed.

Lemma p_tail_step t t1 : p_attr t = Some t1 -> p_tail t = p_tail t1.
Proof. intros E. unfold p_tail. now rewrite (skip_attrs_step _ _ E). Qed.

Lemma best_of_tail n t : p_tail t <> None -> best n t <> None.
Proof.
  intros H. unfold best. destruct (p_derives n t); [discriminate|].
  destruct (p_tail t); [discriminate|congruence].
Qed.

(** A derive line after the derive lines of a match would have been taken:
    the text after them does not start with a line that is both a derive
    line and an attribute. *)
Lemma no_line_after_derives t2 a ws t :
  p_derives (length t2) t2 = None -> p_tail t2 <> None ->
  t2 = a ++ ws ++ t -> derive_core a -> attr_core a ->
  all_space ws -> nsp t -> False.
Proof.
  intros Mx Tl -> Cd Ca S N.
  pose proof (p_derive_local a ws t Cd S N) as D.
  pose proof (p_attr_local a ws t Ca S N) as A.
  rewrite (p_tail_step _ _ A) in Tl.
  assert (L := D); apply p_derive_decreases in L.
  destruct (length (a ++ ws ++ t)) as [|n] eqn:El; [lia|].
  rewrite p_derives_S, D in Mx.
  now apply (best_of_tail n t).
Qed.

(** The text the callback gives for a match it annotates is never the text
    it matched, whatever follows. *)
Lemma annotated_differs s m x :
  re_match s = Some m -> qualifies m = true ->
  add_separate_derive m ++ x <> s.
Proof.
  intros M Q F.
  destruct (re_match_is_match s m M) as (pre & dl & other & docs & k & nm & I).
  destruct (is_match_groups _ _ _ _ _ _ _ _ I)
    as (G1 & G2 & G3 & G4 & G5 & G6).
  destruct I as (E & W & _ & _ & Pd & Nd & Po & Pc & K & N & Nt & Mx).
  destruct (derives_kept dl Pd Nd) as (y & ws & Ed & S & R).
  destruct (p_tail_local other docs k nm (m_after m) Po Pc K N Nt)
    as (_ & _ & _ & _ & Tl).
  pose proof (tail_nsp other docs k (nm ++ m_after m) Po Pc K) as N2.
  set (s2 := other ++ docs ++ k ++ nm ++ m_after m) in *.
  rewrite add_separate_derive_cases, Q in F. unfold annotated in F.
  rewrite G1, G2, G3, G4, G5, R in F. rewrite E, Ed in F.
  replace ((pre ++ (y ++ T ")]") ++ [nl] ++ derive_marker_line ++ [nl]
            ++ other ++ docs ++ k ++ nm) ++ x)
    with ((pre ++ y ++ T ")]") ++ nl :: derive_marker_line
          ++ nl :: other ++ docs ++ (k ++ nm) ++ x) in F by list_eq.
  replace (pre ++ ((y ++ T ")]") ++ ws) ++ s2)
    with ((pre ++ y ++ T ")]") ++ ws ++ s2) in F by list_eq.
  apply app_inv_head in F.
  destruct ws as [|w [|w' ws']].
  - cbn [app] in F. rewrite <- F in N2. discriminate N2.
  - cbn [app] in F. inversion F as [[Ew F']].
    destruct (skip_spaces_splits (nl :: other ++ docs ++ (k ++ nm) ++ x))
      as (ws'' & E'' & S'').
    rewrite E'' in F'.
    apply (no_line_after_derives s2 derive_marker_line ws''
             (skip_spaces (nl :: other ++ docs ++ (k ++ nm) ++ x)));
      auto using marker_derive_core, marker_attr_core, nsp_skip_spaces.
    congruence.
  - cbn [app] in F. inversion F as [[Ew Ew' F']].
    unfold all_space in S. cbn [forallb] in S. rewrite <- Ew' in S.
    apply andb_true_iff in S. destruct S as [_ S].
    apply andb_true_iff in S. destruct S as [S _].
    vm_compute in S. discriminate S.
Qed.

Lemma segments_text n : forall s,
  length s <= n ->
  s = flat_map original (segments_loop n s)
  /\ sub_loop n s = flat_map rewritten (segments_loop n s).
Proof.
  induction n as [|n IH]; intros s L.
  - destruct s; [now split|simpl in L; lia].
  - cbn [segments_loop sub_loop]. destruct (re_match s) as [m|] eqn:M.
    + pose proof (re_match_shorter _ _ M) as Lm.
      destruct (IH (m_after m)) as [E1 E2]; [lia|].
      cbn [flat_map original rewritten]. rewrite <- E1, <- E2.
      split; [now apply re_match_whole|reflexivity].
    + destruct s as [|c s]; [now split|].
      destruct (IH s) as [E1 E2]; [simpl in L; lia|].
      cbn [flat_map original rewritten app]. now rewrite <- E1, <- E2.
Qed.

Lemma sub_loop_same n : forall s,
  length s <= n ->
  (sub_loop n s = s <-> existsb is_annotated (segments_loop n s) = false).
Proof.
  induction n as [|n IH]; intros s L.
  - destruct s; [now split|simpl in L; lia].
  - cbn [segments_loop sub_loop]. destruct (re_match s) as [m|] eqn:M.
    + pose proof (re_match_shorter _ _ M) as Lm.
      cbn [existsb is_annotated]. destruct (qualifies m) eqn:Q.
      * cbn [orb]. split; [|discriminate]. intros F.
        now destruct (annotated_differs _ _ _ M Q F).
      * cbn [orb]. rewrite <- (IH (m_after m)) by lia.
        rewrite add_separate_derive_cases, Q.
        rewrite (re_match_whole _ _ M) at 1. split.
        -- apply app_inv_head.
        -- now intros ->.
    + destruct s as [|c s]; [now split|].
      cbn [existsb is_annotated orb]. rewrite <- (IH s) by (simpl in L; lia).
      split; [intros F; inversion F as [F']; now rewrite F'|now intros ->].
Qed.

End Changed.

(** ** Texts related by insertions *)

Section Related.

Lemma related_app x s o : related s o -> related (x ++ s) (x ++ o).
Proof.
  intros H. induction x as [|c x IH]; [assumption|]. cbn [app].
  now constructor.
Qed.

Lemma related_refl s : related s s.
Proof.
  rewrite <- (app_nil_r s). apply related_app. constructor.
Qed.

(** Related texts are both empty or start with the same character. *)
Lemma related_first s o :
  related s o ->
  (s = [] /\ o = []) \/ exists c s' o', s = c :: s' /\ o = c :: o'.
Proof.
  intros [|c s' o' H|ws s' o' A N H Hi]; [now left| |]; right.
  - now exists c, s', o'.
  - eexists _, _, _. split; reflexivity.
Qed.

Lemma related_nsp s o : related s o -> nsp s -> nsp o.
Proof.
  intros H N. destruct (related_first s o H) as [[-> ->]|(c & s' & o' & -> & ->)];
    assumption.
Qed.

Lemma related_nw s o : related s o -> nw s -> nw o.
Proof.
  intros H N. destruct (related_first s o H) as [[-> ->]|(c & s' & o' & -> & ->)];
    assumption.
Qed.

(** A literal without [)] reads the same in both texts. *)
Lemma after_lit_related l : forall s o,
  forallb (not_char (ch ")")) l = true ->
  related s o -> rel_opt related (after_lit l s) (after_lit l o).
Proof.
  induction l as [|k l IH]; intros s o A H; [exact H|].
  cbn [forallb] in A. apply andb_true_iff in A. destruct A as [A1 A2].
  apply not_char_eqb in A1. rewrite Ascii.eqb_sym in A1.
  destruct H as [|c s' o' H|ws s' o' S N H Hi]; cbn [after_lit app].
  - exact I.
  - destruct (Ascii.eqb k c); [now apply IH|exact I].
  - change (T ")]") with (ch ")" :: T "]"). cbn [app after_lit].
    rewrite A1. exact I.
Qed.

(** Skipping characters of a class to which [)] does not belong. *)
Lemma drop_while_related p :
  p (ch ")") = false ->
  forall s o, related s o -> related (drop_while p s) (drop_while p o).
Proof.
  intros P s o H. induction H as [|c s' o' H IH|ws s' o' S N H IH Hi].
  - constructor.
  - cbn [drop_while]. destruct (p c); [assumption|now constructor].
  - change (T ")]") with (ch ")" :: T "]"). cbn [app drop_while]. rewrite P.
    now apply related_ins.
Qed.

Lemma skip_spaces_related s o :
  related s o -> related (skip_spaces s) (skip_spaces o).
Proof. now apply drop_while_related. Qed.

Lemma skip_spaces_marker o : skip_spaces (derive_marker_line ++ o) = derive_marker_line ++ o.
Proof. reflexivity. Qed.

Lemma skip_spaces_after s o :
  related_after s o -> related_m (skip_spaces s) (skip_spaces o).
Proof.
  intros [H|(ws & s0 & o0 & -> & -> & S & N & H & Hi)].
  - left. now apply skip_spaces_related.
  - right. rewrite skip_spaces_app by assumption.
    change (skip_spaces (nl :: derive_marker_line ++ nl :: o0))
      with (derive_marker_line ++ nl :: o0).
    now exists o0.
Qed.

(** Up to the next closing bracket. *)
Lemma to_bracket_related s o :
  related s o ->
  match drop_while (not_char (ch "]")) s, drop_while (not_char (ch "]")) o with
  | [], [] => True
  | x :: s', y :: o' => x = ch "]" /\ y = ch "]" /\ related_after s' o'
  | _, _ => False
  end.
Proof.
  intros H. induction H as [|c s' o' H IH|ws s' o' S N H IH Hi].
  - exact I.
  - cbn [drop_while]. destruct (not_char (ch "]") c) eqn:E; [assumption|].
    apply not_char_false in E. subst c. repeat split. now left.
  - change (T ")]") with (ch ")" :: T "]"). cbn [app drop_while].
    change (not_char (ch "]") (ch ")")) with true. cbv iota.
    change (T "]") with ([ch "]"]). cbn [app drop_while].
    rewrite not_char_same. repeat split. right. now exists ws, s', o'.
Qed.

Lemma close_bracket_related s o :
  related s o ->
  rel_opt related_m (close_with (ch "]") s) (close_with (ch "]") o).
Proof.
  intros H. pose proof (to_bracket_related s o H) as W. unfold close_with.
  destruct (drop_while (not_char (ch "]")) s) as [|x s'],
           (drop_while (not_char (ch "]")) o) as [|y o'];
    try exact W; try contradiction.
  destruct W as (-> & -> & A). rewrite Ascii.eqb_refl.
  now apply skip_spaces_after.
Qed.

End Related.

Section RelatedParsers.

Lemma related_uncons c c' s o :
  related (c :: s) (c' :: o) ->
  c = c' /\ (related s o \/ (c = ch ")" /\ related_mid s o)).
Proof.
  intros H. inversion H as [|x s' o' H'|ws s' o' S N H' Hi]; subst.
  - split; [reflexivity|now left].
  - split; [reflexivity|]. right. split; [reflexivity|].
    now exists ws, s', o'.
Qed.

Lemma close_bracket_mid s o :
  related_mid s o ->
  rel_opt related_m (close_with (ch "]") s) (close_with (ch "]") o).
Proof.
  intros (ws & s0 & o0 & -> & -> & S & N & H & Hi).
  unfold close_with. cbn [drop_while]. rewrite not_char_same.
  rewrite Ascii.eqb_refl. rewrite skip_spaces_app by assumption.
  change (skip_spaces (nl :: derive_marker_line ++ nl :: o0))
    with (derive_marker_line ++ nl :: o0).
  right. now exists o0.
Qed.

Lemma close_bracket_tail s o :
  related s o \/ related_mid s o ->
  rel_opt related_m (close_with (ch "]") s) (close_with (ch "]") o).
Proof.
  intros [H|H]; [now apply close_bracket_related|now apply close_bracket_mid].
Qed.

(** The first character after a literal and what follows it. *)
Lemma related_head s o :
  related s o ->
  match s, o with
  | [], [] => True
  | c :: s', c' :: o' =>
      c = c' /\ (related s' o' \/ (c = ch ")" /\ related_mid s' o'))
  | _, _ => False
  end.
Proof.
  intros H. destruct (related_first s o H) as [[-> ->]|(c & s' & o' & -> & ->)];
    [exact I|]. now apply related_uncons.
Qed.

Lemma p_attr_related s o :
  related s o -> rel_opt related_m (p_attr s) (p_attr o).
Proof.
  intros H. unfold p_attr.
  pose proof (after_lit_related (T "#[") s o eq_refl H) as A.
  destruct (after_lit (T "#[") s) as [s1|], (after_lit (T "#[") o) as [o1|];
    try exact A; try contradiction.
  cbn [rel_opt] in A. pose proof (related_head s1 o1 A) as B.
  destruct s1 as [|c s1], o1 as [|c' o1]; try exact B; try contradiction.
  destruct B as [<- B]. destruct (not_char (ch "]") c); [|exact I].
  apply close_bracket_tail. tauto.
Qed.

Lemma p_pre_attr_related s o :
  related s o -> rel_opt related_m (p_pre_attr s) (p_pre_attr o).
Proof.
  intros H. unfold p_pre_attr.
  pose proof (after_lit_related (T "#[") s o eq_refl H) as A.
  destruct (after_lit (T "#[") s) as [s1|], (after_lit (T "#[") o) as [o1|];
    try exact A; try contradiction.
  cbn [rel_opt] in A. pose proof (related_head s1 o1 A) as B.
  destruct s1 as [|c s1], o1 as [|c' o1]; try exact B; try contradiction.
  destruct B as [<- B]. destruct (not_char (ch "d") c) eqn:N.
  - apply close_bracket_tail. tauto.
  - apply not_char_false in N. subst c.
    destruct B as [B|[B _]]; [|discriminate B].
    pose proof (after_lit_related (T "erive(") s1 o1 eq_refl B) as L.
    destruct (after_lit (T "erive(") s1), (after_lit (T "erive(") o1);
      try exact I; try contradiction.
    now apply close_bracket_related.
Qed.

Lemma after_close_related s o :
  related s o ->
  rel_opt related_after (after_lit (T ")]") s) (after_lit (T ")]") o).
Proof.
  intros H. change (T ")]") with [ch ")"; ch "]"].
  pose proof (related_head s o H) as B.
  destruct s as [|c s], o as [|c' o]; try exact B; try contradiction.
  destruct B as [<- B]. cbn [after_lit].
  destruct (Ascii.eqb (ch ")") c) eqn:E; [|exact I].
  destruct B as [B|[_ (ws & s0 & o0 & -> & -> & S & N & H' & Hi)]].
  - pose proof (related_head s o B) as B'.
    destruct s as [|d s], o as [|d' o]; try exact B'; try contradiction.
    destruct B' as [<- B']. destruct (Ascii.eqb (ch "]") d) eqn:E'; [|exact I].
    destruct B' as [B'|[B' _]].
    + now left.
    + subst d. discriminate E'.
  - rewrite Ascii.eqb_refl. right. now exists ws, s0, o0.
Qed.

Lemma p_derive_related s o :
  related s o -> rel_opt related_m (p_derive s) (p_derive o).
Proof.
  intros H. unfold p_derive.
  pose proof (after_lit_related (T "#[derive(") s o eq_refl H) as A.
  destruct (after_lit (T "#[derive(") s) as [s1|],
           (after_lit (T "#[derive(") o) as [o1|];
    try exact A; try contradiction.
  cbn [rel_opt] in A. pose proof (related_head s1 o1 A) as B.
  destruct s1 as [|c s1], o1 as [|c' o1]; try exact B; try contradiction.
  destruct B as [<- B]. destruct (not_char (ch ")") c) eqn:N; [|exact I].
  destruct B as [B|[B _]]; [|subst c; discriminate N].
  pose proof (drop_while_related (not_char (ch ")")) eq_refl s1 o1 B) as D.
  pose proof (after_close_related _ _ D) as C.
  destruct (after_lit (T ")]") (drop_while (not_char (ch ")")) s1)),
           (after_lit (T ")]") (drop_while (not_char (ch ")")) o1));
    try exact C; try contradiction.
  now apply skip_spaces_after.
Qed.

Lemma p_keyword_related s o :
  related s o -> rel_opt related (p_keyword s) (p_keyword o).
Proof.
  intros H. unfold p_keyword.
  pose proof (after_lit_related (T "pub ") s o eq_refl H) as A.
  destruct (after_lit (T "pub ") s) as [s1|], (after_lit (T "pub ") o) as [o1|];
    try exact A; try contradiction.
  cbn [rel_opt] in A.
  pose proof (after_lit_related (T "struct") s1 o1 eq_refl A) as B.
  pose proof (after_lit_related (T "enum") s1 o1 eq_refl A) as C.
  destruct (after_lit (T "struct") s1) as [s2|],
           (after_lit (T "struct") o1) as [o2|]; try contradiction.
  - now apply after_lit_related.
  - destruct (after_lit (T "enum") s1) as [s2|],
             (after_lit (T "enum") o1) as [o2|]; try exact C; try contradiction.
    now apply after_lit_related.
Qed.

Lemma p_header_related s o :
  related s o -> rel_opt related (p_header s) (p_header o).
Proof.
  intros H. unfold p_header. pose proof (p_keyword_related s o H) as A.
  destruct (p_keyword s) as [s1|], (p_keyword o) as [o1|];
    try exact A; try contradiction.
  cbn [rel_opt] in A. pose proof (related_head s1 o1 A) as B.
  destruct s1 as [|c s1], o1 as [|c' o1]; try exact B; try contradiction.
  destruct B as [<- B]. destruct (is_word c) eqn:W; [|exact I].
  destruct B as [B|[B _]]; [|subst c; discriminate W].
  now apply drop_while_related.
Qed.

(** Up to the end of the line: a line of [o] that ends at a newline the
    pass has put in is followed by the annotation line. *)
Lemma to_newline_related s o :
  related s o ->
  match drop_while (not_char nl) o with
  | [] => drop_while (not_char nl) s = []
  | y :: o' =>
      y = nl
      /\ (starts_with_marker (skip_spaces o')
          \/ exists s', drop_while (not_char nl) s = nl :: s' /\ related s' o')
  end.
Proof.
  intros H. induction H as [|c s' o' H IH|ws s' o' S N H IH Hi].
  - reflexivity.
  - cbn [drop_while]. destruct (not_char nl c) eqn:E; [assumption|].
    apply not_char_false in E. subst c. split; [reflexivity|]. right.
    now exists s'.
  - change (drop_while (not_char nl)
              (T ")]" ++ nl :: derive_marker_line ++ nl :: o'))
      with (nl :: derive_marker_line ++ nl :: o').
    split; [reflexivity|]. left. now exists (nl :: o').
Qed.

Lemma p_doc_related s o :
  related s o ->
  match p_doc o with
  | Some o1 =>
      starts_with_marker o1
      \/ exists s1, p_doc s = Some s1 /\ related s1 o1
  | None => p_doc s = None
  end.
Proof.
  intros H. unfold p_doc.
  pose proof (after_lit_related (T "///") s o eq_refl H) as A.
  destruct (after_lit (T "///") s) as [s1|], (after_lit (T "///") o) as [o1|];
    try exact A; try contradiction; [|reflexivity].
  cbn [rel_opt] in A. pose proof (to_newline_related s1 o1 A) as B.
  unfold close_with.
  destruct (drop_while (not_char nl) o1) as [|y o'].
  - now rewrite B.
  - destruct B as [-> [B|(s' & -> & B)]]; rewrite Ascii.eqb_refl.
    + now left.
    + right. exists (skip_spaces s').
      split; [reflexivity|]. now apply skip_spaces_related.
Qed.

End RelatedParsers.

Section RelatedChains.

Lemma skip_attrs_stop t : p_attr t = None -> skip_attrs t = t.
Proof. intros H. unfold skip_attrs. now apply many_stops. Qed.

Lemma skip_docs_stop t : p_doc t = None -> skip_docs t = t.
Proof. intros H. unfold skip_docs. now apply many_stops. Qed.

Lemma skip_pre_attrs_stop t : p_pre_attr t = None -> skip_pre_attrs t = t.
Proof. intros H. unfold skip_pre_attrs. now apply many_stops. Qed.

Lemma at_marker_step s o :
  at_marker s o ->
  exists o0,
    o = derive_marker_line ++ nl :: o0
    /\ p_attr o = Some o0 /\ p_derive o = Some o0 /\ p_pre_attr o = None
    /\ related s o0 /\ inserted_before s o0 /\ nsp s.
Proof.
  intros (o0 & -> & N & H & Hi). exists o0.
  pose proof (related_nsp s o0 H N) as No.
  split; [reflexivity|].
  split; [exact (p_attr_marker [nl] o0 eq_refl No)|].
  split; [exact (p_derive_marker [nl] o0 eq_refl No)|].
  split; [reflexivity|]. now split.
Qed.

Lemma related_m_nil s : related_m s [] -> s = [].
Proof.
  intros [H|(o0 & E & _)].
  - destruct (related_first s [] H) as [[-> _]|(c & s' & o' & _ & E)];
      [reflexivity|discriminate].
  - discriminate.
Qed.

Lemma skip_attrs_related n : forall s o,
  length o <= n -> related_m s o -> related (skip_attrs s) (skip_attrs o).
Proof.
  induction n as [|n IH]; intros s o L H.
  - destruct o; [|simpl in L; lia]. apply related_m_nil in H. subst.
    constructor.
  - destruct H as [H|H].
    + pose proof (p_attr_related s o H) as A.
      destruct (p_attr s) as [s1|] eqn:Es, (p_attr o) as [o1|] eqn:Eo;
        try contradiction.
      * rewrite (skip_attrs_step _ _ Es), (skip_attrs_step _ _ Eo).
        apply IH; [|exact A]. apply p_attr_decreases in Eo. lia.
      * now rewrite (skip_attrs_stop _ Es), (skip_attrs_stop _ Eo).
    + destruct (at_marker_step s o H) as (o0 & E & A & _ & _ & R & _).
      rewrite (skip_attrs_step _ _ A). apply IH; [|now left].
      apply p_attr_decreases in A. lia.
Qed.

Lemma marker_not_doc o : starts_with_marker o -> p_doc o = None /\ p_header o = None.
Proof.
  intros [o' ->]. split.
  - apply (@p_doc_not_first _ (ch "#") (T "[derive(utoipa::ToSchema)]" ++ o'));
      [reflexivity|discriminate].
  - apply (@p_header_not_first _ (ch "#")
             (T "[derive(utoipa::ToSchema)]" ++ o'));
      [reflexivity|discriminate].
Qed.

Lemma docs_header_back n : forall s o,
  length o <= n -> related s o ->
  p_header (skip_docs o) <> None -> p_header (skip_docs s) <> None.
Proof.
  induction n as [|n IH]; intros s o L H.
  - destruct o; [|simpl in L; lia]. intros F. now destruct F.
  - pose proof (p_doc_related s o H) as A.
    destruct (p_doc o) as [o1|] eqn:Eo.
    + rewrite (skip_docs_step _ _ Eo). destruct A as [A|(s1 & Es & A)].
      * destruct (marker_not_doc o1 A) as [D Hd].
        rewrite (skip_docs_stop _ D), Hd. intros F. now destruct F.
      * rewrite (skip_docs_step _ _ Es). apply IH; [|exact A].
        apply p_doc_decreases in Eo. lia.
    + rewrite (skip_docs_stop _ Eo), (skip_docs_stop _ A).
      pose proof (p_header_related s o H) as B.
      destruct (p_header s), (p_header o); try contradiction;
        try discriminate; tauto.
Qed.

Lemma tail_back s o : related_m s o -> p_tail o <> None -> p_tail s <> None.
Proof.
  intros H. unfold p_tail.
  apply (docs_header_back (length (skip_attrs o))); [lia|].
  now apply (skip_attrs_related (length o)).
Qed.

Lemma p_derives_step t t1 :
  p_derive t = Some t1 -> p_derives (length t) t = best (length t1) t1.
Proof.
  intros E. assert (L := E). apply p_derive_decreases in L.
  destruct t as [|c t]; [simpl in L; lia|]. cbn [length].
  rewrite p_derives_S, E. apply best_fuel; simpl in L; lia.
Qed.

Lemma p_derives_stop t : p_derive t = None -> p_derives (length t) t = None.
Proof. apply p_derives_none. Qed.

Lemma best_back n : forall s o,
  length o <= n -> related_m s o ->
  best (length o) o <> None -> best (length s) s <> None.
Proof.
  induction n as [|n IH]; intros s o L H.
  - destruct o; [|simpl in L; lia]. apply related_m_nil in H. now subst.
  - intros B. destruct (p_tail o) eqn:To.
    { apply best_of_tail. apply (tail_back s o H). congruence. }
    unfold best in B. rewrite To in B.
    destruct (p_derive o) as [o1|] eqn:Eo;
      [|rewrite (p_derives_stop _ Eo) in B; congruence].
    rewrite (p_derives_step _ _ Eo) in B.
    assert (B1 : best (length o1) o1 <> None)
      by (destruct (best (length o1) o1); congruence).
    assert (Lo : length o1 <= n) by (apply p_derive_decreases in Eo; lia).
    destruct H as [H|H].
    + pose proof (p_derive_related s o H) as A. rewrite Eo in A.
      destruct (p_derive s) as [s1|] eqn:Es; [|contradiction].
      pose proof (IH s1 o1 Lo A B1) as B2.
      unfold best at 1. rewrite (p_derives_step _ _ Es).
      destruct (best (length s1) s1); congruence.
    + destruct (at_marker_step s o H) as (o0 & E & _ & D & _ & R & _).
      rewrite Eo in D. inversion D. subst o0.
      apply (IH s o1 Lo); [now left|exact B1].
Qed.

(** No derive line can be taken in [o] where none could be taken in [s]. *)
Lemma derives_back s o :
  related s o ->
  p_derives (length s) s = None -> p_derives (length o) o = None.
Proof.
  intros H Ns. destruct (p_derive o) as [o1|] eqn:Eo;
    [|now apply p_derives_stop].
  rewrite (p_derives_step _ _ Eo).
  pose proof (p_derive_related s o H) as A. rewrite Eo in A.
  destruct (p_derive s) as [s1|] eqn:Es; [|contradiction].
  rewrite (p_derives_step _ _ Es) in Ns.
  destruct (best (length o1) o1) eqn:B; [|reflexivity].
  destruct (best_back (length o1) s1 o1 (le_n _) A); congruence.
Qed.

Lemma skip_pre_attrs_related n : forall s o,
  length o <= n -> related s o ->
  related (skip_pre_attrs s) (skip_pre_attrs o)
  \/ exists x sk, s = x ++ sk /\ at_marker sk (skip_pre_attrs o).
Proof.
  induction n as [|n IH]; intros s o L H.
  - destruct o; [|simpl in L; lia].
    destruct (related_first s [] H) as [[-> _]|(c & s' & o' & _ & E)];
      [|discriminate]. left. constructor.
  - pose proof (p_pre_attr_related s o H) as A.
    destruct (p_pre_attr s) as [s1|] eqn:Es, (p_pre_attr o) as [o1|] eqn:Eo;
      try contradiction.
    + rewrite (skip_pre_attrs_step _ _ Es), (skip_pre_attrs_step _ _ Eo).
      destruct (p_pre_attr_splits _ Es) as [x1 E1].
      destruct A as [A|A].
      * destruct (IH s1 o1) as [R|(x & sk & E & R)];
          [apply p_pre_attr_decreases in Eo; lia|exact A|now left|].
        right. exists (x1 ++ x), sk. split; [|exact R].
        rewrite E1, E. list_eq.
      * right. exists x1, s1. split; [exact E1|].
        destruct (at_marker_step s1 o1 A) as (o0 & _ & _ & _ & P & _).
        now rewrite (skip_pre_attrs_stop _ P).
    + left. now rewrite (skip_pre_attrs_stop _ Es), (skip_pre_attrs_stop _ Eo).
Qed.

End RelatedChains.

(** ** The image of a pass *)

Section Image.

Lemma derives_parts dl :
  pieces derive_core dl -> dl <> [] ->
  exists l0 b ws y,
    dl = l0 ++ b ++ ws /\ pieces derive_core l0 /\ derive_core b
    /\ all_space ws /\ l0 ++ b = y ++ T ")]" /\ rstrip dl = l0 ++ b.
Proof.
  intros P N.
  destruct (pieces_last derive_core dl P N)
    as (l0 & b & ws & -> & P0 & C & S).
  assert (C' := C). destruct C' as (c & x & Eb & _).
  exists l0, b, ws, (l0 ++ T "#[derive(" ++ c :: x).
  split; [reflexivity|]. split; [assumption|]. split; [assumption|].
  split; [assumption|]. split; [rewrite Eb; list_eq|]. rewrite Eb.
  replace (l0 ++ (T "#[derive(" ++ c :: x ++ T ")]") ++ ws)
    with ((l0 ++ T "#[derive(" ++ c :: x ++ [ch ")"]) ++ ch "]" :: ws)
    by list_eq.
  rewrite rstrip_app by (reflexivity || assumption). list_eq.
Qed.

(** The parts of a match the callback annotates, and what it returns. *)
Lemma annotated_form s m :
  re_match s = Some m -> qualifies m = true ->
  exists pre l0 b ws y other docs k nm,
    is_match s m pre (l0 ++ b ++ ws) other docs k nm
    /\ pieces derive_core l0 /\ derive_core b /\ all_space ws
    /\ l0 ++ b = y ++ T ")]"
    /\ add_separate_derive m =
       pre ++ (l0 ++ b) ++ [nl] ++ derive_marker_line ++ [nl]
       ++ other ++ docs ++ k ++ nm.
Proof.
  intros M Q.
  destruct (re_match_is_match s m M) as (pre & dl & other & docs & k & nm & I).
  destruct (is_match_groups _ _ _ _ _ _ _ _ I)
    as (G1 & G2 & G3 & G4 & G5 & G6).
  assert (I' := I). destruct I' as (_ & _ & _ & _ & Pd & Nd & _).
  destruct (derives_parts dl Pd Nd) as (l0 & b & ws & y & -> & P0 & C & S & Ey & R).
  exists pre, l0, b, ws, y, other, docs, k, nm.
  repeat (split; [assumption|]).
  rewrite add_separate_derive_cases, Q. unfold annotated.
  now rewrite G1, G2, G3, G4, G5, R.
Qed.

Lemma image_related s o : image s o -> related s o.
Proof.
  intros H. induction H as [|c s o N H IH|s m o M H IH].
  - constructor.
  - now constructor.
  - destruct (qualifies m) eqn:Q.
    + destruct (annotated_form s m M Q)
        as (pre & l0 & b & ws & y & other & docs & k & nm & I & P0 & C & S
            & Ey & A).
      destruct I as (E & W & G & Pp & Pd & Nd & Po & Pc & K & N & Nt & Mx).
      assert (Es : s = (pre ++ y) ++ T ")]" ++ ws
                       ++ (other ++ docs ++ k ++ nm ++ m_after m)).
      { rewrite E.
        replace (l0 ++ b ++ ws) with ((l0 ++ b) ++ ws) by list_eq.
        rewrite Ey. list_eq. }
      assert (Eo : add_separate_derive m ++ o
                   = (pre ++ y) ++ T ")]" ++ nl :: derive_marker_line
                     ++ nl :: (other ++ docs ++ k ++ nm ++ o)).
      { rewrite A, Ey. list_eq. }
      rewrite Eo. rewrite Es at 1.
      apply related_app. apply related_ins.
      * assumption.
      * now apply tail_nsp.
      * replace (other ++ docs ++ k ++ nm ++ m_after m)
          with ((other ++ docs ++ k ++ nm) ++ m_after m) by list_eq.
        replace (other ++ docs ++ k ++ nm ++ o)
          with ((other ++ docs ++ k ++ nm) ++ o) by list_eq.
        now apply related_app.
      * exists other, docs, k, nm, (m_after m), o.
        repeat split; try assumption; apply N.
    + rewrite add_separate_derive_cases, Q.
      rewrite (re_match_whole s m M) at 1. now apply related_app.
Qed.

Lemma image_re_sub n : forall s, length s <= n -> image s (re_sub s).
Proof.
  induction n as [|n IH]; intros s L.
  - destruct s; [|simpl in L; lia]. constructor.
  - rewrite re_sub_step. destruct (re_match s) as [m|] eqn:M.
    + apply image_match; [assumption|]. apply IH.
      pose proof (re_match_shorter s m M). lia.
    + destruct s as [|c s]; [constructor|].
      apply image_char; [assumption|]. apply IH. simpl in L. lia.
Qed.

(** ** The body after a pass *)

Lemma related_loosely s o : related s o -> loosely s o.
Proof.
  intros H. induction H as [|c s o H IH|ws s o S N H IH Hi].
  - constructor.
  - now constructor.
  - change (T ")]") with [ch ")"; ch "]"]. cbn [app].
    apply loosely_copy. now apply loosely_ins.
Qed.

Lemma loosely_app a a' b b' :
  loosely a a' -> loosely b b' -> loosely (a ++ b) (a' ++ b').
Proof.
  intros H Hb. induction H as [|c s o H IH|ws s o S H IH].
  - assumption.
  - cbn [app]. now constructor.
  - replace ((ch "]" :: ws ++ s) ++ b) with (ch "]" :: ws ++ (s ++ b))
      by list_eq.
    replace ((ch "]" :: nl :: derive_marker_line ++ nl :: o) ++ b')
      with (ch "]" :: nl :: derive_marker_line ++ nl :: (o ++ b'))
      by list_eq.
    now constructor.
Qed.

Lemma loosely_refl a : loosely a a.
Proof. induction a; now constructor. Qed.

(** The loop over a text without braces only collects. *)
Lemma body_loop_no_brace x : forall s acc bc b,
  forallb (fun c => negb (Ascii.eqb c (ch "{")) && negb (Ascii.eqb c (ch "}")))
    x = true ->
  body_loop (x ++ s) acc bc b
  = body_loop s (if b then acc ++ x else acc) bc b.
Proof.
  induction x as [|c x IH]; intros s acc bc b A.
  - cbn [app]. destruct b; [now rewrite app_nil_r|reflexivity].
  - cbn [forallb] in A. apply andb_true_iff in A. destruct A as [A1 A2].
    apply andb_true_iff in A1. destruct A1 as [A0 A1].
    apply negb_true_iff in A0, A1. cbn [app body_loop]. rewrite A0, A1.
    rewrite IH by assumption. destruct b; [|reflexivity].
    f_equal. list_eq.
Qed.

Lemma all_space_no_brace ws :
  all_space ws ->
  forallb (fun c => negb (Ascii.eqb c (ch "{")) && negb (Ascii.eqb c (ch "}")))
    ws = true.
Proof.
  unfold all_space. induction ws as [|c ws IH]; [reflexivity|].
  cbn [forallb]. intros A. apply andb_true_iff in A. destruct A as [A1 A2].
  rewrite IH by assumption. rewrite andb_true_r.
  destruct (Ascii.eqb c (ch "{")) eqn:E1.
  { apply Ascii.eqb_eq in E1. subst c. discriminate A1. }
  destruct (Ascii.eqb c (ch "}")) eqn:E2; [|reflexivity].
  apply Ascii.eqb_eq in E2. subst c. discriminate A1.
Qed.

Lemma body_loop_loosely s o :
  loosely s o ->
  forall acc acc' bc b,
    loosely acc acc' ->
    loosely (body_loop s acc bc b) (body_loop o acc' bc b).
Proof.
  intros H. induction H as [|c s o H IH|ws s o S H IH]; intros acc acc' bc b A.
  - exact A.
  - cbn [body_loop]. destruct (Ascii.eqb c (ch "{")).
    + apply IH. apply loosely_app; [assumption|apply loosely_refl].
    + destruct (Ascii.eqb c (ch "}")).
      * cbn zeta. destruct ((bc - 1 =? 0)%Z && b); [assumption|].
        apply IH. destruct b; [|assumption].
        apply loosely_app; [assumption|apply loosely_refl].
      * apply IH. destruct b; [|assumption].
        apply loosely_app; [assumption|apply loosely_refl].
  - replace (ch "]" :: ws ++ s) with ((ch "]" :: ws) ++ s) by list_eq.
    replace (ch "]" :: nl :: derive_marker_line ++ nl :: o)
      with ((ch "]" :: nl :: derive_marker_line ++ [nl]) ++ o) by list_eq.
    rewrite (body_loop_no_brace (ch "]" :: ws))
      by (cbn [forallb]; now rewrite all_space_no_brace).
    rewrite (body_loop_no_brace (ch "]" :: nl :: derive_marker_line ++ [nl]))
      by reflexivity.
    apply IH. destruct b; [|assumption].
    apply loosely_app; [assumption|].
    replace (ch "]" :: ws) with (ch "]" :: ws ++ []) by now rewrite app_nil_r.
    replace (ch "]" :: nl :: derive_marker_line ++ [nl])
      with (ch "]" :: nl :: derive_marker_line ++ nl :: []) by list_eq.
    apply loosely_ins; [assumption|constructor].
Qed.

End Image.

Section BodyStable.

Lemma starts_with_loosely q : forall a a',
  loosely a a' -> plain q = true ->
  starts_with q a = true -> starts_with q a' = true.
Proof.
  induction q as [|k q IH]; intros a a' H P S; [reflexivity|].
  unfold plain in P. cbn [forallb] in P. apply andb_true_iff in P.
  destruct P as [P1 P2]. apply andb_true_iff in P1. destruct P1 as [_ P1].
  apply negb_true_iff in P1.
  destruct H as [|c s o H|ws s o A H]; cbn [starts_with] in *.
  - discriminate.
  - apply andb_true_iff in S. destruct S as [S1 S2]. rewrite S1.
    now apply (IH s o).
  - rewrite P1 in S. discriminate.
Qed.

Lemma contains_after_spaces p ws s :
  plain p = true -> p <> [] -> all_space ws ->
  contains p (ws ++ s) = true -> contains p s = true.
Proof.
  intros P N A. destruct p as [|k p]; [congruence|].
  unfold plain in P. cbn [forallb] in P. apply andb_true_iff in P.
  destruct P as [P1 _]. apply andb_true_iff in P1. destruct P1 as [P1 _].
  apply negb_true_iff in P1.
  unfold all_space in A. induction ws as [|w ws IH]; [trivial|].
  cbn [forallb] in A. apply andb_true_iff in A. destruct A as [A1 A2].
  cbn [app contains starts_with]. destruct (Ascii.eqb k w) eqn:E.
  - apply Ascii.eqb_eq in E. subst w. congruence.
  - cbn [andb orb]. now apply IH.
Qed.

Lemma contains_loosely p a a' :
  plain p = true -> p <> [] -> loosely a a' ->
  contains p a = true -> contains p a' = true.
Proof.
  intros P N H. induction H as [|c s o H IH|ws s o A H IH]; intros C.
  - assumption.
  - cbn [contains] in *. apply orb_true_iff in C. destruct C as [C|C].
    + rewrite (starts_with_loosely p (c :: s) (c :: o)); auto.
      now constructor.
    + rewrite IH by assumption. apply orb_true_r.
  - cbn [contains] in C. apply orb_true_iff in C. destruct C as [C|C].
    + destruct p as [|k p]; [congruence|]. cbn [starts_with] in C.
      unfold plain in P. cbn [forallb] in P. apply andb_true_iff in P.
      destruct P as [P1 _]. apply andb_true_iff in P1. destruct P1 as [_ P1].
      apply negb_true_iff in P1. rewrite P1 in C. discriminate.
    + apply (contains_after_spaces p ws s P N A) in C.
      replace (ch "]" :: nl :: derive_marker_line ++ nl :: o)
        with ((ch "]" :: nl :: derive_marker_line ++ [nl]) ++ o) by list_eq.
      apply contains_app. now apply IH.
Qed.

Lemma problematic_plain p :
  In p problematic_types -> plain p = true /\ p <> [].
Proof.
  intros H.
  assert (A : forallb (fun q => plain q && negb (text_eqb q []))
                problematic_types = true) by reflexivity.
  rewrite forallb_forall in A. specialize (A p H).
  apply andb_true_iff in A. destruct A as [A1 A2]. split; [assumption|].
  intros ->. discriminate.
Qed.

(** A body that excludes a declaration still excludes it after a pass. *)
Lemma body_stable s o :
  related s o ->
  any_problematic (extract_body s) = true ->
  any_problematic (extract_body o) = true.
Proof.
  intros H B. apply any_problematic_spec in B. destruct B as (p & I & C).
  apply any_problematic_spec. exists p. split; [assumption|].
  destruct (problematic_plain p I) as [P N].
  apply (contains_loosely p (extract_body s)); try assumption.
  unfold extract_body. apply body_loop_loosely; [|constructor].
  now apply related_loosely.
Qed.

End BodyStable.

(** ** The second pass *)

Section SecondPass.

Lemma marker_in_line : contains marker derive_marker_line = true.
Proof. reflexivity. Qed.

Lemma not_qualifies_marker m :
  contains marker (rstrip (group m 2)) = true -> qualifies m = false.
Proof. intros H. unfold qualifies. now rewrite H. Qed.

Lemma piece_marker : piece derive_core (derive_marker_line ++ [nl]).
Proof.
  exists derive_marker_line, [nl]. split; [reflexivity|].
  split; [apply marker_derive_core|reflexivity].
Qed.

(** The tail of a match is read in the same way when what follows it has
    been through the pass. *)
Lemma tail_after_pass other docs k nm after o :
  image after o -> nw after ->
  p_derives (length (other ++ docs ++ k ++ nm ++ after))
    (other ++ docs ++ k ++ nm ++ after) = None ->
  nw o
  /\ p_derives (length (other ++ docs ++ k ++ nm ++ o))
       (other ++ docs ++ k ++ nm ++ o) = None.
Proof.
  intros H Nt Mx. pose proof (image_related after o H) as R.
  split; [now apply (related_nw after o)|].
  apply (derives_back (other ++ docs ++ k ++ nm ++ after)); [|assumption].
  replace (other ++ docs ++ k ++ nm ++ after)
    with ((other ++ docs ++ k ++ nm) ++ after) by list_eq.
  replace (other ++ docs ++ k ++ nm ++ o)
    with ((other ++ docs ++ k ++ nm) ++ o) by list_eq.
  now apply related_app.
Qed.

(** Where the first pass found a match, the second pass finds one that
    ends at the same place, and leaves it as it is. *)
Lemma second_pass_match s m o :
  re_match s = Some m -> image (m_after m) o ->
  exists m2,
    re_match (add_separate_derive m ++ o) = Some m2
    /\ m_after m2 = o /\ add_separate_derive m2 = m_whole m2.
Proof.
  intros M H. destruct (qualifies m) eqn:Q.
  - destruct (annotated_form s m M Q)
      as (pre & l0 & b & ws & y & other & docs & k & nm & I & P0 & C & S
          & Ey & A).
    destruct I as (E & W & G & Pp & Pd & Nd & Po & Pc & K & N & Nt & Mx).
    destruct (tail_after_pass other docs k nm (m_after m) o H Nt Mx)
      as [No Mo].
    set (dl2 := (l0 ++ b ++ [nl]) ++ derive_marker_line ++ [nl]).
    set (m2 := RMatch (add_separate_derive m)
                 [(5, k ++ nm); (6, nm); (4, docs); (3, other); (2, dl2);
                  (1, pre)] o).
    exists m2. split; [|split; [reflexivity|]].
    + apply (is_match_re_match _ m2 pre dl2 other docs k nm).
      unfold is_match, m2, dl2. cbn [m_whole m_groups m_after].
      split; [rewrite A; list_eq|]. split; [rewrite A; list_eq|].
      split; [reflexivity|]. split; [assumption|].
      split.
      { apply pieces_app.
        - apply pieces_app; [assumption|].
          rewrite <- (app_nil_r (b ++ [nl])). constructor; [|constructor].
          exists b, [nl]. now repeat split.
        - rewrite <- (app_nil_r (derive_marker_line ++ [nl])).
          constructor; [apply piece_marker|constructor]. }
      split.
      { intros F. apply app_eq_nil in F. destruct F as [_ F]. discriminate F. }
      repeat split; try assumption; apply N.
    + rewrite add_separate_derive_cases.
      rewrite not_qualifies_marker; [reflexivity|].
      unfold group, m2, dl2. cbn [m_groups group_of Nat.eqb].
      replace ((l0 ++ b ++ [nl]) ++ derive_marker_line ++ [nl])
        with ((l0 ++ b ++ [nl] ++ T "#[derive(utoipa::ToSchema)")
              ++ ch "]" :: [nl]) by list_eq.
      rewrite rstrip_app by reflexivity.
      replace ((l0 ++ b ++ [nl] ++ T "#[derive(utoipa::ToSchema)") ++ [ch "]"])
        with ((l0 ++ b ++ [nl]) ++ derive_marker_line) by list_eq.
      apply contains_app, marker_in_line.
  - destruct (re_match_is_match s m M)
      as (pre & dl & other & docs & k & nm & I).
    destruct (is_match_groups _ _ _ _ _ _ _ _ I)
      as (G1 & G2 & G3 & G4 & G5 & G6).
    destruct I as (E & W & G & Pp & Pd & Nd & Po & Pc & K & N & Nt & Mx).
    destruct (tail_after_pass other docs k nm (m_after m) o H Nt Mx)
      as [No Mo].
    rewrite add_separate_derive_cases, Q.
    set (m2 := RMatch (m_whole m) (m_groups m) o).
    exists m2. split; [|split; [reflexivity|]].
    + apply (is_match_re_match _ m2 pre dl other docs k nm).
      unfold is_match, m2. cbn [m_whole m_groups m_after].
      split; [rewrite W; list_eq|].
      repeat split; try assumption; apply N.
    + rewrite add_separate_derive_cases.
      replace (qualifies m2) with false; [reflexivity|]. symmetry.
      unfold qualifies in *. unfold m2, group in *.
      cbn [m_groups m_after] in *.
      apply andb_false_iff in Q. destruct Q as [Q|Q].
      * apply andb_false_iff in Q.
        destruct Q as [Q|Q]; rewrite Q, ?andb_false_r; reflexivity.
      * apply negb_false_iff in Q.
        rewrite (body_stable (m_after m) o (image_related _ _ H) Q).
        apply andb_false_r.
Qed.

Lemma no_match_no_derives s :
  re_match s = None ->
  p_derives (length (skip_pre_attrs s)) (skip_pre_attrs s) = None.
Proof.
  rewrite re_match_spec. unfold match_spec.
  destruct (p_derives (length (skip_pre_attrs s)) (skip_pre_attrs s))
    as [s2|] eqn:D; [|reflexivity].
  destruct (p_derives_maximal _ _ _ (le_n _) D) as [_ Tl].
  unfold p_tail in Tl.
  destruct (p_header (skip_docs (skip_attrs s2))) eqn:Hd; [|congruence].
  destruct (p_keyword (skip_docs (skip_attrs s2))) eqn:Kw; [discriminate|].
  rewrite (p_header_keyword _ Kw) in Hd. discriminate.
Qed.

(** A match the second pass finds where the first pass found none starts
    before an annotation line of the first pass, has that line as its only
    derive line, and ends where the match of the first pass ended. *)
Lemma second_pass_gap c s o m2 :
  re_match (c :: s) = None -> image s o ->
  re_match (c :: o) = Some m2 ->
  add_separate_derive m2 = m_whole m2
  /\ exists s' o', image s' o' /\ length s' < length (c :: s)
                   /\ m_after m2 = o'.
Proof.
  intros Ns H M2.
  assert (R : related (c :: s) (c :: o))
    by (constructor; now apply image_related).
  destruct (re_match_parts _ M2)
    as (pre2 & dl2 & other2 & docs2 & k2 & nm2 & _ & _ & _ & S1 & D2 & _).
  destruct (skip_pre_attrs_related (length (c :: o)) _ _ (le_n _) R)
    as [R1|(x & sk & Ex & R1)].
  - pose proof (derives_back _ _ R1 (no_match_no_derives _ Ns)) as F.
    congruence.
  - destruct (at_marker_step _ _ R1)
      as (o0 & E1 & _ & _ & _ & R0 & Hi & Nk).
    destruct Hi as (other & docs & k & nm & after & o' & Es & Eo & Po & Pc
                    & K & N & Nt & Mx & Hi).
    destruct (skip_pre_attrs_shape (c :: o)) as (pre & Ep & Pp).
    assert (Mo : p_derives (length o0) o0 = None)
      by (apply (derives_back sk); assumption).
    pose proof (related_nw _ _ (image_related _ _ Hi) Nt) as No.
    set (dl := derive_marker_line ++ [nl]).
    set (m := RMatch (pre ++ dl ++ other ++ docs ++ k ++ nm)
                [(5, k ++ nm); (6, nm); (4, docs); (3, other); (2, dl);
                 (1, pre)] o').
    assert (M : re_match (c :: o) = Some m).
    { apply (is_match_re_match _ m pre dl other docs k nm).
      unfold is_match, m, dl. cbn [m_whole m_groups m_after].
      split; [rewrite Ep, E1, Eo; list_eq|]. split; [reflexivity|].
      split; [reflexivity|]. split; [assumption|].
      split.
      { rewrite <- (app_nil_r (derive_marker_line ++ [nl])).
        constructor; [apply piece_marker|constructor]. }
      split; [discriminate|]. rewrite <- Eo.
      repeat split; try assumption; apply N. }
    rewrite M in M2. inversion M2. subst m2. split.
    + rewrite add_separate_derive_cases.
      now rewrite not_qualifies_marker.
    + exists after, o'. split; [assumption|]. split; [|reflexivity].
      rewrite Ex, Es, !length_app. destruct K as [-> | ->]; simpl; lia.
Qed.

Lemma image_fixed n : forall s o,
  length s <= n -> image s o -> re_sub o = o.
Proof.
  induction n as [|n IH]; intros s o L H.
  - destruct H as [|c s o N H|s m o M H]; [reflexivity|simpl in L; lia|].
    pose proof (re_match_shorter s m M). lia.
  - destruct H as [|c s o N H|s m o M H].
    + reflexivity.
    + rewrite re_sub_step. destruct (re_match (c :: o)) as [m2|] eqn:M2.
      * destruct (second_pass_gap c s o m2 N H M2)
          as (A & s' & o' & H' & L' & E').
        rewrite A, E', (IH s' o') by (assumption || lia).
        rewrite <- E'. symmetry. now apply re_match_whole.
      * f_equal. apply (IH s); [simpl in L; lia|assumption].
    + destruct (second_pass_match s m o M H) as (m2 & M2 & E2 & A2).
      rewrite re_sub_step, M2, A2, E2.
      pose proof (re_match_shorter s m M) as Lm.
      rewrite (IH (m_after m) o) by (assumption || lia).
      rewrite <- E2 at 1. symmetry. now apply re_match_whole.
Qed.

End SecondPass.

Lemma re_sub_idempotent content : re_sub (re_sub content) = re_sub content.
Proof.
  apply (image_fixed (length content) content); [lia|].
  now apply (image_re_sub (length content)).
Qed.

(** C1.  Idempotence: a second pass over the result of a pass gives that
    result again and reports no change; and a match whose derive lines
    already contain [utoipa::ToSchema] is given back as it was matched. *)
Theorem annotate_idempotent :
  (forall content : text,
     annotate (fst (annotate content)) = (fst (annotate content), false))
  /\ (forall m : rmatch,
        contains marker (rstrip (group m 2)) = true ->
        add_separate_derive m = m_whole m).
Proof.
  split.
  - intros content. apply annotate_unchanged. cbn [annotate fst].
    apply re_sub_idempotent.
  - intros m H. rewrite add_separate_derive_cases.
    now rewrite not_qualifies_marker.
Qed.

Lemma annotate_idempotent_witness :
  annotate (fst (annotate (lines ["#[derive(Debug, Clone)]"%string;
                                  "pub struct Foo { bar: String }"%string])))
  = (lines ["#[derive(Debug, Clone)]"%string;
            "#[derive(utoipa::ToSchema)]"%string;
            "pub struct Foo { bar: String }"%string], false)
  /\ exists m,
       re_match (lines ["#[derive(Debug, Clone)]"%string;
                        "#[derive(utoipa::ToSchema)]"%string;
                        "pub struct Foo { bar: String }"%string]) = Some m
       /\ add_separate_derive m = m_whole m.
Proof.
  split.
  - exact (proj1 annotate_idempotent
             (lines ["#[derive(Debug, Clone)]"%string;
                     "pub struct Foo { bar: String }"%string])).
  - eexists. split; [vm_compute; reflexivity|].
    apply (proj2 annotate_idempotent). vm_compute. reflexivity.
Defined.

(** ** The pattern and the callback, further properties *)

(** X8.  What the pattern matches at a position: the match exists exactly
    when the text there is attributes that are not derive lines, then one
    or more derive lines, then other attributes, then documentation lines,
    then [pub struct ] or [pub enum ] and a name which the next character
    does not continue, the derive lines being as many as can be taken with
    the rest still of that form; the groups are these parts. *)
Theorem pattern_matches_exactly s m :
  re_match s = Some m
  <-> exists pre dl other docs k nm, is_match s m pre dl other docs k nm.
Proof.
  split.
  - apply re_match_is_match.
  - intros (pre & dl & other & docs & k & nm & H).
    exact (is_match_re_match _ _ _ _ _ _ _ _ H).
Qed.

(** X9.  The name the callback compares with [types_to_skip] is the whole
    identifier of the declaration: it follows [pub struct ] or [pub enum ],
    it is not empty, it has word characters only, it ends the match, and
    the text after it does not start with a word character. *)
Theorem name_is_the_whole_identifier s m :
  re_match s = Some m ->
  exists before k,
    s = before ++ k ++ group m 6 ++ m_after m
    /\ m_whole m = before ++ k ++ group m 6
    /\ (k = T "pub struct " \/ k = T "pub enum ")
    /\ group m 6 <> []
    /\ forallb is_word (group m 6) = true
    /\ nw (m_after m).
Proof.
  intros H.
  destruct (re_match_is_match s m H) as (pre & dl & other & docs & k & nm & M).
  destruct (is_match_groups _ _ _ _ _ _ _ _ M) as (_ & _ & _ & _ & _ & G6).
  destruct M as (E & W & _ & _ & _ & _ & _ & _ & K & [N1 N2] & Nt & _).
  exists (pre ++ dl ++ other ++ docs), k. rewrite G6.
  split; [rewrite E; list_eq|]. split; [rewrite W; list_eq|].
  repeat split; assumption.
Qed.

Lemma name_is_the_whole_identifier_witness :
  exists m,
    re_match (lines ["#[derive(Debug)]"%string;
                     "pub struct ImageUrl { url: String }"%string]) = Some m
    /\ group m 6 = T "ImageUrl"
    /\ exists before k,
         lines ["#[derive(Debug)]"%string;
                "pub struct ImageUrl { url: String }"%string]
         = before ++ k ++ group m 6 ++ m_after m
         /\ m_whole m = before ++ k ++ group m 6
         /\ (k = T "pub struct " \/ k = T "pub enum ")
         /\ group m 6 <> []
         /\ forallb is_word (group m 6) = true
         /\ nw (m_after m).
Proof.
  eexists. split; [vm_compute; reflexivity|]. split; [reflexivity|].
  apply (name_is_the_whole_identifier
           (lines ["#[derive(Debug)]"%string;
                   "pub struct ImageUrl { url: String }"%string])).
  vm_compute. reflexivity.
Defined.

Section Marker.

(** A text is white space, or ends with a character that is not white
    space and white space after it. *)
Lemma last_no_space b :
  all_space b
  \/ exists x c ws, b = x ++ c :: ws /\ is_space c = false /\ all_space ws.
Proof.
  unfold all_space. induction b as [|c b IH]; [now left|].
  destruct IH as [A|(x & d & ws & -> & Nd & A)].
  - destruct (is_space c) eqn:S.
    + left. cbn [forallb]. now rewrite S.
    + right. now exists [], c, b.
  - right. now exists (c :: x), d, ws.
Qed.

Lemma contains_middle p a b : contains p (a ++ p ++ b) = true.
Proof. apply contains_spec. now exists a, b. Qed.

(** [rstrip] keeps an occurrence of a text that does not end with white
    space. *)
Lemma contains_rstrip p c t :
  is_space c = false ->
  contains (p ++ [c]) t = true -> contains (p ++ [c]) (rstrip t) = true.
Proof.
  intros Nc H. apply contains_spec in H. destruct H as (a & b & ->).
  destruct (last_no_space b) as [A|(x & d & ws & -> & Nd & A)].
  - replace (a ++ (p ++ [c]) ++ b) with ((a ++ p) ++ c :: b) by list_eq.
    rewrite (rstrip_app _ _ _ Nc A).
    replace ((a ++ p) ++ [c]) with (a ++ (p ++ [c]) ++ []) by list_eq.
    apply contains_middle.
  - replace (a ++ (p ++ [c]) ++ x ++ d :: ws)
      with ((a ++ (p ++ [c]) ++ x) ++ d :: ws) by list_eq.
    rewrite (rstrip_app _ _ _ Nd A).
    replace ((a ++ (p ++ [c]) ++ x) ++ [d])
      with (a ++ (p ++ [c]) ++ (x ++ [d])) by list_eq.
    apply contains_middle.
Qed.

End Marker.

(** X10.  A candidate whose derive lines, any of them, already have
    [utoipa::ToSchema] is given back as it was matched, whatever its name
    and its body. *)
Theorem already_annotated_is_kept s m :
  re_match s = Some m ->
  contains marker (group m 2) = true ->
  add_separate_derive m = m_whole m
  /\ re_sub s = m_whole m ++ re_sub (m_after m).
Proof.
  intros M C.
  assert (A : add_separate_derive m = m_whole m).
  { rewrite add_separate_derive_cases. unfold qualifies.
    change marker with (T "utoipa::ToSchem" ++ [ch "a"]) in *.
    rewrite (contains_rstrip (T "utoipa::ToSchem") (ch "a") _ eq_refl C).
    reflexivity. }
  split; [exact A|]. rewrite re_sub_step, M, A. reflexivity.
Qed.

Lemma already_annotated_is_kept_witness :
  exists m,
    re_match (lines ["#[derive(Debug, utoipa::ToSchema)]"%string;
                     "#[derive(Clone)]"%string;
                     "pub struct Voice {}"%string]) = Some m
    /\ add_separate_derive m = m_whole m
    /\ re_sub (lines ["#[derive(Debug, utoipa::ToSchema)]"%string;
                      "#[derive(Clone)]"%string;
                      "pub struct Voice {}"%string])
       = m_whole m ++ re_sub (m_after m).
Proof.
  eexists. split; [vm_compute; reflexivity|].
  apply (already_annotated_is_kept
           (lines ["#[derive(Debug, utoipa::ToSchema)]"%string;
                   "#[derive(Clone)]"%string;
                   "pub struct Voice {}"%string]));
    vm_compute; reflexivity.
Defined.

(** *** What the pass does to the text as a whole *)

Section Kept.

Lemma count_cons c x t :
  count c (x :: t) = (if Ascii.eqb c x then 1 else 0) + count c t.
Proof. unfold count. cbn [filter]. now destruct (Ascii.eqb c x). Qed.

Lemma count_app c a b : count c (a ++ b) = count c a + count c b.
Proof. unfold count. now rewrite filter_app, length_app. Qed.

Lemma count_all_space c ws :
  is_space c = false -> all_space ws -> count c ws = 0.
Proof.
  unfold all_space. intros Nc. induction ws as [|x ws IH]; [reflexivity|].
  cbn [forallb]. intros A. apply andb_true_iff in A. destruct A as [Sx A].
  rewrite count_cons, (IH A).
  destruct (Ascii.eqb c x) eqn:E; [|reflexivity].
  apply Ascii.eqb_eq in E. congruence.
Qed.

Lemma count_not_in c t : ~ In c t -> count c t = 0.
Proof.
  induction t as [|x t IH]; [reflexivity|]. intros N.
  rewrite count_cons, IH; [|intros I; apply N; now right].
  destruct (Ascii.eqb c x) eqn:E; [|reflexivity].
  apply Ascii.eqb_eq in E. subst x. exfalso. apply N. now left.
Qed.

Lemma loosely_count s o c :
  loosely s o -> is_space c = false -> ~ In c derive_marker_line ->
  count c o = count c s.
Proof.
  intros H Nc Nm. induction H as [|x s o H IH|ws s o S H IH].
  - reflexivity.
  - now rewrite !count_cons, IH.
  - rewrite !count_cons, !count_app, !count_cons, IH.
    rewrite (count_all_space _ _ Nc S), (count_not_in _ _ Nm).
    replace (Ascii.eqb c nl) with false; [lia|].
    symmetry. apply Ascii.eqb_neq. intros ->. discriminate.
Qed.

Lemma loosely_marker s o :
  loosely s o -> o = s \/ contains derive_marker_line o = true.
Proof.
  intros H. induction H as [|x s o H IH|ws s o S H IH].
  - now left.
  - destruct IH as [->|C]; [now left|right].
    exact (contains_app _ [x] _ C).
  - right. apply contains_spec.
    exists [ch "]"; nl], (nl :: o). reflexivity.
Qed.

Lemma re_sub_loosely content : loosely content (re_sub content).
Proof.
  apply related_loosely, image_related.
  now apply (image_re_sub (length content)).
Qed.

End Kept.

(** X11.  All the pass does to a text is to replace, after some closing
    brackets, the white space there by a newline, the line
    [#[derive(utoipa::ToSchema)]] and a newline; every other character is
    copied, in order. *)
Theorem pass_only_inserts_lines content : loosely content (re_sub content).
Proof.
  assert (H : image content (re_sub content)).
  { apply (image_re_sub (length content)). apply Nat.le_refl. }
  apply image_related in H. now apply related_loosely.
Qed.

(** X12.  The pass keeps the number of occurrences of every character
    that is not white space and does not occur in the annotation line:
    braces, semicolons, commas and the like are neither added nor lost. *)
Theorem pass_keeps_other_characters content c :
  is_space c = false -> ~ In c derive_marker_line ->
  count c (re_sub content) = count c content.
Proof.
  intros Nc Nm. apply loosely_count; [apply re_sub_loosely|assumption..].
Qed.

Lemma pass_keeps_other_characters_witness :
  count (ch "{")
        (re_sub (lines ["#[derive(Debug)]"%string;
                        "pub struct Voice { a: u8 }"%string]))
  = count (ch "{")
          (lines ["#[derive(Debug)]"%string;
                  "pub struct Voice { a: u8 }"%string]).
Proof.
  apply (pass_keeps_other_characters
           (lines ["#[derive(Debug)]"%string;
                   "pub struct Voice { a: u8 }"%string]) (ch "{")).
  - reflexivity.
  - vm_compute. intuition discriminate.
Defined.

(** X13.  When [add_utoipa_to_file] reports a change, the text it returns
    has the line [#[derive(utoipa::ToSchema)]] in it. *)
Theorem a_change_has_the_annotation content :
  snd (annotate content) = true ->
  contains derive_marker_line (fst (annotate content)) = true.
Proof.
  unfold annotate. cbn [fst snd]. intros H. apply negb_true_iff in H.
  destruct (loosely_marker _ _ (re_sub_loosely content)) as [E|C];
    [|assumption].
  rewrite E, text_eqb_refl in H. discriminate.
Qed.

Lemma a_change_has_the_annotation_witness :
  snd (annotate (lines ["#[derive(Debug)]"%string;
                        "pub enum Kind { A }"%string])) = true
  /\ contains derive_marker_line
       (fst (annotate (lines ["#[derive(Debug)]"%string;
                              "pub enum Kind { A }"%string]))) = true.
Proof.
  split; [vm_compute; reflexivity|].
  apply (a_change_has_the_annotation
           (lines ["#[derive(Debug)]"%string; "pub enum Kind { A }"%string])).
  vm_compute. reflexivity.
Defined.

(** *** The body of a declaration *)

Section Bodies.

(** Once a brace is open, what was collected stays. *)
Lemma body_loop_keeps r : forall acc bc,
  exists x, body_loop r acc bc true = acc ++ x.
Proof.
  induction r as [|c r IH]; intros acc bc; cbn [body_loop].
  - exists []. now rewrite app_nil_r.
  - destruct (Ascii.eqb c (ch "{")).
    { destruct (IH (acc ++ [c]) (bc + 1)%Z) as [x ->].
      exists (c :: x). list_eq. }
    destruct (Ascii.eqb c (ch "}")).
    + destruct ((bc - 1 =? 0)%Z && true).
      * exists []. now rewrite app_nil_r.
      * destruct (IH (acc ++ [c]) (bc - 1)%Z) as [x ->].
        exists (c :: x). list_eq.
    + destruct (IH (acc ++ [c]) bc) as [x ->]. exists (c :: x). list_eq.
Qed.

(** Before the first opening brace nothing is collected. *)
Lemma body_loop_before r : forall bc,
  body_loop r [] bc false = []
  \/ exists x, body_loop r [] bc false = ch "{" :: x.
Proof.
  induction r as [|c r IH]; intros bc; cbn [body_loop]; [now left|].
  destruct (Ascii.eqb c (ch "{")) eqn:E.
  { right. apply Ascii.eqb_eq in E. subst c.
    destruct (body_loop_keeps r ([] ++ [ch "{"]) (bc + 1)%Z) as [x ->].
    now exists x. }
  destruct (Ascii.eqb c (ch "}")).
  - rewrite andb_false_r. apply IH.
  - apply IH.
Qed.

Lemma body_loop_empty r : forall bc,
  body_loop r [] bc false = [] <-> ~ In (ch "{") r.
Proof.
  induction r as [|c r IH]; intros bc; cbn [body_loop].
  - split; [intros _ []|reflexivity].
  - destruct (Ascii.eqb c (ch "{")) eqn:E.
    { apply Ascii.eqb_eq in E. subst c. split.
      - destruct (body_loop_keeps r ([] ++ [ch "{"]) (bc + 1)%Z) as [x ->].
        discriminate.
      - intros N. exfalso. apply N. now left. }
    apply Ascii.eqb_neq in E.
    assert (Q : ~ In (ch "{") (c :: r) <-> ~ In (ch "{") r).
    { split; intros N I; apply N; [now right|].
      destruct I as [I|I]; [congruence|assumption]. }
    rewrite Q.
    destruct (Ascii.eqb c (ch "}")); [rewrite andb_false_r|]; apply IH.
Qed.

(** The loop inside matched braces. *)
Lemma body_loop_nested inner post : forall acc below,
  (0 <= below)%Z -> nested_from below inner = true ->
  body_loop (inner ++ ch "}" :: post) acc (1 + below) true = acc ++ inner.
Proof.
  induction inner as [|c inner IH]; intros acc below P N;
    cbn [nested_from] in N.
  - apply Z.eqb_eq in N. subst below. cbn. now rewrite app_nil_r.
  - cbn [app body_loop]. destruct (Ascii.eqb c (ch "{")).
    { replace (1 + below + 1)%Z with (1 + (below + 1))%Z by lia.
      rewrite IH; [list_eq|lia|assumption]. }
    destruct (Ascii.eqb c (ch "}")).
    + apply andb_true_iff in N. destruct N as [N1 N2].
      apply Z.leb_le in N1.
      replace ((1 + below - 1 =? 0)%Z) with false
        by (symmetry; apply Z.eqb_neq; lia).
      cbn [andb].
      replace (1 + below - 1)%Z with (1 + (below - 1))%Z by lia.
      rewrite IH; [list_eq|lia|assumption].
    + rewrite IH; [list_eq|assumption..].
Qed.

End Bodies.

(** X14.  The body the callback looks at is empty exactly when the text
    after the match has no opening brace, to the end of the file; and a
    body that is not empty starts with the opening brace. *)
Theorem body_is_empty_without_a_brace rest :
  (extract_body rest = [] <-> ~ In (ch "{") rest)
  /\ (forall c body, extract_body rest = c :: body -> c = ch "{").
Proof.
  unfold extract_body. split; [apply body_loop_empty|].
  intros c body H.
  destruct (body_loop_before rest 0%Z) as [E|[x E]]; congruence.
Qed.

(** X15.  When the first braces after the match are matched, the body is
    the text from the opening brace up to, and without, the brace that
    closes it, whatever stands before the opening brace: the end of a
    declaration without braces, and the declarations after it, included. *)
Theorem body_of_matched_braces pre inner post :
  brace_free pre = true ->
  well_nested inner = true ->
  extract_body (pre ++ ch "{" :: inner ++ ch "}" :: post) = ch "{" :: inner.
Proof.
  intros F N. unfold extract_body.
  rewrite (body_loop_no_brace pre _ _ _ _ F).
  cbn [body_loop]. rewrite Ascii.eqb_refl.
  change (0 + 1)%Z with (1 + 0)%Z.
  now rewrite (body_loop_nested inner post _ 0%Z (Z.le_refl 0) N).
Qed.

Lemma body_of_matched_braces_witness :
  extract_body (T "(u8);" ++ nl :: T "pub struct B " ++ ch "{"
                  :: T " a: Bytes, b: [u8; { 1 }] " ++ ch "}" :: T " // }")
  = ch "{" :: T " a: Bytes, b: [u8; { 1 }] ".
Proof.
  apply (body_of_matched_braces (T "(u8);" ++ nl :: T "pub struct B ")
           (T " a: Bytes, b: [u8; { 1 }] ") (T " // }"));
    reflexivity.
Defined.

(** ** The body of a declaration and the words of the specification *)

Section Worded.

Lemma first_from_ext P Q : forall n k,
  (forall j, k <= j < k + n ->
     (forall i, k <= i < j -> Q i = false) -> P j = Q j) ->
  first_from P k n = first_from Q k n.
Proof.
  induction n as [|n IH]; intros k H; [reflexivity|].
  cbn [first_from].
  rewrite (H k) by (try lia; intros i Hi; lia).
  destruct (Q k) eqn:Qk; [reflexivity|].
  apply IH. intros j Hj Hq. apply H; [lia|].
  intros i Hi. destruct (Nat.eq_dec i k) as [->|N]; [assumption|].
  apply Hq. lia.
Qed.

Lemma firstn_snoc (t : text) j c :
  nth_error t j = Some c -> firstn (S j) t = firstn j t ++ [c].
Proof.
  revert j. induction t as [|x t IH]; intros [|j] H; try discriminate.
  - cbn in H. injection H as ->. reflexivity.
  - cbn [firstn app]. f_equal. now apply IH.
Qed.

Lemma stops_as_worded_at t j c :
  nth_error t j = Some c ->
  stops_as_worded t j
  = (depth (firstn j t ++ [c]) =? 0)%Z && opened (firstn j t ++ [c]).
Proof.
  intros H. unfold stops_as_worded. rewrite (firstn_snoc t j c H).
  assert (L : j < length t) by (apply nth_error_Some; congruence).
  apply Nat.ltb_lt in L. now rewrite L.
Qed.

Lemma stops_at t j c :
  nth_error t j = Some c ->
  stops t j
  = Ascii.eqb c close_brace && (depth (firstn j t ++ [c]) =? 0)%Z
    && opened (firstn j t).
Proof.
  intros H. unfold stops. now rewrite H, (firstn_snoc t j c H).
Qed.

(** Before the scan of the specification stops, a prefix in which a brace
    was opened has its counter above zero. *)
Lemma worded_positive t j :
  j < length t ->
  (forall i, i < j -> stops_as_worded t i = false) ->
  opened (firstn j t) = true -> depth (firstn j t) <> 0%Z.
Proof.
  intros L H O E. destruct j as [|j]; [discriminate|].
  specialize (H j (Nat.lt_succ_diag_r j)).
  unfold stops_as_worded in H.
  assert (Lj : (j <? length t) = true) by (apply Nat.ltb_lt; lia).
  rewrite Lj, E, O in H. discriminate.
Qed.

Lemma not_opened_before t j :
  j < length t -> opened (firstn j t) = false -> j <= open_index t.
Proof.
  intros L O.
  pose proof (open_index_closed (firstn j t) (skipn j t) O) as E.
  rewrite firstn_skipn in E. rewrite E, length_firstn. lia.
Qed.

Lemma open_index_char t :
  open_index t < length t -> nth_error t (open_index t) = Some open_brace.
Proof.
  induction t as [|c t IH]; cbn [open_index length]; [lia|].
  destruct (Ascii.eqb c open_brace) eqn:E.
  - apply Ascii.eqb_eq in E. now subst c.
  - intros L. cbn [nth_error]. apply IH. lia.
Qed.

Lemma in_firstn (t : text) : forall j k c,
  nth_error t j = Some c -> j < k -> In c (firstn k t).
Proof.
  induction t as [|x t IH]; intros [|j] [|k] c H L; try discriminate; try lia.
  - cbn in H. injection H as ->. now left.
  - right. apply (IH j); [assumption|lia].
Qed.

(** With no closing brace before the first opening one, the counter is not
    below zero before the scan of the specification stops. *)
Lemma worded_depth t :
  closes_first t = false ->
  forall j, j <= length t ->
    (forall i, i < j -> stops_as_worded t i = false) ->
    (0 <= depth (firstn j t))%Z.
Proof.
  intros F. induction j as [|j IH]; intros L H; [cbn; lia|].
  assert (Lj : j < length t) by lia.
  destruct (nth_error t j) as [c|] eqn:N;
    [|apply nth_error_None in N; lia].
  rewrite (firstn_snoc t j c N), depth_snoc.
  assert (D : (0 <= depth (firstn j t))%Z).
  { apply IH; [lia|]. intros i Hi. apply H. lia. }
  destruct (Ascii.eqb close_brace c) eqn:C;
    [|destruct (Ascii.eqb open_brace c); lia].
  apply Ascii.eqb_eq in C. subst c.
  replace (Ascii.eqb open_brace close_brace) with false by reflexivity.
  destruct (opened (firstn j t)) eqn:O.
  - assert (depth (firstn j t) <> 0%Z); [|lia].
    apply worded_positive; [assumption| |assumption].
    intros i Hi. apply H. lia.
  - exfalso. pose proof (not_opened_before t j Lj O) as Le.
    assert (j <> open_index t).
    { intros ->. rewrite (open_index_char t Lj) in N. discriminate. }
    unfold closes_first in F.
    assert (I : In close_brace (firstn (open_index t) t))
      by (apply (in_firstn t j); [assumption|lia]).
    assert (X : existsb (Ascii.eqb close_brace) (firstn (open_index t) t)
                = true).
    { apply existsb_exists. exists close_brace. split; [assumption|].
      apply Ascii.eqb_refl. }
    congruence.
Qed.

Lemma stops_agree t :
  closes_first t = false ->
  forall j, j < length t ->
    (forall i, i < j -> stops_as_worded t i = false) ->
    stops t j = stops_as_worded t j.
Proof.
  intros F j L H.
  destruct (nth_error t j) as [c|] eqn:N;
    [|apply nth_error_None in N; lia].
  rewrite (stops_at t j c N), (stops_as_worded_at t j c N).
  rewrite depth_snoc, opened_snoc.
  pose proof (worded_depth t F j (Nat.lt_le_incl _ _ L) H) as D.
  rewrite (Ascii.eqb_sym c close_brace).
  destruct (Ascii.eqb close_brace c) eqn:C.
  - apply Ascii.eqb_eq in C. subst c.
    replace (Ascii.eqb open_brace close_brace) with false by reflexivity.
    now rewrite orb_false_r.
  - cbn [andb]. symmetry.
    destruct (Ascii.eqb open_brace c) eqn:B.
    + apply andb_false_iff. left. apply Z.eqb_neq. lia.
    + rewrite orb_false_r. destruct (opened (firstn j t)) eqn:O;
        [|apply andb_false_r].
      pose proof (worded_positive t j L H O) as P.
      apply andb_false_iff. left. apply Z.eqb_neq. lia.
Qed.

Lemma body_spec_as_worded t :
  closes_first t = false -> body_spec t = body_as_worded t.
Proof.
  intros F. unfold body_spec, body_as_worded, stop_index.
  f_equal. f_equal. apply first_from_ext.
  intros j Hj H. apply (stops_agree t F); [lia|].
  intros i Hi. apply H. lia.
Qed.

End Worded.

(** C3, as stated, fails: after [pub struct A(u8)] at the end of a [mod]
    block, the closing brace of the block takes the counter to -1 and the
    opening brace of the next declaration takes it back to zero; the scan
    of the specification stops there, with an empty body, and the loop,
    which tests the counter on closing braces only, goes on to the end of
    the text. *)
Lemma stray_brace_is_not_as_worded :
  extract_body after_tuple_struct_in_mod
  = lines ["{ x: PathBuf }"%string; "pub struct C { y: u8 }"%string]
  /\ body_as_worded after_tuple_struct_in_mod = [].
Proof. split; vm_compute; reflexivity. Qed.

(** C3, amended.  Body extraction: the text collected by the loop of
    [add_separate_derive] is the text from the first opening brace up to,
    and without, the first closing brace on which the depth counter (up on
    an opening brace, down on a closing one) is at zero after a brace was
    opened; it runs to the end of the text when there is no such closing
    brace, and is empty when no brace is opened.  This is the body of the
    specification whenever no closing brace comes before the first opening
    brace. *)
Theorem extract_body_is_body_spec :
  forall rest_of_content : text,
    extract_body rest_of_content = body_spec rest_of_content
    /\ (closes_first rest_of_content = false ->
        extract_body rest_of_content = body_as_worded rest_of_content).
Proof.
  intros r.
  assert (E : extract_body r = body_spec r).
  { unfold extract_body, body_spec, stop_index. exact (body_loop_spec r []). }
  split; [exact E|]. intros F. rewrite E. now apply body_spec_as_worded.
Qed.

Lemma extract_body_is_body_spec_witness :
  closes_first (T " { a: {b}, c } d { e }") = false
  /\ extract_body (T " { a: {b}, c } d { e }") = T "{ a: {b}, c "
  /\ body_as_worded (T " { a: {b}, c } d { e }") = T "{ a: {b}, c ".
Proof.
  split; [reflexivity|].
  destruct (extract_body_is_body_spec (T " { a: {b}, c } d { e }"))
    as [_ A].
  split; [reflexivity|]. rewrite <- A; reflexivity.
Defined.

(** ** The text the pattern does not match *)

Section Passthrough.

(** A part of the text at no position of which the pattern matches is
    copied, and the pass goes on after it. *)
Lemma no_match_in_copied d : forall s,
  no_match_in d s = true -> re_sub (d ++ s) = d ++ re_sub s.
Proof.
  induction d as [|c d IH]; intros s H; [reflexivity|].
  cbn [no_match_in] in H. rewrite re_sub_step.
  destruct (re_match ((c :: d) ++ s)); [discriminate|].
  cbn [app]. f_equal. now apply IH.
Qed.

Lemma no_match_in_spec d s :
  no_match_in d s = true
  <-> forall d1 d2, d = d1 ++ d2 -> d2 <> [] -> re_match (d2 ++ s) = None.
Proof.
  induction d as [|c d IH]; cbn [no_match_in].
  - split; [|reflexivity]. intros _ d1 d2 E N.
    symmetry in E. apply app_eq_nil in E. tauto.
  - destruct (re_match ((c :: d) ++ s)) eqn:M.
    + split; [discriminate|]. intros H.
      rewrite (H [] (c :: d) eq_refl) in M; [discriminate|discriminate].
    + rewrite IH. split.
      * intros H [|x d1] d2 E N.
        -- cbn in E. now subst d2.
        -- injection E as -> E. now apply (H d1).
      * intros H d1 d2 E N. apply (H (c :: d1)); [now rewrite E|assumption].
Qed.

Lemma hash_closed_app x : forall t,
  hash_closed (x ++ t) = true -> hash_closed t = true.
Proof.
  induction x as [|c x IH]; intros t H; [assumption|].
  cbn [app hash_closed] in H. apply andb_true_iff in H. now apply IH.
Qed.

Lemma last_nonspace_app x : forall t q,
  last_nonspace t = Some q -> last_nonspace (x ++ t) = Some q.
Proof.
  induction x as [|c x IH]; intros t q H; [assumption|].
  cbn [app last_nonspace]. now rewrite (IH t q H).
Qed.

Lemma last_nonspace_first c t :
  is_space c = false -> exists q, last_nonspace (c :: t) = Some q.
Proof.
  intros N. cbn [last_nonspace]. destruct (last_nonspace t) as [q|].
  - now exists q.
  - rewrite N. now exists c.
Qed.

Lemma last_nonspace_spaces ws :
  all_space ws -> last_nonspace ws = None.
Proof.
  unfold all_space. induction ws as [|c ws IH]; [reflexivity|].
  cbn [forallb last_nonspace]. intros H. apply andb_true_iff in H.
  destruct H as [S H]. now rewrite (IH H), S.
Qed.

Lemma last_nonspace_end x c ws :
  is_space c = false -> all_space ws ->
  last_nonspace (x ++ c :: ws) = Some c.
Proof.
  intros N S. apply last_nonspace_app. cbn [last_nonspace].
  now rewrite (last_nonspace_spaces ws S), N.
Qed.

Lemma no_contains_suffix p x t :
  contains p (x ++ t) = false -> contains p t = false.
Proof.
  intros H. destruct (contains p t) eqn:C; [|reflexivity].
  now rewrite (contains_app p x t C) in H.
Qed.

(** The text up to the first closing bracket. *)
Lemma up_to_bracket y : forall r s t,
  forallb (not_char (ch "]")) y = true ->
  r ++ s = y ++ ch "]" :: t ->
  In (ch "]") r ->
  exists d3, r = y ++ ch "]" :: d3 /\ d3 ++ s = t.
Proof.
  induction y as [|c y IH]; intros r s t Y E I.
  - destruct r as [|x r]; [destruct I|]. injection E as -> E.
    now exists r.
  - cbn [forallb] in Y. apply andb_true_iff in Y. destruct Y as [Yc Y].
    destruct r as [|x r]; [destruct I|]. injection E as -> E.
    destruct I as [I|I].
    { subst c. discriminate. }
    destruct (IH r s t Y E I) as (d3 & -> & E3). now exists d3.
Qed.

Lemma derive_first dl :
  pieces derive_core dl -> dl <> [] -> exists x, dl = T "#[derive(" ++ x.
Proof.
  intros [|a l (b & ws & -> & (c & x & -> & _) & _) _] N; [contradiction|].
  exists ((c :: x ++ T ")]") ++ ws ++ l). list_eq.
Qed.

(** A chain of attributes that starts in a text without a derive line
    cannot run through the end of the text, when every attribute of the
    text is closed in it and the text does not end with an attribute. *)
Lemma no_chain pre :
  pieces pre_attr_core pre ->
  forall d2 s z,
    d2 <> [] ->
    d2 ++ s = pre ++ T "#[derive(" ++ z ->
    contains (T "#[derive(") d2 = false ->
    hash_closed d2 = true ->
    last_nonspace d2 <> Some (ch "]") ->
    False.
Proof.
  intros P. induction P as [|a l (b & ws & -> & (c & x & -> & (y & -> & Y) & _)
                                  & S) P IH];
    intros d2 s z N E C H L.
  - cbn [app] in E. apply app_eq_app in E.
    destruct E as [k [[E1 E2]|[E1 E2]]].
    + rewrite E1, contains_here in C. discriminate.
    + destruct d2 as [|h d2]; [contradiction|].
      cbn [hash_closed] in H. apply andb_true_iff in H. destruct H as [H _].
      injection E1 as <- E1.
      replace (Ascii.eqb (ch "#") (ch "#")) with true in H by reflexivity.
      apply existsb_exists in H. destruct H as (q & I & Q).
      apply Ascii.eqb_eq in Q. subst q.
      assert (I' : In (ch "]") (d2 ++ k)).
      { apply in_or_app. left.
        clear - I. destruct d2 as [|? [|? d2]]; cbn [skipn] in I;
          try destruct I; now right; right. }
      rewrite <- E1 in I'. vm_compute in I'. intuition discriminate.
  - destruct d2 as [|h d2]; [contradiction|].
    replace (((T "#[" ++ c :: y ++ [ch "]"]) ++ ws) ++ l)
      with (ch "#" :: ch "[" :: c :: y ++ ch "]" :: ws ++ l) in E
      by list_eq.
    cbn [app] in E. injection E as -> E.
    pose proof H as H0. cbn [hash_closed] in H0.
    apply andb_true_iff in H0. destruct H0 as [H0 _].
    replace (Ascii.eqb (ch "#") (ch "#")) with true in H0 by reflexivity.
    destruct d2 as [|h1 [|h2 r]]; try discriminate.
    cbn [skipn] in H0. cbn [app] in E. injection E as -> -> E.
    apply existsb_exists in H0. destruct H0 as (q & I & Q).
    apply Ascii.eqb_eq in Q. subst q.
    assert (E' : r ++ s = y ++ ch "]" :: ws ++ l ++ T "#[derive(" ++ z)
      by (rewrite E; list_eq).
    clear E.
    destruct (up_to_bracket y r s _ Y E' I) as (d3 & -> & E3).
    assert (B : forall tail,
              ch "#" :: ch "[" :: c :: y ++ ch "]" :: tail
              = (ch "#" :: ch "[" :: c :: y) ++ ch "]" :: tail)
      by (intros; list_eq).
    apply app_eq_app in E3. destruct E3 as [k [[E1 E2]|[E1 E2]]].
    + destruct k as [|k0 k].
      * rewrite app_nil_r in E1. subst d3. apply L.
        rewrite B. now apply last_nonspace_end.
      * assert (Nk : is_space k0 = false).
        { destruct l as [|? ?].
          - cbn in E2. injection E2 as <- _. reflexivity.
          - inversion P as [|a0 l0 (b0 & ws0 & -> & (c0 & x0 & -> & _) & _) _ E0].
            rewrite <- E0 in E2. cbn in E2. injection E2 as <- _.
            reflexivity. }
        apply (IH (k0 :: k) s z); [discriminate|now symmetry| | |].
        -- apply (no_contains_suffix _ (ch "#" :: ch "[" :: c :: y
                                         ++ ch "]" :: ws)).
           rewrite E1 in C.
           replace ((ch "#" :: ch "[" :: c :: y ++ ch "]" :: ws)
                    ++ k0 :: k)
             with (ch "#" :: ch "[" :: c :: y ++ ch "]" :: ws ++ k0 :: k)
             by list_eq.
           exact C.
        -- apply (hash_closed_app (ch "#" :: ch "[" :: c :: y
                                     ++ ch "]" :: ws)).
           rewrite E1 in H.
           replace ((ch "#" :: ch "[" :: c :: y ++ ch "]" :: ws)
                    ++ k0 :: k)
             with (ch "#" :: ch "[" :: c :: y ++ ch "]" :: ws ++ k0 :: k)
             by list_eq.
           exact H.
        -- intros Lk. apply L. rewrite E1.
           apply (last_nonspace_app (ch "#" :: ch "[" :: c :: y)
                    (ch "]" :: ws ++ k0 :: k)).
           apply (last_nonspace_app (ch "]" :: ws) (k0 :: k)). exact Lk.
    + apply L. rewrite B. apply last_nonspace_end; [reflexivity|].
      unfold all_space in *. rewrite E1, forallb_app in S.
      apply andb_true_iff in S. tauto.
Qed.

Lemma no_match_in_declaration d : forall s,
  contains (T "#[derive(") d = false ->
  hash_closed d = true ->
  last_nonspace d <> Some (ch "]") ->
  no_match_in d s = true.
Proof.
  intros s C H L. apply no_match_in_spec. intros d1 d2 E N.
  destruct (re_match (d2 ++ s)) as [m|] eqn:M; [exfalso|reflexivity].
  destruct (re_match_is_match _ m M)
    as (pre & dl & other & docs & k & nm & I).
  destruct I as (Es & _ & _ & Pp & Pd & Nd & _).
  destruct (derive_first dl Pd Nd) as (x & ->).
  apply (no_chain pre Pp d2 s (x ++ other ++ docs ++ k ++ nm ++ m_after m));
    [assumption|rewrite Es; list_eq| | |].
  - apply (no_contains_suffix _ d1). now rewrite <- E.
  - apply (hash_closed_app d1). now rewrite <- E.
  - intros Q. apply L. rewrite E. now apply last_nonspace_app.
Qed.

End Passthrough.

(** C6.  No-match passthrough.  A part [d] of the text at no position of
    which the pattern matches is returned as it is, at the start of the text
    and after a candidate alike, whatever candidates the text [s] after it
    holds; the pass goes on with [s].  A declaration with no derive line is
    such a part: a text in which [#[derive(] does not occur, whose
    attributes are closed and which does not end with an attribute.  A text
    in which [#[derive(] does not occur at all is returned as it is, with
    the changed-flag false. *)
Theorem no_derive_passthrough :
  forall d s : text,
    (no_match_in d s = true -> re_sub (d ++ s) = d ++ re_sub s)
    /\ (forall s0 m,
          re_match s0 = Some m -> m_after m = d ++ s ->
          no_match_in d s = true ->
          re_sub s0 = add_separate_derive m ++ d ++ re_sub s)
    /\ (contains (T "#[derive(") d = false ->
        hash_closed d = true ->
        last_nonspace d <> Some (ch "]") ->
        no_match_in d s = true /\ re_sub (d ++ s) = d ++ re_sub s)
    /\ (contains (T "#[derive(") d = false -> annotate d = (d, false)).
Proof.
  intros d s.
  split; [apply no_match_in_copied|].
  split.
  { intros s0 m M A N. rewrite re_sub_step, M, A.
    now rewrite (no_match_in_copied d s N). }
  split.
  { intros C H L.
    pose proof (no_match_in_declaration d s C H L) as N.
    split; [exact N|]. now apply no_match_in_copied. }
  intros C. apply annotate_unchanged, re_sub_no_match.
  intros x t E. destruct (re_match t) as [m|] eqn:M; [|reflexivity].
  apply re_match_has_derive in M. apply (contains_app _ x) in M.
  rewrite <- E in M. congruence.
Qed.

Lemma no_derive_passthrough_witness :
  re_sub (lines ["#[serde(default)]"%string; "/// Kept as it is."%string;
                 "pub struct Plain {"%string; "    a: [u8; 4],"%string;
                 "}"%string; ""%string]
          ++ lines ["#[derive(Debug)]"%string; "pub struct Voice {}"%string])
  = lines ["#[serde(default)]"%string; "/// Kept as it is."%string;
           "pub struct Plain {"%string; "    a: [u8; 4],"%string;
           "}"%string; ""%string]
    ++ lines ["#[derive(Debug)]"%string;
              "#[derive(utoipa::ToSchema)]"%string;
              "pub struct Voice {}"%string].
Proof.
  destruct (no_derive_passthrough
              (lines ["#[serde(default)]"%string;
                      "/// Kept as it is."%string;
                      "pub struct Plain {"%string;
                      "    a: [u8; 4],"%string; "}"%string; ""%string])
              (lines ["#[derive(Debug)]"%string;
                      "pub struct Voice {}"%string]))
    as (_ & _ & D & _).
  destruct D as [_ D]; [reflexivity|reflexivity|discriminate|].
  rewrite D. f_equal.
Defined.

(** ** Where the annotation line goes *)

Section Insertion.

Lemma all_space_cons c ws :
  all_space (c :: ws) -> is_space c = true /\ all_space ws.
Proof. unfold all_space. cbn [forallb]. intros H. now apply andb_true_iff. Qed.

Lemma all_space_snoc ws c :
  all_space (ws ++ [c]) -> is_space c = true /\ all_space ws.
Proof.
  unfold all_space. rewrite forallb_app. cbn [forallb]. intros H.
  apply andb_true_iff in H. destruct H as [A B].
  apply andb_true_iff in B. tauto.
Qed.

Variables M M1 M2 : text.
Hypothesis M_starts : M = ch "#" :: M1.
Hypothesis M_ends : M = M2 ++ [ch "]"].

(** Replacing white space [W] by a newline, the annotation line and a
    newline loses nothing of the text exactly when [W] is empty, a newline,
    or two newlines. *)
Lemma put_in_iff_any (P W R : text) :
  all_space W ->
  (put_in (P ++ W ++ R) (P ++ nl :: M ++ nl :: R)
   <-> W = [] \/ W = [nl] \/ W = [nl; nl]).
Proof.
  intros S. split.
  - intros (u & x & v & E1 & E2).
    assert (E1' : u ++ v = (P ++ W) ++ R) by (rewrite <- E1; list_eq).
    apply app_eq_app in E1'. destruct E1' as [k [[A B]|[A B]]].
    + (* [v] is within [R] *)
      subst u. rewrite B in E2.
      assert (E : W ++ k ++ x = nl :: M ++ nl :: k).
      { apply (app_inv_head P), (app_inv_tail v).
        transitivity (((P ++ W) ++ k) ++ x ++ v); [list_eq|].
        rewrite <- E2. list_eq. }
      destruct W as [|w W]; [now left|]. right.
      cbn [app] in E. injection E as -> E.
      destruct W as [|w' W]; [now left|]. exfalso.
      rewrite M_starts in E. cbn [app] in E. injection E as -> _.
      apply all_space_cons in S. destruct S as [_ S].
      apply all_space_cons in S. destruct S as [S _]. discriminate.
    + (* [v] starts within [P ++ W] *)
      subst v.
      destruct k as [|k0 k].
      { rewrite app_nil_r in A.
        assert (E : (P ++ W) ++ x = P ++ nl :: M ++ [nl]).
        { apply (app_inv_tail R).
          transitivity (u ++ x ++ [] ++ R); [rewrite A; list_eq|].
          rewrite <- E2. list_eq. }
        rewrite <- app_assoc in E. apply app_inv_head in E.
        destruct W as [|w W]; [now left|]. right.
        cbn [app] in E. injection E as -> E.
        destruct W as [|w' W]; [now left|]. exfalso.
        rewrite M_starts in E. cbn [app] in E. injection E as -> _.
        apply all_space_cons in S. destruct S as [_ S].
        apply all_space_cons in S. destruct S as [S _]. discriminate. }
      assert (E : u ++ x ++ k0 :: k
                  = (P ++ nl :: M) ++ [nl]).
      { apply (app_inv_tail R).
        transitivity (u ++ x ++ (k0 :: k) ++ R); [list_eq|].
        rewrite <- E2. list_eq. }
      destruct (exists_last (l := k0 :: k)) as (k' & z & K);
        [discriminate|].
      rewrite K in E, A.
      replace (u ++ x ++ k' ++ [z]) with ((u ++ x ++ k') ++ [z]) in E
        by list_eq.
      apply app_inj_tail in E. destruct E as [E ->].
      destruct W as [|w W]; [now left|]. right.
      destruct (exists_last (l := w :: W)) as (W' & z & Ew);
        [discriminate|].
      rewrite Ew in A, S |- *.
      replace (P ++ W' ++ [z]) with ((P ++ W') ++ [z]) in A by list_eq.
      replace (u ++ k' ++ [nl]) with ((u ++ k') ++ [nl]) in A by list_eq.
      apply app_inj_tail in A. destruct A as [A ->].
      apply all_space_snoc in S. destruct S as [_ S].
      destruct k' as [|k1 k'].
      { (* [v] is the newline and [R] *)
        rewrite app_nil_r in A, E. subst u.
        rewrite <- app_assoc in E. apply app_inv_head in E.
        destruct W' as [|w1 W']; [now left|]. right.
        cbn [app] in E. injection E as -> E.
        destruct W' as [|w2 W']; [reflexivity|]. exfalso.
        rewrite M_starts in E. cbn [app] in E. injection E as -> _.
        apply all_space_cons in S. destruct S as [_ S].
        apply all_space_cons in S. destruct S as [S _]. discriminate. }
      destruct (exists_last (l := k1 :: k')) as (k2 & z & K2);
        [discriminate|].
      rewrite K2 in E, A.
      rewrite M_ends in E.
      replace (u ++ x ++ k2 ++ [z]) with ((u ++ x ++ k2) ++ [z]) in E
        by list_eq.
      replace (P ++ nl :: M2 ++ [ch "]"])
        with ((P ++ nl :: M2) ++ [ch "]"]) in E
        by list_eq.
      apply app_inj_tail in E. destruct E as [_ ->].
      destruct W' as [|w1 W']; [now left|]. exfalso.
      destruct (exists_last (l := w1 :: W')) as (W2 & z & Ew2);
        [discriminate|].
      rewrite Ew2 in A, S.
      replace (u ++ k2 ++ [ch "]"]) with ((u ++ k2) ++ [ch "]"]) in A
        by list_eq.
      replace (P ++ W2 ++ [z]) with ((P ++ W2) ++ [z]) in A by list_eq.
      apply app_inj_tail in A. destruct A as [_ ->].
      apply all_space_snoc in S. destruct S as [S _]. discriminate.
  - intros [-> | [-> | ->]].
    + exists P, (nl :: M ++ [nl]), R.
      split; [reflexivity|list_eq].
    + exists (P ++ [nl]), (M ++ [nl]), R.
      split; list_eq.
    + exists (P ++ [nl]), M, (nl :: R).
      split; list_eq.
Qed.

End Insertion.

Lemma put_in_iff (P W R : text) :
  all_space W ->
  (put_in (P ++ W ++ R) (P ++ nl :: derive_marker_line ++ nl :: R)
   <-> W = [] \/ W = [nl] \/ W = [nl; nl]).
Proof.
  apply (put_in_iff_any derive_marker_line
           (T "[derive(utoipa::ToSchema)]") (T "#[derive(utoipa::ToSchema)"));
    reflexivity.
Qed.

(** C2, amended.  Where the callback annotates a candidate, its text is the
    attributes before the derive lines, the derive lines up to their last
    [)]], a newline, the annotation line, a newline, and then the other
    attributes, the documentation lines and the header as they were: the
    white space that followed the derive lines is replaced by a newline,
    the annotation line and a newline.  Nothing of the candidate is lost
    (the new text is the candidate with a text put in at one place) exactly
    when that white space is empty, a newline or two newlines.  The text
    before the candidate, at no position of which the pattern matches, is
    copied as it is, and the pass goes on with the text after the
    candidate. *)
Theorem annotation_placement :
  forall (a s : text) (m : rmatch),
    no_match_in a s = true ->
    re_match s = Some m ->
    qualifies m = true ->
    exists kept ws,
      group m 2 = kept ++ ws
      /\ all_space ws
      /\ (exists x, kept = x ++ T ")]")
      /\ m_whole m =
         group m 1 ++ kept ++ ws ++ group m 3 ++ group m 4 ++ group m 5
      /\ add_separate_derive m =
         group m 1 ++ kept ++ [nl] ++ derive_marker_line ++ [nl]
         ++ group m 3 ++ group m 4 ++ group m 5
      /\ (put_in (m_whole m) (add_separate_derive m)
          <-> ws = [] \/ ws = [nl] \/ ws = [nl; nl])
      /\ a ++ s = a ++ m_whole m ++ m_after m
      /\ re_sub (a ++ s) = a ++ add_separate_derive m ++ re_sub (m_after m).
Proof.
  intros a s m Na M Q.
  destruct (re_match_is_match s m M) as (pre & dl & other & docs & k & nm & I).
  destruct (is_match_groups _ _ _ _ _ _ _ _ I)
    as (G1 & G2 & G3 & G4 & G5 & G6).
  destruct I as (E & W & _ & _ & Pd & Nd & _).
  destruct (derives_kept dl Pd Nd) as (x & ws & Ed & S & R).
  assert (A : add_separate_derive m =
              pre ++ (x ++ T ")]") ++ [nl] ++ derive_marker_line ++ [nl]
              ++ other ++ docs ++ k ++ nm).
  { rewrite add_separate_derive_cases, Q. unfold annotated.
    rewrite G1, G2, G3, G4, G5, R. reflexivity. }
  assert (Wm : m_whole m
               = (pre ++ x ++ T ")]") ++ ws ++ other ++ docs ++ k ++ nm).
  { rewrite W, Ed. list_eq. }
  exists (x ++ T ")]"), ws. rewrite G1, G2, G3, G4, G5.
  split; [exact Ed|]. split; [exact S|]. split; [now exists x|].
  split; [rewrite Wm; list_eq|]. split; [exact A|].
  split.
  { rewrite Wm.
    replace (add_separate_derive m)
      with ((pre ++ x ++ T ")]") ++ nl :: derive_marker_line
            ++ nl :: other ++ docs ++ k ++ nm)
      by (rewrite A; list_eq).
    now apply put_in_iff. }
  split; [f_equal; now apply re_match_whole|].
  rewrite (no_match_in_copied a s Na), re_sub_step, M. reflexivity.
Qed.

Lemma annotation_placement_witness :
  exists m,
    re_match (lines ["#[derive(Debug)]"%string;
                     "    pub struct Foo {}"%string]) = Some m
    /\ re_sub (lines ["use serde::Serialize;"%string; ""%string]
               ++ lines ["#[derive(Debug)]"%string;
                         "    pub struct Foo {}"%string])
       = lines ["use serde::Serialize;"%string; ""%string]
         ++ lines ["#[derive(Debug)]"%string;
                   "#[derive(utoipa::ToSchema)]"%string;
                   "pub struct Foo"%string]
         ++ re_sub (m_after m).
Proof.
  eexists. split; [vm_compute; reflexivity|].
  destruct (annotation_placement
              (lines ["use serde::Serialize;"%string; ""%string])
              (lines ["#[derive(Debug)]"%string;
                      "    pub struct Foo {}"%string]) _
              eq_refl eq_refl eq_refl)
    as (kept & ws & _ & _ & _ & _ & _ & _ & _ & A).
  rewrite A. reflexivity.
Defined.

(** ** The pass as a traversal *)

Section Traversal.

Lemma segments_traversal n : forall s,
  length s <= n -> traversal s (segments_loop n s).
Proof.
  induction n as [|n IH]; intros s L.
  - destruct s; [constructor|simpl in L; lia].
  - cbn [segments_loop]. destruct (re_match s) as [m|] eqn:M.
    + destruct (re_match_is_match s m M)
        as (pre & dl & other & docs & k & nm & I).
      eapply traversal_candidate; [exact I|].
      apply IH. pose proof (re_match_shorter s m M). lia.
    + destruct s as [|c s]; [constructor|].
      apply traversal_copy.
      * intros m pre dl other docs k nm I.
        apply is_match_re_match in I. congruence.
      * apply IH. simpl in L. lia.
Qed.

Lemma replaced_rewritten g : replaced g = rewritten g.
Proof.
  destruct g as [c|m]; [reflexivity|]. cbn.
  now rewrite add_separate_derive_cases.
Qed.

Lemma annotated_segment gs :
  existsb is_annotated gs = true
  <-> exists m, In (Matched m) gs /\ qualifies m = true.
Proof.
  rewrite existsb_exists. split.
  - intros ([c|m] & I & Q); [discriminate|]. now exists m.
  - intros (m & I & Q). now exists (Matched m).
Qed.

End Traversal.

(** C7.  The whole-file contract: the pass cuts the text, from left to
    right, into the texts of the required shape, each taken where the one
    before it ends, and the single characters between them; the result is
    the same sequence with every candidate that qualifies (no marker in its
    derive lines, a name that is not excluded, a body without an excluded
    type) replaced by its annotated text, and everything else as it was;
    the changed-flag is true exactly when one of the candidates qualifies,
    which is exactly when the result differs from the text. *)
Theorem whole_file_contract :
  forall content : text,
    exists gs,
      traversal content gs
      /\ content = flat_map original gs
      /\ fst (annotate content) = flat_map replaced gs
      /\ (snd (annotate content) = true <->
          exists m, In (Matched m) gs /\ qualifies m = true)
      /\ (snd (annotate content) = true <-> fst (annotate content) <> content).
Proof.
  intros content. exists (segments content).
  split; [apply segments_traversal, Nat.le_refl|].
  unfold annotate, segments, re_sub. cbn [fst snd].
  destruct (segments_text (length content) content (le_n _)) as [E1 E2].
  split; [exact E1|].
  split.
  { rewrite E2. apply flat_map_ext. intros g. symmetry.
    apply replaced_rewritten. }
  pose proof (sub_loop_same (length content) content (le_n _)) as S.
  pose proof (text_eqb_eq (sub_loop (length content) content) content) as Q.
  rewrite <- annotated_segment, !negb_true_iff.
  revert S Q.
  generalize (text_eqb (sub_loop (length content) content) content).
  generalize (existsb is_annotated (segments_loop (length content) content)).
  intros e b S Q. destruct b, e; intuition congruence.
Qed.

(** ** The drivers: what a run leaves *)

Section Runs.

Lemma same_machine_refl w : same_machine w w.
Proof. now split. Qed.

Lemma same_machine_trans w0 w1 w2 :
  same_machine w0 w1 -> same_machine w1 w2 -> same_machine w0 w2.
Proof.
  intros (A1 & A2 & A3) (B1 & B2 & B3).
  split; [congruence|]. split; congruence.
Qed.

Lemma processed_processed r : processed (processed r) = processed r.
Proof. destruct r; cbn; [now rewrite re_sub_idempotent|reflexivity]. Qed.

Lemma annotate_flag content :
  snd (annotate content) = false -> re_sub content = content.
Proof.
  unfold annotate. cbn. intros H. apply negb_false_iff in H.
  now apply text_eqb_eq.
Qed.

Lemma annotate_eq content :
  annotate content = (re_sub content, snd (annotate content)).
Proof. reflexivity. Qed.

Lemma lines_of_app kind a b :
  lines_of kind (a ++ b) = lines_of kind a + lines_of kind b.
Proof. unfold lines_of. now rewrite filter_app, length_app. Qed.

Lemma counted_app a b : counted (a ++ b) = counted a + counted b.
Proof. unfold counted. now rewrite filter_app, length_app. Qed.

Lemma reached_app a b w n :
  reached (a ++ b) w n = reached a w n || reached b w n.
Proof. unfold reached. apply existsb_app. Qed.

Lemma reached_machine files w w' n :
  fs_file w' = fs_file w -> reached files w' n = reached files w n.
Proof. unfold reached. now intros ->. Qed.

Lemma reached_In files w n :
  reached files w n = true
  <-> exists f, In f files /\ is_mod f = false /\ fs_file w f = n.
Proof.
  unfold reached. rewrite existsb_exists. split.
  - intros (f & I & H). apply andb_true_iff in H. destruct H as [E N].
    apply Nat.eqb_eq in E. apply negb_true_iff in N. now exists f.
  - intros (f & I & N & E). exists f. split; [assumption|].
    now rewrite N, <- E, Nat.eqb_refl.
Qed.

Lemma all_settled_app a b w :
  all_settled (a ++ b) w -> all_settled a w /\ all_settled b w.
Proof.
  intros H. split; intros f I; apply H; apply in_or_app; auto.
Qed.

Lemma all_settled_machine files w w' :
  fs_file w' = fs_file w -> fs_data w' = fs_data w ->
  all_settled files w -> all_settled files w'.
Proof.
  intros F D H f I N. unfold settled. rewrite F, D. now apply H.
Qed.

Lemma tallies_nil c : tallies [] c c.
Proof. unfold tallies. cbn. lia. Qed.

Lemma tallies_app l1 l2 c0 c1 c2 :
  tallies l1 c0 c1 -> tallies l2 c1 c2 -> tallies (l1 ++ l2) c0 c2.
Proof. unfold tallies. rewrite !lines_of_app. lia. Qed.

Lemma finished_nil w w' : fs_data w' = fs_data w -> finished [] w w'.
Proof. intros E n. now rewrite E. Qed.

Lemma finished_trans a b w0 w1 w2 :
  fs_file w1 = fs_file w0 ->
  finished a w0 w1 -> finished b w1 w2 -> finished (a ++ b) w0 w2.
Proof.
  intros F A B n.
  rewrite reached_app, (B n), (A n), (reached_machine b w0 w1 n F).
  destruct (reached a w0 n), (reached b w0 n); cbn [orb];
    rewrite ?processed_processed; reflexivity.
Qed.

Lemma finished_touched files w w' : finished files w w' -> touched files w w'.
Proof.
  intros H n. rewrite (H n). destruct (reached files w n); [right|now left].
  split; [reflexivity|now left].
Qed.

Lemma touched_refl files w w' : fs_data w' = fs_data w -> touched files w w'.
Proof. intros E n. left. now rewrite E. Qed.

Lemma touched_more a b w w' : touched a w w' -> touched (a ++ b) w w'.
Proof.
  intros H n. destruct (H n) as [E|[R E]]; [now left|right].
  split; [|assumption]. now rewrite reached_app, R.
Qed.

Lemma cut_short_processed r r' :
  cut_short (processed r) r' -> cut_short r r'.
Proof.
  intros (c & k & E1 & E2). destruct r as [c0|e]; [|discriminate].
  cbn in E1. injection E1 as <-. exists c0, k.
  now rewrite re_sub_idempotent in E2.
Qed.

Lemma touched_after a b w0 w1 w2 :
  fs_file w1 = fs_file w0 ->
  finished a w0 w1 -> touched b w1 w2 -> touched (a ++ b) w0 w2.
Proof.
  intros F A B n. rewrite reached_app.
  destruct (B n) as [E|[R E]]; rewrite (A n) in E.
  - destruct (reached a w0 n); [right|now left].
    split; [reflexivity|now left].
  - rewrite (reached_machine b w0 w1 n F) in R. right.
    split; [now rewrite R, orb_true_r|].
    destruct (reached a w0 n).
    + destruct E as [E|E]; [left; now rewrite E, processed_processed|].
      right. now apply cut_short_processed.
    + assumption.
Qed.

Lemma cause_more X X' a b w w' e :
  (forall x, X x -> X' x) ->
  stdout_error w' = stdout_error w ->
  fs_write_fault w' = fs_write_fault w ->
  (forall f, In f a -> In f b) ->
  cause X a w' e -> cause X' b w e.
Proof.
  intros HX S F I [H|[(out & l & H)|(f & t & fault & H1 & H2 & H3 & H4)]].
  - left. now apply HX.
  - right. left. exists out, l. now rewrite <- S.
  - right. right. exists f, t, fault. rewrite <- F. auto.
Qed.

Lemma went_through_refl w c : went_through [] w c w c.
Proof.
  split; [apply same_machine_refl|]. split; [now apply finished_nil|].
  exists []. rewrite app_nil_r. split; [reflexivity|].
  split; [apply tallies_nil|]. split; [reflexivity|].
  split; [intros f e []|]. now split.
Qed.

Lemma went_through_trans a b w0 c0 w1 c1 w2 c2 :
  went_through a w0 c0 w1 c1 -> went_through b w1 c1 w2 c2 ->
  went_through (a ++ b) w0 c0 w2 c2.
Proof.
  intros (M1 & F1 & l1 & S1 & T1 & N1 & R1 & Q1)
         (M2 & F2 & l2 & S2 & T2 & N2 & R2 & Q2).
  destruct M1 as (Mf & Mw & Ms).
  split; [exact (same_machine_trans _ _ _ (conj Mf (conj Mw Ms)) M2)|].
  split; [exact (finished_trans _ _ _ _ _ Mf F1 F2)|].
  exists (l1 ++ l2).
  split; [rewrite S2, S1; now rewrite app_assoc|].
  split; [exact (tallies_app _ _ _ _ _ T1 T2)|].
  split; [rewrite lines_of_app, counted_app; lia|].
  split.
  - intros f e I N R. apply in_app_or in I. destruct I as [I|I].
    + destruct (R1 f e I N R) as [A B].
      split; apply in_or_app; now left.
    + assert (R' : fs_read w1 f = Raised e).
      { unfold fs_read in *. rewrite Mf, (F1 (fs_file w0 f)), R.
        now destruct (reached a w0 (fs_file w0 f)). }
      destruct (R2 f e I N R') as [A B].
      split; apply in_or_app; now right.
  - intros Sa. apply all_settled_app in Sa. destruct Sa as [Sa Sb].
    destruct (Q1 Sa) as [D1 Z1].
    destruct (Q2 (all_settled_machine _ _ _ Mf D1 Sb)) as [D2 Z2].
    split; [congruence|]. rewrite lines_of_app. lia.
Qed.

Lemma broke_off_after X a b w0 c0 w1 c1 w2 e :
  went_through a w0 c0 w1 c1 -> broke_off X b w1 w2 e ->
  broke_off X (a ++ b) w0 w2 e.
Proof.
  intros (M1 & F1 & l1 & S1 & T1 & N1 & R1 & Q1) (M2 & T2 & C2 & Q2).
  destruct M1 as (Mf & Mw & Ms).
  split; [exact (same_machine_trans _ _ _ (conj Mf (conj Mw Ms)) M2)|].
  split; [exact (touched_after _ _ _ _ _ Mf F1 T2)|].
  split.
  - apply (cause_more X X b (a ++ b) w0 w1 e); auto.
    intros f I. apply in_or_app. now right.
  - intros Sa. apply all_settled_app in Sa. destruct Sa as [Sa Sb].
    destruct (Q1 Sa) as [D1 Z1].
    destruct (Q2 (all_settled_machine _ _ _ Mf D1 Sb)) as [D2 C].
    split; [congruence|]. now rewrite <- Ms.
Qed.

Lemma broke_off_more X a b w0 w e :
  broke_off X a w0 w e -> broke_off X (a ++ b) w0 w e.
Proof.
  intros (M & T & C & Q).
  split; [exact M|]. split; [now apply touched_more|].
  split.
  - apply (cause_more X X a (a ++ b) w0 w0 e); auto.
    intros f I. apply in_or_app. now left.
  - intros S. apply all_settled_app in S. now apply Q.
Qed.

Lemma broke_off_outside_more (X X' : text -> Prop) files w0 w e :
  (forall x, X x -> X' x) ->
  broke_off X files w0 w e -> broke_off X' files w0 w e.
Proof.
  intros HX (M & T & C & Q).
  split; [exact M|]. split; [exact T|].
  split.
  - apply (cause_more X X' files files w0 w0 e); auto.
  - intros S. destruct (Q S) as [D [H|H]]; auto.
Qed.

(** A computation after a part of the loop. *)
Lemma follows_after X a b w0 c0 w1 c1 r :
  went_through a w0 c0 w1 c1 -> follows X b w1 c1 r ->
  follows X (a ++ b) w0 c0 r.
Proof.
  intros A B. destruct r as [w [c|e]].
  - destruct B as [B Ok]. split; [|exact Ok].
    exact (went_through_trans _ _ _ _ _ _ _ _ A B).
  - exact (broke_off_after _ _ _ _ _ _ _ _ _ A B).
Qed.

(** *** [print] and the calls that do not change the world *)

Lemma printed_went_through w c l :
  plain_line l = true ->
  (forall f e, l <> ErrorProcessing f e) ->
  went_through [] w c (printed w l) c.
Proof.
  intros P _.
  split; [now repeat split|]. split; [now apply finished_nil|].
  exists [l]. split; [reflexivity|].
  unfold plain_line in P. apply negb_true_iff in P.
  apply orb_false_iff in P. destruct P as [P Un].
  apply orb_false_iff in P. destruct P as [P Fa].
  apply orb_false_iff in P. destruct P as [Pr Mo].
  unfold tallies, lines_of. cbn [filter]. rewrite Pr, Mo, Fa, Un. cbn.
  split; [lia|]. split; [reflexivity|].
  split; [intros f e []|]. now split.
Qed.

Lemma print_cases l w :
  (stdout_error w (stdout w) l = None
   /\ print l w = (printed w l, Returned tt))
  \/ (exists e, stdout_error w (stdout w) l = Some e
                /\ print l w = (w, Raised e)).
Proof.
  unfold print. destruct (stdout_error w (stdout w) l) as [e|].
  - right. now exists e.
  - now left.
Qed.

Lemma broke_off_print X files w out l e :
  stdout_error w out l = Some e -> broke_off X files w w e.
Proof.
  intros H. split; [apply same_machine_refl|].
  split; [now apply touched_refl|].
  split; [right; left; now exists out, l|].
  intros _. split; [reflexivity|]. right. now exists out, l.
Qed.

Lemma broke_off_outside (X : text -> Prop) files w e :
  X e -> broke_off X files w w e.
Proof.
  intros H. split; [apply same_machine_refl|].
  split; [now apply touched_refl|]. split; [now left|].
  intros _. split; [reflexivity|]. now left.
Qed.

End Runs.

(** ** One file *)

Section OneFile.

Variable shown : path -> outcome text.

Lemma reached_one f w n :
  reached [f] w n = Nat.eqb n (fs_file w f) && negb (is_mod f).
Proof. unfold reached. cbn [existsb]. apply orb_false_r. Qed.

Lemma counted_one f : counted [f] = if is_mod f then 0 else 1.
Proof. unfold counted. cbn [filter]. now destruct (is_mod f). Qed.

Lemma finished_one_same f w w' :
  fs_data w' = fs_data w ->
  (is_mod f = false -> processed (fs_read w f) = fs_read w f) ->
  finished [f] w w'.
Proof.
  intros D P n. rewrite D, reached_one.
  destruct (Nat.eqb n (fs_file w f)) eqn:E; [|reflexivity].
  destruct (is_mod f); [reflexivity|]. cbn [negb andb].
  apply Nat.eqb_eq in E. subst n. symmetry. now apply P.
Qed.

Lemma finished_one_stored f w w' content :
  is_mod f = false ->
  fs_read w f = Returned content ->
  (forall n, fs_data w' n
             = if Nat.eqb n (fs_file w f) then Returned (re_sub content)
               else fs_data w n) ->
  finished [f] w w'.
Proof.
  intros N R D n. rewrite (D n), reached_one, N. cbn [negb].
  rewrite andb_true_r.
  destruct (Nat.eqb n (fs_file w f)) eqn:E; [|reflexivity].
  apply Nat.eqb_eq in E. subst n. unfold fs_read in R. now rewrite R.
Qed.

Lemma touched_one_cut f w w' content written :
  is_mod f = false ->
  fs_read w f = Returned content ->
  (forall n, fs_data w' n
             = if Nat.eqb n (fs_file w f)
               then Returned (firstn written (re_sub content))
               else fs_data w n) ->
  touched [f] w w'.
Proof.
  intros N R D n. rewrite (D n), reached_one, N. cbn [negb].
  rewrite andb_true_r.
  destruct (Nat.eqb n (fs_file w f)) eqn:E; [right|now left].
  apply Nat.eqb_eq in E. subst n. split; [reflexivity|right].
  exists content, written. now split.
Qed.

Lemma not_settled f w content :
  is_mod f = false ->
  fs_read w f = Returned content ->
  snd (annotate content) = true ->
  all_settled [f] w -> False.
Proof.
  intros N R A S. specialize (S f (or_introl eq_refl) N).
  unfold settled, fs_read in *. rewrite R in S.
  unfold annotate in A. cbn in A. rewrite S, text_eqb_refl in A.
  discriminate.
Qed.

Lemma reported_one f w out :
  (forall e, is_mod f = false -> fs_read w f = Raised e ->
     In (ErrorProcessing f e) out /\ In (FailedToProcess (name f)) out) ->
  reported [f] w out.
Proof.
  intros H f0 e [<-|[]] N R. now apply H.
Qed.

Lemma went_through_mod f w c : is_mod f = true -> went_through [f] w c w c.
Proof.
  intros N. split; [apply same_machine_refl|].
  split; [apply finished_one_same; [reflexivity|congruence]|].
  exists []. rewrite app_nil_r. split; [reflexivity|].
  split; [apply tallies_nil|]. split; [now rewrite counted_one, N|].
  split; [apply reported_one; congruence|]. now split.
Qed.

Lemma went_through_failed f w c label e :
  is_mod f = false ->
  fs_read w f = Raised e ->
  went_through [f] w c
    (printed (printed (printed w (Processing label)) (ErrorProcessing f e))
       (FailedToProcess (name f)))
    (Counters (S (total_files c)) (files_modified c)).
Proof.
  intros N R. split; [now repeat split|].
  split; [apply finished_one_same; [reflexivity|now rewrite R]|].
  exists [Processing label; ErrorProcessing f e; FailedToProcess (name f)].
  split; [cbn; now rewrite <- !app_assoc|].
  split; [unfold tallies; cbn; lia|]. split; [now rewrite counted_one, N|].
  split; [|now split].
  apply reported_one. intros e0 _ R0. rewrite R in R0. injection R0 as <-.
  split; cbn; tauto.
Qed.

Lemma went_through_unchanged f w c label content :
  is_mod f = false ->
  fs_read w f = Returned content ->
  snd (annotate content) = false ->
  went_through [f] w c
    (printed (printed w (Processing label)) (NoChangesNeeded label))
    (Counters (S (total_files c)) (files_modified c)).
Proof.
  intros N R A. apply annotate_flag in A. split; [now repeat split|].
  split; [apply finished_one_same; [reflexivity|]|].
  { intros _. rewrite R. cbn. now rewrite A. }
  exists [Processing label; NoChangesNeeded label].
  split; [cbn; now rewrite <- !app_assoc|].
  split; [unfold tallies; cbn; lia|]. split; [now rewrite counted_one, N|].
  split; [|now split].
  apply reported_one. intros e0 _ R0. rewrite R in R0. discriminate.
Qed.

Lemma went_through_modified f w c label content :
  is_mod f = false ->
  fs_read w f = Returned content ->
  snd (annotate content) = true ->
  went_through [f] w c
    (printed (stored (printed w (Processing label)) (fs_file w f)
                (re_sub content))
       (Modified label))
    (Counters (S (total_files c)) (S (files_modified c))).
Proof.
  intros N R A. split; [now repeat split|].
  split; [apply (finished_one_stored f w _ content N R); reflexivity|].
  exists [Processing label; Modified label].
  split; [cbn; now rewrite <- !app_assoc|].
  split; [unfold tallies; cbn; lia|]. split; [now rewrite counted_one, N|].
  split.
  - apply reported_one. intros e0 _ R0. rewrite R in R0. discriminate.
  - intros S. destruct (not_settled f w content N R A S).
Qed.

(** A [print] has raised and the world holds the files of [w]. *)
Lemma broke_off_at_print X f w w' out l e :
  same_machine w w' -> fs_data w' = fs_data w ->
  stdout_error w out l = Some e -> broke_off X [f] w w' e.
Proof.
  intros M D C. split; [exact M|]. split; [now apply touched_refl|].
  split; [right; left; now exists out, l|].
  intros _. split; [exact D|]. right. now exists out, l.
Qed.

Lemma cause_print X files w out l e :
  stdout_error w out l = Some e -> cause X files w e.
Proof. intros H. right. left. now exists out, l. Qed.

Lemma cause_write X f w t fault :
  is_mod f = false -> fs_write_fault w f t = Some fault ->
  cause X [f] w (fault_error fault).
Proof.
  intros N H. right. right. exists f, t, fault.
  split; [now left|]. now split.
Qed.

(** What the body of the loops does with one file. *)
Lemma process_file_follows f c w :
  follows (fun e => is_mod f = false /\ shown f = Raised e) [f] w c
    (process_file shown f c w).
Proof.
  unfold process_file. fold (is_mod f). destruct (is_mod f) eqn:N.
  { split; [now apply went_through_mod|]. intros e [H _]. discriminate. }
  cbv beta iota delta [bind lift ret raise print read_text write_text
                       try_except add_utoipa_to_file].
  destruct (shown f) as [label|e] eqn:Sh.
  2:{ now apply broke_off_outside. }
  assert (Ok : forall e, ~ (false = false /\ Returned label = Raised e))
    by (intros e [_ H]; discriminate).
  destruct (stdout_error w (stdout w) (Processing label)) as [e|] eqn:P1.
  { exact (broke_off_at_print _ f w w _ _ e (same_machine_refl w)
             eq_refl P1). }
  change (fs_read (printed w (Processing label)) f) with (fs_read w f).
  destruct (fs_read w f) as [content|e0] eqn:R.
  - rewrite (annotate_eq content).
    destruct (snd (annotate content)) eqn:A.
    + change (fs_write_fault (printed w (Processing label)) f
                (re_sub content))
        with (fs_write_fault w f (re_sub content)).
      destruct (fs_write_fault w f (re_sub content)) as [[e|e written]|]
        eqn:Wf.
      * split; [now repeat split|]. split; [now apply touched_refl|].
        split; [exact (cause_write _ f w _ _ N Wf)|].
        intros S. destruct (not_settled f w content N R A S).
      * split; [now repeat split|].
        split; [apply (touched_one_cut f w _ content written N R);
                reflexivity|].
        split; [exact (cause_write _ f w _ _ N Wf)|].
        intros S. destruct (not_settled f w content N R A S).
      * match goal with
        | |- context [stdout_error ?w1 ?o (Modified label)] =>
            destruct (stdout_error w1 o (Modified label)) as [e|] eqn:P2
        end.
        -- split; [now repeat split|].
           split; [apply finished_touched,
                     (finished_one_stored f w _ content N R); reflexivity|].
           split; [exact (cause_print _ _ _ _ _ _ P2)|].
           intros S. destruct (not_settled f w content N R A S).
        -- split; [|exact Ok].
           now apply (went_through_modified f w c label content).
    + match goal with
      | |- context [stdout_error ?w1 ?o (NoChangesNeeded label)] =>
          destruct (stdout_error w1 o (NoChangesNeeded label)) as [e|] eqn:P2
      end.
      * refine (broke_off_at_print _ f w _ _ _ e _ eq_refl P2).
        now repeat split.
      * split; [|exact Ok].
        now apply (went_through_unchanged f w c label content).
  - match goal with
    | |- context [stdout_error ?w1 ?o (ErrorProcessing f e0)] =>
        destruct (stdout_error w1 o (ErrorProcessing f e0)) as [e|] eqn:P2
    end.
    { refine (broke_off_at_print _ f w _ _ _ e _ eq_refl P2).
      now repeat split. }
    match goal with
    | |- context [stdout_error ?w1 ?o (FailedToProcess (name f))] =>
        destruct (stdout_error w1 o (FailedToProcess (name f))) as [e|] eqn:P3
    end.
    { refine (broke_off_at_print _ f w _ _ _ e _ eq_refl P3).
      now repeat split. }
    split; [|exact Ok].
    now apply (went_through_failed f w c label e0).
Qed.

End OneFile.

(** ** The loops, the directory and the program *)

Section Loops.

(** A loop whose body does with each item what [follows] says does it with
    all of them. *)
Lemma for_each_follows {A : Type} (body : A -> counters -> M counters)
  (F : A -> list path) (X : A -> text -> Prop) (items : list A) :
  (forall a, In a items ->
     forall c w, follows (X a) (F a) w c (body a c w)) ->
  forall c w,
    follows (fun e => exists a, In a items /\ X a e) (flat_map F items) w c
      (for_each body items c w).
Proof.
  induction items as [|a items IH]; intros H c w.
  - cbn. split; [apply went_through_refl|]. intros e (a & [] & _).
  - cbn [for_each flat_map]. unfold bind.
    pose proof (H a (or_introl eq_refl) c w) as Ha.
    destruct (body a c w) as [w1 [c1|e]].
    + destruct Ha as [Ha Oka].
      assert (IH' := IH (fun b I => H b (or_intror I)) c1 w1).
      destruct (for_each body items c1 w1) as [w2 [c2|e]].
      * destruct IH' as [Hb Okb]. split.
        -- exact (went_through_trans _ _ _ _ _ _ _ _ Ha Hb).
        -- intros e (b & [<-|I] & Xb); [exact (Oka e Xb)|].
           apply (Okb e). now exists b.
      * apply (broke_off_after _ _ _ _ _ _ _ _ _ Ha).
        apply (broke_off_outside_more
                 (fun e => exists b, In b items /\ X b e)); [|exact IH'].
        intros x (b & I & Xb). exists b. split; [now right|assumption].
    + apply broke_off_more.
      apply (broke_off_outside_more (X a)); [|exact Ha].
      intros x Xa. exists a. split; [now left|assumption].
Qed.

Lemma for_in_follows {A : Type} (body : A -> counters -> M counters)
  (F : A -> list path) (X : A -> text -> Prop) (g : listing A) :
  (forall a, In a (found g) ->
     forall c w, follows (X a) (F a) w c (body a c w)) ->
  forall c w,
    follows (fun e => ends_with g = Some e
                      \/ exists a, In a (found g) /\ X a e)
      (flat_map F (found g)) w c (for_in body g c w).
Proof.
  intros H c w. unfold for_in, bind.
  pose proof (for_each_follows body F X (found g) H c w) as E.
  destruct (for_each body (found g) c w) as [w1 [c1|e]].
  - destruct E as [E Ok]. destruct (ends_with g) as [e|] eqn:G.
    + cbn. rewrite <- (app_nil_r (flat_map F (found g))).
      apply (broke_off_after _ _ _ _ _ _ _ _ _ E).
      apply broke_off_outside. now left.
    + cbn. split; [exact E|]. intros e [Q|Q]; [discriminate|].
      exact (Ok e Q).
  - apply (broke_off_outside_more
             (fun e => exists a, In a (found g) /\ X a e)); [|exact E].
    intros x Q. now right.
Qed.

Lemma flat_map_single (l : list path) : flat_map (fun a => [a]) l = l.
Proof. induction l as [|a l IH]; [reflexivity|]. cbn. now rewrite IH. Qed.

(** The loop over the files of a directory. *)
Lemma files_follow shown (g : listing path) c w :
  follows (fun e => ends_with g = Some e
                    \/ exists f, In f (found g) /\ is_mod f = false
                                 /\ shown f = Raised e)
    (found g) w c (for_in (process_file shown) g c w).
Proof.
  pose proof (for_in_follows (process_file shown) (fun a => [a])
                (fun f e => is_mod f = false /\ shown f = Raised e) g
                (fun f _ c1 w1 => process_file_follows shown f c1 w1) c w)
    as H.
  rewrite flat_map_single in H. exact H.
Qed.


(** One entry of the directory. *)
Lemma process_subdir_follows subdir c w :
  follows (outside_subdir subdir) (files_below subdir) w c
    (process_subdir subdir c w).
Proof.
  unfold process_subdir, files_below, outside_subdir, bind, lift.
  destruct (is_dir subdir) as [[|]|e] eqn:D.
  - destruct (print_cases (ProcessingSubdirectory (entry_name subdir)) w)
      as [[P ->]|(e & P & ->)].
    + pose proof (files_follow (relative_to types_dir) (rs_below subdir) c
                    (printed w (ProcessingSubdirectory (entry_name subdir))))
        as H.
      apply (follows_after _ [] _ w c _ c) in H;
        [|apply printed_went_through; [reflexivity|discriminate]].
      cbn [app] in H.
      destruct (for_in _ _ _ _) as [w1 [c1|e]].
      * destruct H as [H Ok]. split; [exact H|].
        intros e [Q|[_ Q]]; [discriminate|]. exact (Ok e Q).
      * apply (broke_off_outside_more _ _ _ _ _ _) with (2 := H).
        intros x Q. right. now split.
    + exact (broke_off_print _ _ w _ _ e P).
  - cbn. split; [apply went_through_refl|].
    intros e [Q|[Q _]]; discriminate.
  - apply broke_off_outside. now left.
Qed.

End Loops.

(** ** [process_types_directory] and [main] *)

Section Program.

(** A [print] has raised in a world that holds the files of [w]. *)
Lemma broke_off_early X files w w' out l e :
  same_machine w w' -> fs_data w' = fs_data w ->
  stdout_error w out l = Some e -> broke_off X files w w' e.
Proof.
  intros M D C. split; [exact M|]. split; [now apply touched_refl|].
  split; [right; left; now exists out, l|].
  intros _. split; [exact D|]. right. now exists out, l.
Qed.

(** A call outside the world has raised in a world that holds the files
    of [w]. *)
Lemma broke_off_outside_early (X : text -> Prop) files w w' e :
  same_machine w w' -> fs_data w' = fs_data w ->
  X e -> broke_off X files w w' e.
Proof.
  intros M D C. split; [exact M|]. split; [now apply touched_refl|].
  split; [now left|]. intros _. split; [exact D|]. now left.
Qed.

(** A [print] has raised after the loops. *)
Lemma broke_off_late X files w0 c0 w1 c1 w' out l e :
  went_through files w0 c0 w1 c1 ->
  same_machine w1 w' -> fs_data w' = fs_data w1 ->
  stdout_error w1 out l = Some e -> broke_off X files w0 w' e.
Proof.
  intros W M D C. rewrite <- (app_nil_r files).
  apply (broke_off_after X files [] w0 c0 w1 c1 w' e W).
  exact (broke_off_early X [] w1 w' out l e M D C).
Qed.

Lemma bind_assoc {A B C : Type} (m : M A) (k : A -> M B) (h : B -> M C) w :
  bind (bind m k) h w = bind m (fun a => bind (k a) h) w.
Proof.
  unfold bind. destruct (m w) as [w1 [a|e]]; reflexivity.
Qed.

Lemma directory_follows d c w :
  follows (fun e => ends_with (rs_files d) = Some e
                    \/ ends_with (iterdir d) = Some e
                    \/ exists subdir, In subdir (found (iterdir d))
                                      /\ outside_subdir subdir e)
    (all_files d) w c
    (bind (for_in (process_file by_name) (rs_files d) c)
          (fun c1 => for_in process_subdir (iterdir d) c1) w).
Proof.
  unfold bind, all_files, below.
  pose proof (files_follow by_name (rs_files d) c w) as H1.
  destruct (for_in (process_file by_name) (rs_files d) c w) as [w1 [c1|e]].
  - destruct H1 as [H1 Ok1].
    pose proof (for_in_follows process_subdir files_below outside_subdir
                  (iterdir d)
                  (fun s _ c2 w2 => process_subdir_follows s c2 w2) c1 w1)
      as H2.
    apply (follows_after _ _ _ _ _ _ _ _ H1) in H2.
    destruct (for_in process_subdir (iterdir d) c1 w1) as [w2 [c2|e]].
    + destruct H2 as [H2 Ok2]. split; [exact H2|].
      intros e [Q|[Q|Q]].
      * apply (Ok1 e). now left.
      * apply (Ok2 e). now left.
      * apply (Ok2 e). now right.
    + apply (broke_off_outside_more _ _ _ _ _ _) with (2 := H2).
      intros x [Q|Q]; auto.
  - apply broke_off_more.
    apply (broke_off_outside_more _ _ _ _ _ _) with (2 := H1).
    intros x [Q|(f & _ & _ & Q)]; [now left|discriminate].
Qed.

(** The world after the four lines of the summary. *)
Lemma directory_cases d w :
  match process_types_directory d w with
  | (w', Returned true) =>
      types_dir_exists d = Returned true
      /\ (forall e, ~ outside_directory d e)
      /\ exists c w3,
           went_through (all_files d)
             (printed w (ProcessingFilesIn types_dir)) (Counters 0 0) w3 c
           /\ w' = after_summary w3 c
  | (w', Returned false) =>
      types_dir_exists d = Returned false
      /\ w' = printed (printed w (DirectoryNotFound types_dir)) RunFromRoot
  | (w', Raised e) => broke_off (outside_directory d) (all_files d) w w' e
  end.
Proof.
  unfold process_types_directory.
  unfold bind at 1. unfold lift.
  destruct (types_dir_exists d) as [[|]|e] eqn:T; cbn [negb].
  - unfold bind at 1.
    destruct (print_cases (ProcessingFilesIn types_dir) w)
      as [[P ->]|(e & P & ->)].
    2:{ exact (broke_off_print _ _ w _ _ e P). }
    rewrite <- (bind_assoc (for_in (process_file by_name) (rs_files d)
                              (Counters 0 0))
                  (fun c1 => for_in process_subdir (iterdir d) c1)).
    unfold bind at 1.
    pose proof (directory_follows d (Counters 0 0)
                  (printed w (ProcessingFilesIn types_dir))) as H.
    destruct (bind (for_in (process_file by_name) (rs_files d)
                      (Counters 0 0)) _ _) as [w3 [c|e]].
    2:{ apply (broke_off_outside_more _ _ _ _ _ _) with (2 := H).
        intros x Q. now right. }
    destruct H as [H Ok].
    assert (B : forall w' out l e0,
              same_machine w3 w' -> fs_data w' = fs_data w3 ->
              stdout_error w3 out l = Some e0 ->
              broke_off (outside_directory d) (all_files d) w w' e0).
    { intros w' out l e0 M D P0.
      exact (broke_off_late _ _ _ _ _ _ w' out l e0 H M D P0). }
    unfold bind at 1.
    destruct (print_cases SummaryTitle w3) as [[P1 ->]|(e & P1 & ->)].
    2:{ exact (B w3 _ _ e (same_machine_refl w3) eq_refl P1). }
    unfold bind at 1.
    destruct (print_cases (SummaryTotal (total_files c))
                (printed w3 SummaryTitle)) as [[P2 ->]|(e & P2 & ->)].
    2:{ refine (B _ _ _ e _ eq_refl P2). now repeat split. }
    unfold bind at 1.
    destruct (print_cases (SummaryModified (files_modified c))
                (printed (printed w3 SummaryTitle)
                   (SummaryTotal (total_files c))))
      as [[P3 ->]|(e & P3 & ->)].
    2:{ refine (B _ _ _ e _ eq_refl P3). now repeat split. }
    unfold bind at 1.
    destruct (print_cases
                (SummaryUnchanged
                   (Z.of_nat (total_files c) - Z.of_nat (files_modified c)))
                (printed
                   (printed (printed w3 SummaryTitle)
                      (SummaryTotal (total_files c)))
                   (SummaryModified (files_modified c))))
      as [[P4 ->]|(e & P4 & ->)].
    2:{ refine (B _ _ _ e _ eq_refl P4). now repeat split. }
    cbn [ret]. split; [reflexivity|]. split.
    { intros e [Q|Q]; [congruence|]. exact (Ok e Q). }
    exists c, w3. now split.
  - unfold bind at 1.
    destruct (print_cases (DirectoryNotFound types_dir) w)
      as [[P ->]|(e & P & ->)].
    2:{ exact (broke_off_print _ _ w _ _ e P). }
    unfold bind at 1.
    destruct (print_cases RunFromRoot
                (printed w (DirectoryNotFound types_dir)))
      as [[P2 ->]|(e & P2 & ->)].
    2:{ refine (broke_off_early _ _ w _ _ _ e _ eq_refl P2).
        now repeat split. }
    cbn [ret]. now split.
  - apply broke_off_outside. now left.
Qed.

Lemma main_cases d w :
  match main d w with
  | (w', Returns) =>
      cargo_toml_exists d = Returned true
      /\ types_dir_exists d = Returned true
      /\ (forall e, ~ outside d e)
      /\ exists c w3,
           went_through (all_files d) (at_start w) (Counters 0 0) w3 c
           /\ w' = after_success (after_summary w3 c)
  | (w', SysExit status) =>
      status = 1
      /\ ((cargo_toml_exists d = Returned false
           /\ w' = printed
                     (printed
                        (printed (printed (printed w BannerTitle) BannerRule)
                           CargoTomlNotFound)
                        RunFromRoot)
                     ExampleCommand)
          \/ (cargo_toml_exists d = Returned true
              /\ types_dir_exists d = Returned false
              /\ w' = printed
                        (printed
                           (printed
                              (printed (printed w BannerTitle) BannerRule)
                              (DirectoryNotFound types_dir))
                           RunFromRoot)
                        CompletedWithErrors))
  | (w', Uncaught e) => broke_off (outside d) (all_files d) w w' e
  end.
Proof.
  unfold main, main_steps.
  unfold bind at 1.
  destruct (print_cases BannerTitle w) as [[P1 ->]|(e & P1 & ->)].
  2:{ exact (broke_off_print _ _ w _ _ e P1). }
  unfold bind at 1.
  destruct (print_cases BannerRule (printed w BannerTitle))
    as [[P2 ->]|(e & P2 & ->)].
  2:{ refine (broke_off_early _ _ w _ _ _ e _ eq_refl P2).
      now repeat split. }
  unfold bind at 1. unfold lift.
  destruct (cargo_toml_exists d) as [[|]|e] eqn:C; cbn [negb].
  - unfold bind at 1.
    pose proof (directory_cases d (printed (printed w BannerTitle)
                                     BannerRule)) as H.
    destruct (process_types_directory d _) as [w1 [[|]|e]].
    + destruct H as (T & Ok & c & w3 & W & ->).
      assert (B : forall w' out l e0,
                same_machine w3 w' -> fs_data w' = fs_data w3 ->
                stdout_error w3 out l = Some e0 ->
                broke_off (outside d) (all_files d) w w' e0).
      { intros w' out l e0 M D P0.
        exact (broke_off_late _ _ (at_start w) _ _ _ w' out l e0 W M D P0). }
      unfold bind at 1.
      destruct (print_cases CompletedSuccessfully (after_summary w3 c))
        as [[Q1 ->]|(e & Q1 & ->)].
      2:{ refine (B _ _ _ e _ eq_refl Q1). now repeat split. }
      unfold bind at 1.
      destruct (print_cases NextSteps
                  (printed (after_summary w3 c) CompletedSuccessfully))
        as [[Q2 ->]|(e & Q2 & ->)].
      2:{ refine (B _ _ _ e _ eq_refl Q2). now repeat split. }
      unfold bind at 1.
      destruct (print_cases NextStepBuild
                  (printed
                     (printed (after_summary w3 c) CompletedSuccessfully)
                     NextSteps))
        as [[Q3 ->]|(e & Q3 & ->)].
      2:{ refine (B _ _ _ e _ eq_refl Q3). now repeat split. }
      unfold bind at 1.
      destruct (print_cases NextStepDiff
                  (printed
                     (printed
                        (printed (after_summary w3 c) CompletedSuccessfully)
                        NextSteps)
                     NextStepBuild))
        as [[Q4 ->]|(e & Q4 & ->)].
      2:{ refine (B _ _ _ e _ eq_refl Q4). now repeat split. }
      unfold bind at 1.
      destruct (print_cases NextStepFmt
                  (printed
                     (printed
                        (printed
                           (printed (after_summary w3 c)
                              CompletedSuccessfully)
                           NextSteps)
                        NextStepBuild)
                     NextStepDiff))
        as [[Q5 ->]|(e & Q5 & ->)].
      2:{ refine (B _ _ _ e _ eq_refl Q5). now repeat split. }
      cbn [ret]. split; [reflexivity|]. split; [exact T|].
      split; [intros e [Q|Q]; [congruence|exact (Ok e Q)]|].
      exists c, w3. now split.
    + destruct H as (T & ->).
      unfold bind at 1.
      destruct (print_cases CompletedWithErrors
                  (printed
                     (printed (printed (printed w BannerTitle) BannerRule)
                        (DirectoryNotFound types_dir))
                     RunFromRoot))
        as [[Q1 ->]|(e & Q1 & ->)].
      2:{ refine (broke_off_early _ _ w _ _ _ e _ eq_refl Q1).
          now repeat split. }
      cbn [ret]. split; [reflexivity|]. right. now repeat split.
    + apply (broke_off_outside_more _ _ _ _ _ _) with (2 := H).
      intros x Q. now right.
  - unfold bind at 1.
    destruct (print_cases CargoTomlNotFound
                (printed (printed w BannerTitle) BannerRule))
      as [[Q1 ->]|(e & Q1 & ->)].
    2:{ refine (broke_off_early _ _ w _ _ _ e _ eq_refl Q1).
        now repeat split. }
    unfold bind at 1.
    destruct (print_cases RunFromRoot
                (printed (printed (printed w BannerTitle) BannerRule)
                   CargoTomlNotFound))
      as [[Q2 ->]|(e & Q2 & ->)].
    2:{ refine (broke_off_early _ _ w _ _ _ e _ eq_refl Q2).
        now repeat split. }
    unfold bind at 1.
    destruct (print_cases ExampleCommand
                (printed
                   (printed (printed (printed w BannerTitle) BannerRule)
                      CargoTomlNotFound)
                   RunFromRoot))
      as [[Q3 ->]|(e & Q3 & ->)].
    2:{ refine (broke_off_early _ _ w _ _ _ e _ eq_refl Q3).
        now repeat split. }
    cbn [ret]. split; [reflexivity|]. left. now split.
  - apply broke_off_outside_early; [now repeat split|reflexivity|now left].
Qed.

End Program.

(** ** Failures while a file is processed *)

Section Failures.




End Failures.




(** ** The program as a whole *)

Section Whole.

Lemma main_returns d w :
  snd (main d w) = Returns ->
  cargo_toml_exists d = Returned true
  /\ types_dir_exists d = Returned true
  /\ (forall e, ~ outside d e)
  /\ exists c w3,
       went_through (all_files d) (at_start w) (Counters 0 0) w3 c
       /\ fst (main d w) = after_success (after_summary w3 c).
Proof.
  pose proof (main_cases d w) as H.
  destruct (main d w) as [w' [|n|e]]; cbn [fst snd]; try discriminate.
  intros _. exact H.
Qed.

(** The lines a run that returns has printed. *)
Lemma stdout_after w3 c out w :
  stdout w3 = stdout (at_start w) ++ out ->
  stdout (after_success (after_summary w3 c))
  = stdout w
    ++ BannerTitle :: BannerRule :: ProcessingFilesIn types_dir :: out
    ++ [SummaryTitle; SummaryTotal (total_files c);
        SummaryModified (files_modified c);
        SummaryUnchanged
          (Z.of_nat (total_files c) - Z.of_nat (files_modified c));
        CompletedSuccessfully; NextSteps; NextStepBuild; NextStepDiff;
        NextStepFmt].
Proof.
  intros S. cbn [after_success after_summary printed stdout].
  rewrite S. cbn [at_start printed stdout].
  repeat (rewrite <- app_assoc; cbn [app]). reflexivity.
Qed.

Lemma settled_after files w0 w :
  fs_file w = fs_file w0 -> finished files w0 w -> all_settled files w.
Proof.
  intros F H f I N. unfold settled. rewrite F, (H (fs_file w0 f)).
  replace (reached files w0 (fs_file w0 f)) with true
    by (symmetry; apply reached_In; now exists f).
  destruct (fs_data w0 (fs_file w0 f)); cbn; [|exact Logic.I].
  apply re_sub_idempotent.
Qed.

Lemma quiet_printed w l : quiet w -> quiet (printed w l).
Proof. intros Q out l0. exact (Q out l0). Qed.

Lemma bind_print_quiet {A : Type} l (k : unit -> M A) w :
  quiet w -> bind (print l) k w = k tt (printed w l).
Proof. intros Q. unfold bind, print. now rewrite Q. Qed.

Lemma bind_lift {A B : Type} (a : A) (k : A -> M B) w :
  bind (lift (Returned a)) k w = k a w.
Proof. reflexivity. Qed.

End Whole.

(** X1.  When [main] leaves by [sys.exit], the status is 1, [exists] has
    answered [False] for [async-openai/Cargo.toml] or for the directory
    [async-openai/src/types], and no file has been written.  On a terminal
    whose prints do not raise, such an answer always ends the program that
    way. *)
Theorem exit_1_iff_not_in_repository d w :
  (forall status,
      snd (main d w) = SysExit status ->
      status = 1
      /\ fs_data (fst (main d w)) = fs_data w
      /\ (cargo_toml_exists d = Returned false
          \/ (cargo_toml_exists d = Returned true
              /\ types_dir_exists d = Returned false)))
  /\ (quiet w ->
      cargo_toml_exists d = Returned false
      \/ (cargo_toml_exists d = Returned true
          /\ types_dir_exists d = Returned false) ->
      snd (main d w) = SysExit 1).
Proof.
  split.
  - pose proof (main_cases d w) as H.
    destruct (main d w) as [w' [|n|e]]; cbn [fst snd]; try discriminate.
    intros status E. injection E as <-.
    destruct H as [-> [[C ->]|(C & T & ->)]];
      (split; [reflexivity|]); (split; [reflexivity|]); auto.
  - intros Q H. unfold main, main_steps.
    repeat (rewrite bind_print_quiet by (repeat apply quiet_printed; exact Q)).
    destruct H as [->|[-> T]]; rewrite bind_lift; cbn [negb].
    + repeat (rewrite bind_print_quiet
                by (repeat apply quiet_printed; exact Q)).
      reflexivity.
    + unfold bind at 1. unfold process_types_directory.
      rewrite T, bind_lift. cbn [negb].
      repeat (rewrite bind_print_quiet
                by (repeat apply quiet_printed; exact Q)).
      cbn [ret].
      repeat (rewrite bind_print_quiet
                by (repeat apply quiet_printed; exact Q)).
      reflexivity.
Qed.


(** X3.  When [main] returns, each file that one of the [.rs] paths of
    the two loops, not called [mod.rs], leads to holds the result of the
    pass on what it held (a file that could not be read is as it was), and
    every other file is as it was. *)
Theorem files_after_a_run d w :
  snd (main d w) = Returns ->
  forall n,
    fs_data (fst (main d w)) n
    = if reached (all_files d) w n then processed (fs_data w n)
      else fs_data w n.
Proof.
  intros H. destruct (main_returns d w H)
    as (_ & _ & _ & c & w3 & (_ & F & _) & ->).
  exact F.
Qed.

Lemma files_after_a_run_witness :
  snd (main sample_layout sample_world) = Returns
  /\ forall n,
       fs_data (fst (main sample_layout sample_world)) n
       = if reached (all_files sample_layout) sample_world n
         then processed (fs_data sample_world n)
         else fs_data sample_world n.
Proof.
  split; [vm_compute; reflexivity|].
  apply (files_after_a_run sample_layout sample_world).
  vm_compute; reflexivity.
Defined.

(** X4.  Running the program again after a run that returned writes no
    file, however the second run ends; and on a terminal whose prints do
    not raise the second run returns too, and its summary counts the same
    files and none modified. *)
Theorem second_run_changes_nothing d w :
  snd (main d w) = Returns ->
  fs_data (fst (main d (fst (main d w)))) = fs_data (fst (main d w))
  /\ (quiet w ->
      snd (main d (fst (main d w))) = Returns
      /\ exists log,
           stdout (fst (main d (fst (main d w))))
           = stdout (fst (main d w))
             ++ BannerTitle :: BannerRule :: ProcessingFilesIn types_dir
                :: log
             ++ [SummaryTitle; SummaryTotal (counted (all_files d));
                 SummaryModified 0;
                 SummaryUnchanged
                   (Z.of_nat (counted (all_files d)) - Z.of_nat 0);
                 CompletedSuccessfully; NextSteps; NextStepBuild;
                 NextStepDiff; NextStepFmt]).
Proof.
  intros H.
  destruct (main_returns d w H)
    as (C & T & Ok & c & w3 & ((Mf & Mw & Ms) & F & _) & E).
  rewrite E. set (w1 := after_success (after_summary w3 c)).
  assert (S : all_settled (all_files d) (at_start w1)).
  { apply (settled_after (all_files d) w); [exact Mf|exact F]. }
  pose proof (main_cases d w1) as H2.
  destruct (main d w1) as [w2 [|status|e]] eqn:R2; cbn [fst snd].
  - destruct H2 as (_ & _ & _ & c2 & w4 & (_ & _ & out & So & Ta & N & _ & Q)
                    & ->).
    destruct (Q S) as [D Z]. split; [exact D|].
    intros _. split; [reflexivity|].
    exists out. rewrite (stdout_after w4 c2 out w1 So).
    destruct Ta as (T1 & T2 & _). cbn [total_files files_modified] in T1, T2.
    now rewrite T1, T2, N, Z.
  - destruct H2 as [_ [[C2 _]|(_ & T2 & _)]]; congruence.
  - destruct H2 as (_ & _ & _ & Q). destruct (Q S) as [D Ca].
    split; [exact D|]. intros Qw. exfalso.
    destruct Ca as [Ca|(out & l & Ca)]; [exact (Ok e Ca)|].
    change (stdout_error w1) with (stdout_error w3) in Ca.
    rewrite Ms in Ca. cbn [at_start printed stdout_error] in Ca.
    now rewrite Qw in Ca.
Qed.

Lemma second_run_changes_nothing_witness :
  snd (main sample_layout sample_world) = Returns
  /\ fs_data (fst (main sample_layout
                     (fst (main sample_layout sample_world))))
     = fs_data (fst (main sample_layout sample_world))
  /\ snd (main sample_layout (fst (main sample_layout sample_world)))
     = Returns.
Proof.
  split; [vm_compute; reflexivity|].
  destruct (second_run_changes_nothing sample_layout sample_world)
    as [A B]; [vm_compute; reflexivity|].
  split; [exact A|]. apply B. intros out l. reflexivity.
Defined.





(** X7.  When [main] returns, the output ends with the summary and the
    closing lines; the total of the summary is the number of [.rs] files of
    the two loops not called [mod.rs], the files modified are at most as
    many, and the files unchanged are the difference (the files that failed
    are among them). *)
Theorem summary_of_a_run d w :
  snd (main d w) = Returns ->
  exists log modified,
    stdout (fst (main d w))
    = stdout w
      ++ BannerTitle :: BannerRule :: ProcessingFilesIn types_dir :: log
      ++ [SummaryTitle; SummaryTotal (counted (all_files d));
          SummaryModified modified;
          SummaryUnchanged
            (Z.of_nat (counted (all_files d)) - Z.of_nat modified);
          CompletedSuccessfully; NextSteps; NextStepBuild; NextStepDiff;
          NextStepFmt]
    /\ modified <= counted (all_files d).
Proof.
  intros H.
  destruct (main_returns d w H)
    as (_ & _ & _ & c & w3 & (_ & _ & out & S & (T1 & T2 & T3) & N & _) & ->).
  cbn [total_files files_modified] in T1, T2.
  exists out, (files_modified c).
  rewrite (stdout_after w3 c out w S), T1, N. split; [reflexivity|lia].
Qed.

Lemma summary_of_a_run_witness :
  snd (main sample_layout sample_world) = Returns
  /\ exists log modified,
       stdout (fst (main sample_layout sample_world))
       = stdout sample_world
         ++ BannerTitle :: BannerRule :: ProcessingFilesIn types_dir :: log
         ++ [SummaryTitle; SummaryTotal (counted (all_files sample_layout));
             SummaryModified modified;
             SummaryUnchanged
               (Z.of_nat (counted (all_files sample_layout))
                - Z.of_nat modified);
             CompletedSuccessfully; NextSteps; NextStepBuild; NextStepDiff;
             NextStepFmt]
       /\ modified <= counted (all_files sample_layout).
Proof.
  split; [vm_compute; reflexivity|].
  apply (summary_of_a_run sample_layout sample_world).
  vm_compute; reflexivity.
Defined.


(** X17.  When [main] returns, the numbers of the summary are the numbers
    of lines printed: the total is the number of [Processing] lines, the
    files modified the number of [Modified] lines, and the files unchanged
    the number of [No changes needed] lines and of [Failed to process] lines
    together. *)
Theorem summary_agrees_with_the_lines d w :
  snd (main d w) = Returns ->
  exists out total modified unchanged,
    stdout (fst (main d w)) = stdout w ++ out
    /\ In (SummaryTotal total) out
    /\ In (SummaryModified modified) out
    /\ In (SummaryUnchanged unchanged) out
    /\ lines_of is_processing out = total
    /\ lines_of is_modified out = modified
    /\ Z.of_nat (lines_of is_unchanged out + lines_of is_failed out)
       = unchanged.
Proof.
  intros H.
  destruct (main_returns d w H)
    as (_ & _ & _ & c & w3 & (_ & _ & out & S & (T1 & T2 & T3) & _) & ->).
  cbn [total_files files_modified] in T1, T2.
  eexists. exists (total_files c), (files_modified c),
    (Z.of_nat (total_files c) - Z.of_nat (files_modified c))%Z.
  split; [exact (stdout_after w3 c out w S)|].
  split; [cbn; rewrite in_app_iff; cbn; tauto|].
  split; [cbn; rewrite in_app_iff; cbn; tauto|].
  split; [cbn; rewrite in_app_iff; cbn; tauto|].
  change (BannerTitle :: BannerRule :: ProcessingFilesIn types_dir :: ?l)
    with ([BannerTitle; BannerRule; ProcessingFilesIn types_dir] ++ l).
  rewrite !lines_of_app. cbn [lines_of filter length Nat.add
    is_processing is_modified is_unchanged is_failed].
  repeat split; lia.
Qed.

Lemma summary_agrees_with_the_lines_witness :
  snd (main sample_layout sample_world) = Returns
  /\ exists out total modified unchanged,
       stdout (fst (main sample_layout sample_world))
       = stdout sample_world ++ out
       /\ In (SummaryTotal total) out
       /\ In (SummaryModified modified) out
       /\ In (SummaryUnchanged unchanged) out
       /\ lines_of is_processing out = total
       /\ lines_of is_modified out = modified
       /\ Z.of_nat (lines_of is_unchanged out + lines_of is_failed out)
          = unchanged.
Proof.
  split; [vm_compute; reflexivity|].
  apply (summary_agrees_with_the_lines sample_layout sample_world).
  vm_compute; reflexivity.
Defined.
